(** * Web Code Modernizer: the rewrite engine of [scripts/modernize.py]

    A shallow embedding of the class [CodeModernizer] and of the Python
    primitives it is built from ([str.replace], [in], [re.findall],
    [re.search], [re.sub], [Path.stem], [str.title]), followed by the
    properties of the rule catalogue, of the per-file transformers and of the
    session.

    Text is a list of characters.  The character classes that [\w], [\s],
    [\b] and [str.title] consult are those of Python on code points below
    128, and the statements that depend on them are made for texts of
    ASCII characters; the literal operations do not depend on them. *)

From Stdlib Require Import Ascii String List Arith Lia Bool DecimalString.
From stdpp Require Import gmap strings.
Import ListNotations.

Local Open Scope list_scope.

(** ** Text and the Python string primitives *)

Definition text := list ascii.

Definition txt (s : string) : text := list_ascii_of_string s.

Definition dq : ascii := "034"%char.
Definition nl : ascii := "010"%char.

(** [str(n)] for a non-negative integer. *)
Definition str_nat (n : nat) : text :=
  txt (NilEmpty.string_of_uint (Nat.to_uint n)).

Module Py.

(** [s[len(p):]] when [s.startswith(p)]. *)
Fixpoint strip_prefix (p s : text) : option text :=
  match p, s with
  | [], _ => Some s
  | _ :: _, [] => None
  | a :: p', b :: s' => if Ascii.eqb a b then strip_prefix p' s' else None
  end.

Definition startswith (p s : text) : bool :=
  match strip_prefix p s with Some _ => true | None => false end.

(** [p in s]. *)
Fixpoint isin (p s : text) : bool :=
  match strip_prefix p s with
  | Some _ => true
  | None => match s with [] => false | _ :: s' => isin p s' end
  end.

(** [s.partition(p)] when [p] occurs: the text before the leftmost
    occurrence and the text after it. *)
Fixpoint partition_first (p s : text) : option (text * text) :=
  match strip_prefix p s with
  | Some r => Some ([], r)
  | None =>
      match s with
      | [] => None
      | c :: s' =>
          match partition_first p s' with
          | Some (a, b) => Some (c :: a, b)
          | None => None
          end
      end
  end.

(** [s.replace(old, new, count)] for a non-empty [old]: the leftmost
    [count] non-overlapping occurrences, left to right. *)
Fixpoint replace_count (old new : text) (count : nat) (s : text) : text :=
  match count with
  | 0 => s
  | S k =>
      match partition_first old s with
      | Some (a, b) => a ++ new ++ replace_count old new k b
      | None => s
      end
  end.

(** [s.replace(old, new, count)] for the empty [old]: [new] goes before each of the first
    [count] characters, and once more at the end when [count] allows. *)
Fixpoint replace_empty (new : text) (count : nat) (s : text) : text :=
  match count with
  | 0 => s
  | S k =>
      new ++ match s with
             | [] => []
             | c :: s' => c :: replace_empty new k s'
             end
  end.

(** [s.replace(old, new[, count])]; [None] is the call without a count,
    where every occurrence goes: a text of length [n] holds at most [n]
    disjoint occurrences of a non-empty [old], and [n + 1] places for an
    empty one. *)
Definition replace (old new : text) (count : option nat) (s : text) : text :=
  let n := match count with Some n => n | None => S (length s) end in
  match old with
  | [] => replace_empty new n s
  | _ :: _ => replace_count old new n s
  end.

(** ASCII character classes. *)
Definition is_lower (c : ascii) : bool :=
  let n := nat_of_ascii c in (97 <=? n) && (n <=? 122).
Definition is_upper (c : ascii) : bool :=
  let n := nat_of_ascii c in (65 <=? n) && (n <=? 90).
Definition is_digit (c : ascii) : bool :=
  let n := nat_of_ascii c in (48 <=? n) && (n <=? 57).
Definition is_cased (c : ascii) : bool := is_lower c || is_upper c.
Definition to_upper (c : ascii) : ascii :=
  if is_lower c then ascii_of_nat (nat_of_ascii c - 32) else c.
Definition to_lower (c : ascii) : ascii :=
  if is_upper c then ascii_of_nat (nat_of_ascii c + 32) else c.

(** [str.title]: a cased character that follows an uncased one (or starts
    the text) is upper-cased, one that follows a cased character is
    lower-cased, the others stay. *)
Fixpoint title_from (previous_is_cased : bool) (s : text) : text :=
  match s with
  | [] => []
  | c :: s' =>
      (if is_cased c
       then if previous_is_cased then to_lower c else to_upper c
       else c) :: title_from (is_cased c) s'
  end.

Definition title (s : text) : text := title_from false s.

(** [s.split(sep)] for a one-character separator. *)
Fixpoint split_on (sep : ascii) (s : text) : list text :=
  match s with
  | [] => [[]]
  | c :: s' =>
      if Ascii.eqb c sep then [] :: split_on sep s'
      else match split_on sep s' with
           | [] => [[c]]
           | w :: ws => (c :: w) :: ws
           end
  end.

(** [s.rfind(c)], [None] for -1. *)
Fixpoint rfind (c : ascii) (s : text) : option nat :=
  match s with
  | [] => None
  | d :: s' =>
      match rfind c s' with
      | Some i => Some (S i)
      | None => if Ascii.eqb d c then Some 0 else None
      end
  end.

(** [PurePosixPath(s).name]: the last of the components that are neither
    empty nor a single dot, the empty text when there is none. *)
Definition path_name (s : text) : text :=
  List.last (List.filter (fun x => negb (match x with
                               | [] => true
                               | [d] => Ascii.eqb d "."
                               | _ => false
                               end)) (split_on "/" s)) [].

(** [PurePosixPath(s).stem]: the name up to its last dot, when that dot is
    neither the first nor the last character of the name. *)
Definition path_stem (s : text) : text :=
  let name := path_name s in
  match rfind "." name with
  | Some i => if (0 <? i) && (i <? length name - 1) then firstn i name else name
  | None => name
  end.

End Py.

(** ** The regular expressions of the program

    Each pattern is written out as an anchored matcher: given the character
    before the position (for [\b]) and the text from the position on, it
    returns the value [re.findall] reports for the match, the matched text
    and the text after it.  No pattern of the program matches the empty
    text, so a scan always advances. *)

Module Re.

Definition matcher (A : Type) : Type :=
  option ascii -> text -> option (A * text * text).

(** [\s] and [\w]. *)
Definition is_space (c : ascii) : bool :=
  let n := nat_of_ascii c in
  ((9 <=? n) && (n <=? 13)) || ((28 <=? n) && (n <=? 32)).
Definition is_word (c : ascii) : bool :=
  Py.is_lower c || Py.is_upper c || Py.is_digit c || Ascii.eqb c "_".

(** [\b]: exactly one of the two neighbours is a word character. *)
Definition word_boundary (prev : option ascii) (s : text) : bool :=
  xorb (match prev with Some c => is_word c | None => false end)
       (match s with c :: _ => is_word c | [] => false end).

(** The longest run of characters of a class, and what follows it. *)
Fixpoint span (f : ascii -> bool) (s : text) : text * text :=
  match s with
  | [] => ([], [])
  | c :: s' =>
      if f c then let (a, b) := span f s' in (c :: a, b) else ([], s)
  end.

(** [[^stop]*stop]: the characters before the first [stop], and the text
    after it. *)
Fixpoint span_until (stop : ascii) (s : text) : option (text * text) :=
  match s with
  | [] => None
  | c :: s' =>
      if Ascii.eqb c stop then Some ([], s')
      else match span_until stop s' with
           | Some (a, b) => Some (c :: a, b)
           | None => None
           end
  end.

Definition last_char (prev : option ascii) (w : text) : option ascii :=
  match rev w with c :: _ => Some c | [] => prev end.

(** [re.findall]: leftmost matches, each scan resuming after the previous
    match. *)
Fixpoint findall_fuel {A} (m : matcher A) (fuel : nat) (prev : option ascii)
    (s : text) : list A :=
  match fuel with
  | 0 => []
  | S f =>
      match m prev s with
      | Some (x, w, rest) => x :: findall_fuel m f (last_char prev w) rest
      | None =>
          match s with
          | [] => []
          | c :: s' => findall_fuel m f (Some c) s'
          end
      end
  end.

Definition findall {A} (m : matcher A) (s : text) : list A :=
  findall_fuel m (S (length s)) None s.

(** [re.search]: the text before the leftmost match, and the match. *)
Fixpoint search_from {A} (m : matcher A) (prev : option ascii) (s : text)
    : option (text * (A * text * text)) :=
  match m prev s with
  | Some r => Some ([], r)
  | None =>
      match s with
      | [] => None
      | c :: s' =>
          match search_from m (Some c) s' with
          | Some (b, r) => Some (c :: b, r)
          | None => None
          end
      end
  end.

Definition search {A} (m : matcher A) (s : text) : option A :=
  match search_from m None s with
  | Some (_, (x, _, _)) => Some x
  | None => None
  end.

(** [re.sub(pattern, repl, s, count=1)] for a replacement without
    backslashes. *)
Definition sub_first {A} (m : matcher A) (repl s : text) : text :=
  match search_from m None s with
  | Some (b, (_, _, rest)) => b ++ repl ++ rest
  | None => s
  end.

(** The attribute pattern of [style] and [src]: the name, an equals sign
    and a double quote, then as a group the characters up to the next
    double quote, then that quote. *)
Definition attr_open (name : string) : text := txt name ++ txt "=" ++ [dq].

Definition quoted_attr (name : string) : matcher text := fun _ s =>
  match Py.strip_prefix (attr_open name) s with
  | Some r =>
      match span_until dq r with
      | Some (g, rest) => Some (g, attr_open name ++ g ++ [dq], rest)
      | None => None
      end
  | None => None
  end.

(** [[^>]*alt=] at the start of [r]: the lookahead of the image pattern. *)
Fixpoint alt_ahead (r : text) : bool :=
  if Py.startswith (txt "alt=") r then true
  else match r with
       | [] => false
       | c :: r' => if Ascii.eqb c ">" then false else alt_ahead r'
       end.

(** [<img(?![^>]*alt=)[^>]*>]; the pattern has no group, so [findall]
    reports the whole match. *)
Definition img_without_alt : matcher text := fun _ s =>
  match Py.strip_prefix (txt "<img") s with
  | Some r =>
      if alt_ahead r then None
      else match span_until ">" r with
           | Some (g, rest) => let w := txt "<img" ++ g ++ txt ">" in
                               Some (w, w, rest)
           | None => None
           end
  | None => None
  end.

(** [\s*=] at the start of [r]: the white space, and the text after the
    equals sign. *)
Definition spaces_equals (r : text) : option (text * text) :=
  let (ws, r1) := span is_space r in
  match r1 with
  | e :: rest => if Ascii.eqb e "=" then Some (ws, rest) else None
  | [] => None
  end.

(** [\bvar\s+(\w+)\s*=].  The classes [\s], [\w] and [=] are pairwise
    disjoint, so the greedy runs are the only way to match. *)
Definition var_declaration : matcher text := fun prev s =>
  if word_boundary prev s then
    match Py.strip_prefix (txt "var") s with
    | Some r =>
        let (ws, r1) := span is_space r in
        let (name, r2) := span is_word r1 in
        match ws, name, spaces_equals r2 with
        | _ :: _, _ :: _, Some (ws', rest) =>
            Some (name, txt "var" ++ ws ++ name ++ ws' ++ txt "=", rest)
        | _, _, _ => None
        end
    | None => None
    end
  else None.

(** [\b{var_name}\s*=]; the name comes out of [\w+], so it stands for
    itself in the pattern. *)
Definition assignment_to (var_name : text) : matcher unit := fun prev s =>
  if word_boundary prev s then
    match Py.strip_prefix var_name s with
    | Some r =>
        match spaces_equals r with
        | Some (ws, rest) => Some (tt, var_name ++ ws ++ txt "=", rest)
        | None => None
        end
    | None => None
    end
  else None.

(** [\bvar\s+{var_name}\s*=]. *)
Definition declaration_of (var_name : text) : matcher unit := fun prev s =>
  if word_boundary prev s then
    match Py.strip_prefix (txt "var") s with
    | Some r =>
        let (ws, r1) := span is_space r in
        match ws, Py.strip_prefix var_name r1 with
        | _ :: _, Some r2 =>
            match spaces_equals r2 with
            | Some (ws', rest) =>
                Some (tt, txt "var" ++ ws ++ var_name ++ ws' ++ txt "=", rest)
            | None => None
            end
        | _, _ => None
        end
    | None => None
    end
  else None.

End Re.

(** ** The change log and the state of a session *)

Record ChangeRecord := mkChange {
  file : string;
  category : string;
  description : text
}.

(** What a session does to the world besides the change log: calls of
    [write_text], and the console notices of the write-back branches and of
    the backup. *)
Inductive effect :=
| WroteText (path : string) (content : text)
| SaidModified (path : string)
| SaidWouldModify (path : string)
| SaidBackup.

(** [disk] holds the text [read_text(encoding='utf-8', errors='ignore')]
    returns for each readable path (with [errors='ignore'] the decoding
    itself cannot fail); a path outside the map cannot be read. *)
Record State := mkState {
  disk : gmap string text;
  changes : list ChangeRecord;
  effects : list effect
}.

(** A call returns, or an exception leaves it: the class catches none. *)
Inductive Outcome :=
| Returned (st : State)
| Raised (st : State).

Definition final (o : Outcome) : State :=
  match o with Returned st => st | Raised st => st end.

(** ** The HTML rules *)

Definition enumerate {A} (l : list A) : list (nat * A) :=
  combine (seq 0 (length l)) l.

Definition class_name (i : nat) : text := txt "inline-style-" ++ str_nat (i + 1).

Definition style_attr (style : text) : text :=
  txt "style=" ++ [dq] ++ style ++ [dq].

Definition class_attr (i : nat) : text :=
  txt "class=" ++ [dq] ++ class_name i ++ [dq].

(** One turn of the loop over [enumerate(inline_styles)]. *)
Definition inline_style_step (acc : list text * text) (it : nat * text)
    : list text * text :=
  let '(css_classes, content) := acc in
  let '(i, style) := it in
  (css_classes ++ [txt "." ++ class_name i ++ txt " { " ++ style ++ txt " }"],
   Py.replace (style_attr style) (class_attr i) (Some 1) content).

Definition inline_styles_rule (file_path : string) (content : text)
    : text * list ChangeRecord :=
  let inline_styles := Re.findall (Re.quoted_attr "style") content in
  match inline_styles with
  | [] => (content, [])
  | _ :: _ =>
      let '(css_classes, content') :=
        fold_left inline_style_step (enumerate inline_styles) ([], content) in
      (content',
       match css_classes with
       | [] => []
       | _ :: _ =>
           [mkChange file_path "inline-styles"
              (txt "Extracted " ++ str_nat (length inline_styles)
                 ++ txt " inline styles to classes")]
       end)
  end.

Definition viewport_marker : text := txt "<meta name=" ++ [dq] ++ txt "viewport" ++ [dq].

Definition viewport : text :=
  txt "<meta name=" ++ [dq] ++ txt "viewport" ++ [dq] ++ txt " content=" ++ [dq]
    ++ txt "width=device-width, initial-scale=1.0" ++ [dq] ++ txt ">".

Definition viewport_rule (file_path : string) (content : text)
    : text * list ChangeRecord :=
  if negb (Py.isin viewport_marker content) && Py.isin (txt "<head") content
  then (Py.replace (txt "<head>") (txt "<head>" ++ [nl] ++ txt "    " ++ viewport)
          (Some 1) content,
        [mkChange file_path "viewport" (txt "Added viewport meta tag")])
  else (content, []).

Definition alt_text (img : text) : text :=
  match Re.search (Re.quoted_attr "src") img with
  | None => txt "Image"
  | Some src =>
      Py.title (Py.replace (txt "_") (txt " ") None
                  (Py.replace (txt "-") (txt " ") None (Py.path_stem src)))
  end.

Definition new_img (img : text) : text :=
  Py.replace (txt "<img") (txt "<img alt=" ++ [dq] ++ alt_text img ++ [dq])
    (Some 1) img.

Definition alt_step (content img : text) : text :=
  Py.replace img (new_img img) (Some 1) content.

Definition alt_rule (file_path : string) (content : text)
    : text * list ChangeRecord :=
  let imgs_without_alt := Re.findall Re.img_without_alt content in
  (fold_left alt_step imgs_without_alt content,
   match imgs_without_alt with
   | [] => []
   | _ :: _ =>
       [mkChange file_path "accessibility"
          (txt "Added alt attributes to " ++ str_nat (length imgs_without_alt)
             ++ txt " images")]
   end).

(** The dictionary [deprecated_replacements], in its insertion order. *)
Definition deprecated_replacements : list (text * text) :=
  [ (txt "<b>", txt "<strong>");
    (txt "</b>", txt "</strong>");
    (txt "<i>", txt "<em>");
    (txt "</i>", txt "</em>");
    (txt "<center>", txt "<div style=" ++ [dq] ++ txt "text-align: center;" ++ [dq] ++ txt ">");
    (txt "</center>", txt "</div>") ].

Definition deprecated_change (file_path : string) (item : text * text)
    : ChangeRecord :=
  mkChange file_path "deprecated-tags"
    (txt "Replaced " ++ fst item ++ txt " with " ++ snd item).

Definition deprecated_step (file_path : string)
    (acc : text * list ChangeRecord) (item : text * text)
    : text * list ChangeRecord :=
  let '(content, log) := acc in
  if Py.isin (fst item) content
  then (Py.replace (fst item) (snd item) None content,
        log ++ [deprecated_change file_path item])
  else (content, log).

Definition deprecated_rule (file_path : string) (content : text)
    : text * list ChangeRecord :=
  fold_left (deprecated_step file_path) deprecated_replacements (content, []).

(** The rules of [modernize_html] in their order, each on the output of
    the one before. *)
Definition html_transform (file_path : string) (content : text)
    : text * list ChangeRecord :=
  let '(c1, l1) := inline_styles_rule file_path content in
  let '(c2, l2) := viewport_rule file_path c1 in
  let '(c3, l3) := alt_rule file_path c2 in
  let '(c4, l4) := deprecated_rule file_path c3 in
  (c4, l1 ++ l2 ++ l3 ++ l4).

(** ** The CSS rule *)

Definition css_vars : text :=
  [nl] ++
  txt "/* CSS Custom Properties - Add your design system values here */" ++ [nl] ++
  txt ":root {" ++ [nl] ++
  txt "  --color-primary: #007bff;" ++ [nl] ++
  txt "  --color-secondary: #6c757d;" ++ [nl] ++
  txt "  --color-success: #28a745;" ++ [nl] ++
  txt "  --color-danger: #dc3545;" ++ [nl] ++
  txt "  --color-warning: #ffc107;" ++ [nl] ++
  txt "  --color-info: #17a2b8;" ++ [nl] ++
  txt "  " ++ [nl] ++
  txt "  --font-family-base: -apple-system, BlinkMacSystemFont, " ++ [dq]
    ++ txt "Segoe UI" ++ [dq] ++ txt ", Roboto, " ++ [dq] ++ txt "Helvetica Neue"
    ++ [dq] ++ txt ", Arial, sans-serif;" ++ [nl] ++
  txt "  --font-size-base: 1rem;" ++ [nl] ++
  txt "  --line-height-base: 1.5;" ++ [nl] ++
  txt "  " ++ [nl] ++
  txt "  --spacing-unit: 0.25rem;" ++ [nl] ++
  txt "  --border-radius: 0.25rem;" ++ [nl] ++
  txt "  " ++ [nl] ++
  txt "  --breakpoint-sm: 576px;" ++ [nl] ++
  txt "  --breakpoint-md: 768px;" ++ [nl] ++
  txt "  --breakpoint-lg: 992px;" ++ [nl] ++
  txt "  --breakpoint-xl: 1200px;" ++ [nl] ++
  txt "}" ++ [nl] ++
  [nl].

(** [modernize_css] also collects the pixel widths of the file and keeps a
    flag [changes_made]; neither is read again, so only the scaffold rule
    is left. *)
Definition css_transform (file_path : string) (content : text)
    : text * list ChangeRecord :=
  if negb (Py.isin (txt "--") content)
  then (css_vars ++ content,
        [mkChange file_path "css-variables"
           (txt "Added CSS custom properties template")])
  else (content, []).

(** ** The JavaScript rule *)

(** One turn of the loop over [var_declarations]. *)
Definition js_step (content var_name : text) : text :=
  let assignments := length (Re.findall (Re.assignment_to var_name) content) in
  if assignments =? 1
  then Re.sub_first (Re.declaration_of var_name)
         (txt "const " ++ var_name ++ txt " =") content
  else Re.sub_first (Re.declaration_of var_name)
         (txt "let " ++ var_name ++ txt " =") content.

Definition js_transform (file_path : string) (content : text)
    : text * list ChangeRecord :=
  let var_declarations := Re.findall Re.var_declaration content in
  (fold_left js_step var_declarations content,
   match var_declarations with
   | [] => []
   | _ :: _ =>
       [mkChange file_path "modern-js"
          (txt "Replaced " ++ str_nat (length var_declarations)
             ++ txt " var declarations with let/const")]
   end).

(** ** The per-file methods and the session *)

Definition log_changes (l : list ChangeRecord) (st : State) : State :=
  mkState (disk st) (changes st ++ l) (effects st).

(** The write-back shared by the three methods: nothing when the content
    did not change, a notice alone under dry-run, else the write and its
    notice. *)
Definition write_back (dry_run : bool) (file_path : string)
    (original_content content : text) (st : State) : State :=
  if bool_decide (content = original_content) then st
  else if dry_run
       then mkState (disk st) (changes st)
              (effects st ++ [SaidWouldModify file_path])
       else mkState (<[file_path := content]> (disk st)) (changes st)
              (effects st ++ [WroteText file_path content; SaidModified file_path]).

Definition modernize_file
    (transform : string -> text -> text * list ChangeRecord)
    (dry_run : bool) (st : State) (file_path : string) : Outcome :=
  match disk st !! file_path with
  | None => Raised st
  | Some original_content =>
      let '(content, l) := transform file_path original_content in
      Returned (write_back dry_run file_path original_content content
                  (log_changes l st))
  end.

Definition modernize_html := modernize_file html_transform.
Definition modernize_css := modernize_file css_transform.
Definition modernize_js := modernize_file js_transform.

(** A [for] loop over files: the first exception ends it. *)
Fixpoint for_each {A} (f : State -> A -> Outcome) (files : list A)
    (st : State) : Outcome :=
  match files with
  | [] => Returned st
  | p :: rest =>
      match f st p with
      | Returned st' => for_each f rest st'
      | Raised st' => Raised st'
      end
  end.

Definition and_then (o : Outcome) (k : State -> Outcome) : Outcome :=
  match o with Returned st => k st | Raised st => Raised st end.

Section Session.

(** [shutil.copytree] of the project to its timestamped sibling: the disk
    with the copy added, or [None] when the copy raises.  The sibling lies
    outside the project; what a copy that raises has left there is not
    part of the state. *)
Variable copytree : gmap string text -> option (gmap string text).

Definition create_backup (st : State) : Outcome :=
  match copytree (disk st) with
  | Some d => Returned (mkState d (changes st) (effects st ++ [SaidBackup]))
  | None => Raised st
  end.

(** [modernize]; the three lists are what [rglob] finds for [*.html],
    [*.css] and [*.js] once the backup is made.
    [print_summary], which ends the method, only prints counts read off
    the change log. *)
Definition modernize (dry_run backup : bool)
    (html_files css_files js_files : list string) (st : State) : Outcome :=
  and_then (if backup && negb dry_run then create_backup st else Returned st)
    (fun st1 =>
       and_then (for_each (modernize_html dry_run) html_files st1)
         (fun st2 =>
            and_then (for_each (modernize_css dry_run) css_files st2)
              (fun st3 => for_each (modernize_js dry_run) js_files st3))).

End Session.

(** ** Vocabulary of the statements *)

(** [p] occurs in [s] as a contiguous piece. *)
Definition occurs (p s : text) : Prop := exists a b, s = a ++ p ++ b.

(** The record of the scaffold rule. *)
Definition css_variables_change (file_path : string) : ChangeRecord :=
  mkChange file_path "css-variables" (txt "Added CSS custom properties template").

(** The record of the viewport rule. *)
Definition viewport_change (file_path : string) : ChangeRecord :=
  mkChange file_path "viewport" (txt "Added viewport meta tag").

(** What the viewport rule puts in place of the tag [<head>]. *)
Definition head_with_viewport : text :=
  txt "<head>" ++ [nl] ++ txt "    " ++ viewport.

(** A document whose head tag carries an attribute, and a bare head
    element with one. *)
Definition page_with_head_attribute : text :=
  txt "<html><head lang=" ++ [dq] ++ txt "en" ++ [dq]
    ++ txt "><title>t</title></head></html>".

Definition head_with_attribute : text :=
  txt "<head lang=" ++ [dq] ++ txt "en" ++ [dq] ++ txt "></head>".

(** The calls of [write_text] of a session, in order. *)
Definition writes (st : State) : list (string * text) :=
  flat_map (fun e => match e with WroteText p c => [(p, c)] | _ => [] end)
    (effects st).

(** What a per-file method does to the disk and to the list of writes:
    an unreadable file and a dry run leave both alone, and so does a
    transformation that returns the text it was given; otherwise the whole
    transformed text replaces the file, in one write. *)
Definition writes_only_changes
    (method : bool -> State -> string -> Outcome)
    (transform : string -> text -> text * list ChangeRecord) : Prop :=
  forall dry_run st file_path,
    let st' := final (method dry_run st file_path) in
    match disk st !! file_path with
    | None => disk st' = disk st /\ writes st' = writes st
    | Some original =>
        let content := fst (transform file_path original) in
        if negb dry_run && negb (bool_decide (content = original))
        then disk st' = <[file_path := content]> (disk st)
             /\ writes st' = writes st ++ [(file_path, content)]
        else disk st' = disk st /\ writes st' = writes st
    end.

(** Two runs of a per-file method on the same path holding the same text
    compute the same transformed text and append the same records, whatever
    else differs between the two states and the two dry-run flags. *)
Definition depends_on_text_and_path
    (method : bool -> State -> string -> Outcome) : Prop :=
  forall file_path content dry1 dry2 st1 st2,
    disk st1 !! file_path = Some content ->
    disk st2 !! file_path = Some content ->
    exists content' l,
      method dry1 st1 file_path
      = Returned (write_back dry1 file_path content content' (log_changes l st1))
      /\ method dry2 st2 file_path
         = Returned (write_back dry2 file_path content content' (log_changes l st2))
      /\ changes (final (method dry1 st1 file_path)) = changes st1 ++ l
      /\ changes (final (method dry2 st2 file_path)) = changes st2 ++ l.

(** The disk and the writes of [st'] are those of [st]. *)
Definition untouched (st st' : State) : Prop :=
  disk st' = disk st /\ writes st' = writes st.

(** The files of a session in the order [modernize] visits them. *)
Inductive kind := Html | Css | Js.

Definition method_of (k : kind) : bool -> State -> string -> Outcome :=
  match k with
  | Html => modernize_html
  | Css => modernize_css
  | Js => modernize_js
  end.

Definition visit (dry_run : bool) (st : State) (f : kind * string) : Outcome :=
  method_of (fst f) dry_run st (snd f).

Definition visited (html_files css_files js_files : list string)
    : list (kind * string) :=
  map (pair Html) html_files ++ map (pair Css) css_files
    ++ map (pair Js) js_files.

(** A copy that succeeds and adds nothing, and a disk with one page. *)
Definition no_copy (d : gmap string text) : option (gmap string text) := Some d.

Definition one_page : State :=
  mkState {[ "b.html"%string := txt "<b>x</b>" ]} [] [].

(** A disk with that page and a style sheet. *)
Definition page_and_sheet : State :=
  mkState {[ "b.html"%string := txt "<b>x</b>";
             "s.css"%string := txt "p {}" ]} [] [].

(** *** Simultaneous substitution

    One pass over the text: at each position the first pair of the table
    whose left text starts there is applied and the pass resumes after it;
    otherwise the character is kept. *)

Fixpoint first_match (table : list (text * text)) (s : text)
    : option (text * text) :=
  match table with
  | [] => None
  | (old, new) :: t =>
      match Py.strip_prefix old s with
      | Some r => Some (new, r)
      | None => first_match t s
      end
  end.

Fixpoint substitute_fuel (table : list (text * text)) (fuel : nat) (s : text)
    : text :=
  match fuel with
  | 0 => s
  | S f =>
      match first_match table s with
      | Some (new, r) => new ++ substitute_fuel table f r
      | None =>
          match s with
          | [] => []
          | c :: s' => c :: substitute_fuel table f s'
          end
      end
  end.

Definition substitute (table : list (text * text)) (s : text) : text :=
  substitute_fuel table (length s) s.

(** [w] starts with the character [h] and has no other [h]. *)
Definition headed (h : ascii) (w : text) : bool :=
  match w with
  | [] => false
  | c :: w' => Ascii.eqb c h && forallb (fun d => negb (Ascii.eqb d h)) w'
  end.

(** [t] and [w] differ at a position both have. *)
Fixpoint clash (t w : text) : bool :=
  match t, w with
  | a :: t', b :: w' => if Ascii.eqb a b then clash t' w' else true
  | _, _ => false
  end.

Definition lefts_headed (h : ascii) (table : list (text * text)) : Prop :=
  forall it, In it table -> headed h (fst it) = true.

Definition rights_headed (h : ascii) (table : list (text * text)) : Prop :=
  forall it, In it table -> headed h (snd it) = true.

(** The left text [old] can be added to a table: it and its replacement
    are headed, and it clashes with every text of the table. *)
Definition fits (h : ascii) (table : list (text * text)) (old new : text)
    : bool :=
  headed h old && headed h new
  && forallb (fun it => clash old (fst it) && clash old (snd it)
                        && headed h (fst it) && headed h (snd it)) table.

(** Every pair of [todo] fits the table made of [done] and of the pairs
    of [todo] before it. *)
Fixpoint all_fit (h : ascii) (done todo : list (text * text)) : bool :=
  match todo with
  | [] => true
  | it :: rest =>
      fits h done (fst it) (snd it) && all_fit h (done ++ [it]) rest
  end.

(** The texts of a table are headed and no left text starts a right one. *)
Definition table_clean (h : ascii) (table : list (text * text)) : bool :=
  forallb (fun it =>
             headed h (fst it) && headed h (snd it)
             && forallb (fun it' => clash (fst it) (snd it')) table) table.

(** The deprecated tokens that occur in a text, in the order of the
    dictionary. *)
Definition tokens_present (content : text) : list (text * text) :=
  List.filter (fun it => Py.isin (fst it) content) deprecated_replacements.

(** The records of one category. *)
Definition of_category (c : string) (l : list ChangeRecord) : list ChangeRecord :=
  List.filter (fun r => String.eqb (category r) c) l.

(** *** One pass over the matches of a pattern

    The text with its matches replaced in document order: the match number
    [i] (from 0), whose reported value is [x], becomes [repl i x]; the
    scan resumes after each match, as [re.findall] does. *)

Fixpoint rewrite_fuel {A} (m : Re.matcher A) (repl : nat -> A -> text)
    (fuel i : nat) (prev : option ascii) (s : text) : text :=
  match fuel with
  | 0 => s
  | S f =>
      match m prev s with
      | Some (x, w, rest) =>
          repl i x ++ rewrite_fuel m repl f (S i) (Re.last_char prev w) rest
      | None =>
          match s with
          | [] => []
          | c :: s' => c :: rewrite_fuel m repl f i (Some c) s'
          end
      end
  end.

Definition rewrite_matches {A} (m : Re.matcher A) (repl : nat -> A -> text)
    (s : text) : text :=
  rewrite_fuel m repl (S (length s)) 0 None s.

(** The pattern matches at no position of [P] in the text [P ++ Y], the
    first position being preceded by [prev]. *)
Fixpoint quiet {A} (m : Re.matcher A) (prev : option ascii) (P Y : text)
    : Prop :=
  match P with
  | [] => True
  | c :: P' => m prev (c :: P' ++ Y) = None /\ quiet m (Some c) P' Y
  end.

(** A match is a non-empty piece at the start of the text. *)
Definition progressive {A} (m : Re.matcher A) : Prop :=
  forall prev s x w rest,
    m prev s = Some (x, w, rest) -> s = w ++ rest /\ w <> [].

(** The pattern does not look at the character before the position. *)
Definition context_free {A} (m : Re.matcher A) : Prop :=
  forall p1 p2 s, m p1 s = m p2 s.

(** The record of the inline-style rule for [n] occurrences. *)
Definition inline_styles_change (file_path : string) (n : nat) : ChangeRecord :=
  mkChange file_path "inline-styles"
    (txt "Extracted " ++ str_nat n ++ txt " inline styles to classes").

(** An image tag with the alt attribute right after its [<img] token. *)
Definition alt_tag (img : text) : text :=
  txt "<img alt=" ++ [dq] ++ alt_text img ++ [dq] ++ skipn 4 img.

(** The tag text holds no [<img] besides its own. *)
Definition single_img (img : text) : Prop :=
  Py.isin (txt "<img") (tl img) = false.



(** [re.findall] resumed in the middle of a text, [prev] being the
    character before [s]. *)
Definition scan {A} (m : Re.matcher A) (prev : option ascii) (s : text)
    : list A :=
  Re.findall_fuel m (S (length s)) prev s.

(** The number of textual assignments to a name in a file: the matches of
    the name at a word boundary, optional white space and an equals sign. *)
Definition assignments_to (content var_name : text) : nat :=
  length (Re.findall (Re.assignment_to var_name) content).

(** The declaration a name gets in a file: [const] when the file has one
    textual assignment to it, [let] otherwise. *)
Definition keyword_for (content var_name : text) : text :=
  if assignments_to content var_name =? 1 then txt "const" else txt "let".

Definition declaration_for (content var_name : text) : text :=
  keyword_for content var_name ++ txt " " ++ var_name ++ txt " =".


(** A name as [\w+] reports it: word characters, at least one. *)
Definition is_name (n : text) : Prop :=
  n <> [] /\ forallb Re.is_word n = true.

(** *** The summary

    [print_summary] prints fixed lines and three computed ones: the total,
    one line per category and the closing notice.  A line stands for the
    [print] calls that produce it, with the values they interpolate. *)

Inductive summary_line :=
| SummaryHeader
| NoChangesNeeded
| TotalChanges (n : nat)
| ByCategoryHeader
| CategoryCount (category : string) (n : nat)
| DryRunNotice
| ChangesApplied
| NextSteps.

(** A Python dictionary with string keys, in insertion order: [k in d],
    [d[k]] and [d[k] = v], which keeps the place of a key already there
    and puts a new key last. *)
Module Dict.

Definition t (V : Type) : Type := list (string * V).

Fixpoint get {V} (k : string) (d : t V) : option V :=
  match d with
  | [] => None
  | (k', v) :: d' => if String.eqb k' k then Some v else get k d'
  end.

Definition mem {V} (k : string) (d : t V) : bool :=
  match get k d with Some _ => true | None => false end.

Fixpoint set {V} (k : string) (v : V) (d : t V) : t V :=
  match d with
  | [] => [(k, v)]
  | (k', v') :: d' =>
      if String.eqb k' k then (k', v) :: d' else (k', v') :: set k v d'
  end.

End Dict.

(** One turn of the grouping loop: the category gets an empty list when
    it is new, then the record is appended to its list. *)
Definition group_change (by_category : Dict.t (list ChangeRecord))
    (change : ChangeRecord) : Dict.t (list ChangeRecord) :=
  let cat := category change in
  let by_category :=
    if negb (Dict.mem cat by_category) then Dict.set cat [] by_category
    else by_category in
  match Dict.get cat by_category with
  | Some l => Dict.set cat (l ++ [change]) by_category
  | None => by_category
  end.

Definition by_category (changes : list ChangeRecord)
    : Dict.t (list ChangeRecord) :=
  fold_left group_change changes [].

Definition print_summary (dry_run : bool) (changes : list ChangeRecord)
    : list summary_line :=
  SummaryHeader ::
  match changes with
  | [] => [NoChangesNeeded]
  | _ :: _ =>
      [TotalChanges (length changes); ByCategoryHeader]
      ++ map (fun '(category, changes) => CategoryCount category (length changes))
           (by_category changes)
      ++ [if dry_run then DryRunNotice else ChangesApplied; NextSteps]
  end.

(** The lines of the per-category breakdown. *)
Definition category_counts (lines : list summary_line) : list (string * nat) :=
  flat_map (fun l => match l with CategoryCount c n => [(c, n)] | _ => [] end)
    lines.

(** The transformation behind each per-file method, and the categories
    its records can carry. *)
Definition transform_of (k : kind) : string -> text -> text * list ChangeRecord :=
  match k with
  | Html => html_transform
  | Css => css_transform
  | Js => js_transform
  end.

(** The record [r] as a run on [file_path] logs it. *)
Definition with_file (file_path : string) (r : ChangeRecord) : ChangeRecord :=
  mkChange file_path (category r) (description r).

Definition categories_of (k : kind) : list string :=
  match k with
  | Html => ["inline-styles"; "viewport"; "accessibility"; "deprecated-tags"]
  | Css => ["css-variables"]
  | Js => ["modern-js"]
  end%string.

(** The step of [modernize] before the loops. *)
Definition backup_step (copytree : gmap string text -> option (gmap string text))
    (dry_run backup : bool) (st : State) : Outcome :=
  if backup && negb dry_run then create_backup copytree st else Returned st.

(** A character other than the double quote. *)
Definition not_dq (c : ascii) : bool := negb (Ascii.eqb c dq).
(** What the grouping loop keeps: distinct keys, under each key the
    records of that category in the order of the log, and no key without
    a record. *)
Definition grouped (d : Dict.t (list ChangeRecord)) (l : list ChangeRecord)
    : Prop :=
  List.NoDup (map fst d)
  /\ (forall c, Dict.get c d
                = match of_category c l with
                  | [] => None
                  | (_ :: _) as v => Some v
                  end)
  /\ list_sum (map (fun kv => length (snd kv)) d) = length l.

(** [CodeModernizer.__init__]: the tree as it is, and an empty log. *)
Definition new_session (d : gmap string text) : State := mkState d [] [].

(** [main]: a new modernizer with the flags of the command line,
    [--no-backup] negated, and its [modernize]. *)
Definition main (copytree : gmap string text -> option (gmap string text))
    (dry_run no_backup : bool) (html_files css_files js_files : list string)
    (d : gmap string text) : Outcome :=
  modernize copytree dry_run (negb no_backup) html_files css_files js_files
    (new_session d).

(** *** Texts of ASCII characters

    On these the character classes of this file ([Re.is_word],
    [Re.is_space], the word boundary) and the case mapping of [Py.title]
    are those of Python; the statements that depend on them are made for
    such texts. *)
Definition ascii_text (s : text) : Prop :=
  forallb (fun c => nat_of_ascii c <? 128) s = true.

(** *** A text cut at its style attributes

    The attribute with the style text [x], and the class attribute that
    takes the place of the occurrence number [i], counted from 1. *)
Definition style_attribute (x : text) : text :=
  txt "style=" ++ [dq] ++ x ++ [dq].

Definition numbered_class (i : nat) : text :=
  txt "class=" ++ [dq] ++ txt "inline-style-" ++ str_nat i ++ [dq].

(** The text made of [head], then for each entry of [tail] the attribute
    [attr i x] for its style text [x], numbered from [i] on, and the piece
    after it. *)
Fixpoint weave (attr : nat -> text -> text) (i : nat) (head : text)
    (tail : list (text * text)) : text :=
  match tail with
  | [] => head
  | (x, piece) :: tail' => head ++ attr i x ++ weave attr (S i) piece tail'
  end.

(** The cut is at the occurrences in document order: no style text holds
    a double quote, no piece before an attribute holds the opening of one,
    and the last piece holds no whole attribute. *)
Fixpoint cut_at_styles (head : text) (tail : list (text * text)) : Prop :=
  match tail with
  | [] => forall x, ~ occurs (style_attribute x) head
  | (x, piece) :: tail' =>
      ~ occurs (txt "style=" ++ [dq]) head
      /\ ~ In dq x
      /\ cut_at_styles piece tail'
  end.

(* ===================================================================== *)
(** * Properties *)
(* ===================================================================== *)

(** ** The string primitives *)

Section PyFacts.

Lemma strip_prefix_app p r : Py.strip_prefix p (p ++ r) = Some r.
Proof.
  induction p as [|a p IH]; simpl; [reflexivity|].
  now rewrite Ascii.eqb_refl.
Qed.

Lemma strip_prefix_Some p s r : Py.strip_prefix p s = Some r -> s = p ++ r.
Proof.
  revert s; induction p as [|a p IH]; intros s H; simpl in *.
  - now inversion H.
  - destruct s as [|b s]; [discriminate|].
    destruct (Ascii.eqb_spec a b) as [->|]; [|discriminate].
    simpl. f_equal. now apply IH.
Qed.

Lemma strip_prefix_iff p s r : Py.strip_prefix p s = Some r <-> s = p ++ r.
Proof.
  split; [apply strip_prefix_Some|intros ->; apply strip_prefix_app].
Qed.

Lemma startswith_app p r : Py.startswith p (p ++ r) = true.
Proof. unfold Py.startswith. now rewrite strip_prefix_app. Qed.

Lemma isin_cons p c s :
  Py.isin p (c :: s) = Py.startswith p (c :: s) || Py.isin p s.
Proof.
  unfold Py.startswith. simpl Py.isin.
  now destruct (Py.strip_prefix p (c :: s)).
Qed.

Lemma isin_app_r p a s : Py.isin p s = true -> Py.isin p (a ++ s) = true.
Proof.
  intros H. induction a as [|c a IH]; [exact H|].
  change ((c :: a) ++ s) with (c :: a ++ s).
  rewrite isin_cons, IH. apply orb_true_r.
Qed.

Lemma isin_occurs p s : Py.isin p s = true <-> occurs p s.
Proof.
  split.
  - induction s as [|c s IH]; simpl.
    + destruct (Py.strip_prefix p []) eqn:E; [|discriminate].
      intros _. apply strip_prefix_Some in E. exists [], t. exact E.
    + destruct (Py.strip_prefix p (c :: s)) eqn:E.
      * intros _. apply strip_prefix_Some in E. exists [], t. exact E.
      * intros H. destruct (IH H) as (a & b & ->). now exists (c :: a), b.
  - intros (a & b & ->). apply isin_app_r.
    destruct (p ++ b) eqn:E; simpl; rewrite <- E, strip_prefix_app;
      reflexivity.
Qed.

Lemma not_isin_occurs p s : Py.isin p s = false <-> ~ occurs p s.
Proof.
  rewrite <- isin_occurs. destruct (Py.isin p s).
  - split; [discriminate|intros H; now exfalso].
  - split; [intros _ H; discriminate|reflexivity].
Qed.

End PyFacts.

(** ** The custom-properties scaffold *)

Lemma css_vars_has_marker content : Py.isin (txt "--") (css_vars ++ content) = true.
Proof.
apply isin_occurs.
exists (firstn 76 css_vars), (skipn 78 css_vars ++ content).
change (firstn 76 css_vars ++ txt "--" ++ skipn 78 css_vars ++ content)
  with ((firstn 76 css_vars ++ txt "--" ++ skipn 78 css_vars) ++ content).
f_equal.
Qed.

(** C10. The guard of the scaffold rule is the two-character text [--]
  anywhere in the file: a CSS text in which it occurs, in whatever
  position, is returned as it is and without a record; a text in which it
  does not occur gets the scaffold block in front and one record. *)
Theorem css_scaffold_guard (file_path : string) (content : text) :
(occurs (txt "--") content ->
 css_transform file_path content = (content, [])) /\
(~ occurs (txt "--") content ->
 css_transform file_path content
 = (css_vars ++ content, [css_variables_change file_path])).
Proof.
unfold css_transform. split; intros H.
- apply isin_occurs in H. now rewrite H.
- apply not_isin_occurs in H. now rewrite H.
Qed.

Lemma css_scaffold_guard_witness :
css_transform "site.css" (txt "a { } /* -- */") = (txt "a { } /* -- */", []) /\
css_transform "site.css" (txt "a { }")
= (css_vars ++ txt "a { }", [css_variables_change "site.css"]).
Proof.
split.
- apply (proj1 (css_scaffold_guard "site.css" (txt "a { } /* -- */"))).
  exists (txt "a { } /* "), (txt " */"). reflexivity.
- apply (proj2 (css_scaffold_guard "site.css" (txt "a { }"))).
  apply not_isin_occurs. reflexivity.
Defined.

(** The scaffold rule changes nothing on its own output. *)
Lemma css_transform_twice file_path content :
css_transform file_path (fst (css_transform file_path content))
= (fst (css_transform file_path content), []).
Proof.
unfold css_transform.
destruct (Py.isin (txt "--") content) eqn:E; cbn [negb fst].
- now rewrite E.
- now rewrite css_vars_has_marker.
Qed.

(** ** Leftmost occurrences and [replace] *)

Section ReplaceFacts.

Lemma partition_first_Some p s a b :
  Py.partition_first p s = Some (a, b) -> s = a ++ p ++ b.
Proof.
  revert a b; induction s as [|c s IH]; intros a b; simpl.
  - destruct (Py.strip_prefix p []) eqn:E; [|discriminate].
    intros [= <- <-]. now apply strip_prefix_Some in E.
  - destruct (Py.strip_prefix p (c :: s)) eqn:E.
    + intros [= <- <-]. now apply strip_prefix_Some in E.
    + destruct (Py.partition_first p s) as [[a' b']|]; [|discriminate].
      intros [= <- <-]. simpl. f_equal. now apply IH.
Qed.

Lemma partition_first_None p s :
  Py.partition_first p s = None <-> Py.isin p s = false.
Proof.
  induction s as [|c s IH]; simpl.
  - destruct (Py.strip_prefix p []); split; congruence.
  - destruct (Py.strip_prefix p (c :: s)); [split; congruence|].
    rewrite <- IH.
    destruct (Py.partition_first p s) as [[a b]|]; split; congruence.
Qed.

Lemma partition_first_isin p s :
  Py.isin p s = true -> exists a b, Py.partition_first p s = Some (a, b).
Proof.
  intros H. destruct (Py.partition_first p s) as [[a b]|] eqn:E; [eauto|].
  apply partition_first_None in E. congruence.
Qed.

Lemma replace_once_found c old new s a b :
  Py.partition_first (c :: old) s = Some (a, b) ->
  Py.replace (c :: old) new (Some 1) s = a ++ new ++ b.
Proof. intros H. unfold Py.replace. simpl. now rewrite H. Qed.

Lemma replace_absent c old new count s :
  Py.isin (c :: old) s = false -> Py.replace (c :: old) new count s = s.
Proof.
  intros H. apply partition_first_None in H. unfold Py.replace.
  destruct count as [[|n]|]; simpl; try reflexivity; now rewrite H.
Qed.

End ReplaceFacts.

(** ** The viewport rule *)

Lemma viewport_insert_has_marker a b :
Py.isin viewport_marker
  (a ++ (txt "<head>" ++ [nl] ++ txt "    " ++ viewport) ++ b) = true.
Proof.
apply isin_app_r. apply isin_occurs.
exists (txt "<head>" ++ [nl] ++ txt "    "),
       (txt " content=" ++ [dq] ++ txt "width=device-width, initial-scale=1.0"
          ++ [dq] ++ txt ">" ++ b).
reflexivity.
Qed.

(** A second application of the viewport rule never changes the text. *)
Lemma viewport_rule_twice_text file_path content :
fst (viewport_rule file_path (fst (viewport_rule file_path content)))
= fst (viewport_rule file_path content).
Proof.
unfold viewport_rule at 2 3.
destruct (negb (Py.isin viewport_marker content)
          && Py.isin (txt "<head") content) eqn:G; cbn [fst].
- destruct (Py.isin (txt "<head>") content) eqn:H.
  + destruct (partition_first_isin _ _ H) as (a & b & P).
    rewrite (replace_once_found _ _ _ _ _ _ P).
    unfold viewport_rule.
    rewrite <- app_assoc, (app_assoc _ _ b).
    rewrite viewport_insert_has_marker. reflexivity.
  + rewrite (replace_absent _ _ _ _ _ H).
    unfold viewport_rule. rewrite G. cbn [fst].
    apply (replace_absent _ _ _ _ _ H).
- unfold viewport_rule. now rewrite G.
Qed.

(** When the text has the literal tag [<head>], a second application of
  the viewport rule changes nothing and logs nothing. *)
Lemma viewport_rule_twice_literal_head file_path content :
occurs (txt "<head>") content ->
viewport_rule file_path (fst (viewport_rule file_path content))
= (fst (viewport_rule file_path content), []).
Proof.
intros H. apply isin_occurs in H.
unfold viewport_rule at 2 3.
destruct (negb (Py.isin viewport_marker content)
          && Py.isin (txt "<head") content) eqn:G; cbn [fst].
- destruct (partition_first_isin _ _ H) as (a & b & P).
  rewrite (replace_once_found _ _ _ _ _ _ P).
  unfold viewport_rule.
  rewrite <- app_assoc, (app_assoc _ _ b).
  rewrite viewport_insert_has_marker. reflexivity.
- unfold viewport_rule. now rewrite G.
Qed.

(** With the literal tag [<head>] and no viewport tag in the text, the rule
  puts the viewport tag right after the leftmost [<head>] and logs one
  record. *)
Lemma viewport_rule_literal_head file_path content a b :
Py.isin viewport_marker content = false ->
Py.partition_first (txt "<head>") content = Some (a, b) ->
viewport_rule file_path content
= (a ++ head_with_viewport ++ b, [viewport_change file_path]).
Proof.
intros M P. unfold viewport_rule. rewrite M.
assert (H : Py.isin (txt "<head") content = true).
{ apply partition_first_Some in P. subst content.
  apply isin_occurs. exists a, (txt ">" ++ b). reflexivity. }
rewrite H. cbn [negb andb].
now rewrite (replace_once_found _ _ _ _ _ _ P).
Qed.

(** C3. The code at a document whose head tag has an attribute: the guard
  (no viewport tag, and [<head] in the text) holds, the replacement looks
  for the literal [<head>] and finds none, and the record is logged all
  the same: the text is returned as it came, with a [viewport] record. *)
Theorem viewport_rule_logs_without_insert :
Py.isin viewport_marker page_with_head_attribute = false /\
Py.isin (txt "<head") page_with_head_attribute = true /\
viewport_rule "index.html" page_with_head_attribute
= (page_with_head_attribute, [viewport_change "index.html"]) /\
Py.isin viewport (fst (viewport_rule "index.html" page_with_head_attribute))
= false.
Proof. vm_compute. repeat split. Qed.

(** C4. The code at a head element with an attribute, the rule applied
  twice: the first application returns the text as it came and logs a
  record, and the second application, on that output, logs a record
  again. *)
Theorem viewport_rule_twice_logs_again :
viewport_rule "index.html" head_with_attribute
= (head_with_attribute, [viewport_change "index.html"]) /\
viewport_rule "index.html"
  (fst (viewport_rule "index.html" head_with_attribute))
= (head_with_attribute, [viewport_change "index.html"]).
Proof. vm_compute. split; reflexivity. Qed.

(** ** The write-back and the session *)

Section SessionFacts.

Variable copytree : gmap string text -> option (gmap string text).

Lemma writes_app d l e e' :
  writes (mkState d l (e ++ e'))
  = writes (mkState d l e) ++ writes (mkState d l e').
Proof. unfold writes. simpl. apply flat_map_app. Qed.

Lemma write_back_changes dry_run p original content st :
  changes (write_back dry_run p original content st) = changes st.
Proof.
  unfold write_back. destruct (bool_decide _); [reflexivity|].
  now destruct dry_run.
Qed.

Lemma write_back_effect dry_run p original content st :
  let st' := write_back dry_run p original content st in
  if negb dry_run && negb (bool_decide (content = original))
  then disk st' = <[p := content]> (disk st)
       /\ writes st' = writes st ++ [(p, content)]
  else disk st' = disk st /\ writes st' = writes st.
Proof.
  unfold write_back. destruct st as [d l e].
  destruct (bool_decide (content = original)); simpl.
  - rewrite andb_false_r. split; reflexivity.
  - destruct dry_run; simpl.
    + split; [reflexivity|]. unfold writes; simpl.
      rewrite flat_map_app. simpl. apply app_nil_r.
    + split; [reflexivity|]. unfold writes; simpl.
      rewrite flat_map_app. reflexivity.
Qed.

Lemma modernize_file_writes transform :
  writes_only_changes (modernize_file transform) transform.
Proof.
  intros dry_run st p. unfold modernize_file.
  destruct (disk st !! p) as [original|] eqn:R; [|split; reflexivity].
  destruct (transform p original) as [content l] eqn:T. cbn [final fst].
  pose proof (write_back_effect dry_run p original content (log_changes l st))
    as H.
  cbv zeta in H. destruct (negb dry_run && negb (bool_decide _)); exact H.
Qed.

Lemma untouched_trans st1 st2 st3 :
  untouched st1 st2 -> untouched st2 st3 -> untouched st1 st3.
Proof. intros [H1 H2] [H3 H4]. split; congruence. Qed.

Lemma modernize_file_dry_run transform st p :
  untouched st (final (modernize_file transform true st p)).
Proof.
  pose proof (modernize_file_writes transform true st p) as H.
  cbv zeta in H. destruct (disk st !! p); exact H.
Qed.

Lemma for_each_untouched {A} (f : State -> A -> Outcome) l :
  (forall st a, untouched st (final (f st a))) ->
  forall st, untouched st (final (for_each f l st)).
Proof.
  intros Hf. induction l as [|a l IH]; intros st; simpl.
  - split; reflexivity.
  - pose proof (Hf st a) as H. destruct (f st a) as [st'|st']; simpl in *.
    + eapply untouched_trans; [exact H|apply IH].
    + exact H.
Qed.

Lemma and_then_untouched st o k :
  untouched st (final o) ->
  (forall st', untouched st' (final (k st'))) ->
  untouched st (final (and_then o k)).
Proof.
  intros H Hk. destruct o as [st'|st']; simpl in *; [|exact H].
  eapply untouched_trans; [exact H|apply Hk].
Qed.

Lemma modernize_dry_run backup html_files css_files js_files st :
  untouched st
    (final (modernize copytree true backup html_files css_files js_files st)).
Proof.
  unfold modernize. rewrite andb_false_r.
  apply and_then_untouched; [split; reflexivity|]. intros st1.
  apply and_then_untouched;
    [apply for_each_untouched; intros; apply modernize_file_dry_run|].
  intros st2.
  apply and_then_untouched;
    [apply for_each_untouched; intros; apply modernize_file_dry_run|].
  intros st3. apply for_each_untouched; intros; apply modernize_file_dry_run.
Qed.

End SessionFacts.

(** C1. Under dry-run a session leaves the disk as it found it and calls
  [write_text] for no file, whatever the tree, the backup flag and the
  files found; and each per-file method writes a file only when dry-run
  is off and the transformed text differs from the text read, in which
  case the whole transformed text replaces the file in one write. *)
Theorem dry_run_and_unchanged_files_are_not_written :
(forall copytree backup html_files css_files js_files st,
   let st' := final (modernize copytree true backup html_files css_files
                       js_files st) in
   disk st' = disk st /\ writes st' = writes st)
/\ writes_only_changes modernize_html html_transform
/\ writes_only_changes modernize_css css_transform
/\ writes_only_changes modernize_js js_transform.
Proof.
split; [intros; apply modernize_dry_run|].
repeat split; apply modernize_file_writes.
Qed.

(** ** Unreadable files *)

Section Exceptions.

Variable copytree : gmap string text -> option (gmap string text).

Lemma for_each_app {A} (f : State -> A -> Outcome) l1 l2 st :
  for_each f (l1 ++ l2) st = and_then (for_each f l1 st) (for_each f l2).
Proof.
  revert st; induction l1 as [|a l1 IH]; intros st; simpl; [reflexivity|].
  destruct (f st a); [apply IH|reflexivity].
Qed.

Lemma for_each_map {A B} (f : State -> B -> Outcome) (g : A -> B) l st :
  for_each f (map g l) st = for_each (fun st a => f st (g a)) l st.
Proof.
  revert st; induction l as [|a l IH]; intros st; simpl; [reflexivity|].
  destruct (f st (g a)); [apply IH|reflexivity].
Qed.

Lemma and_then_assoc o k1 k2 :
  and_then (and_then o k1) k2 = and_then o (fun st => and_then (k1 st) k2).
Proof. now destruct o. Qed.

Lemma and_then_ext o k1 k2 :
  (forall st, k1 st = k2 st) -> and_then o k1 = and_then o k2.
Proof. intros H. destruct o; [apply H|reflexivity]. Qed.

(** The three loops of [modernize] are one loop over the files in the
    order they are visited. *)
Lemma loops_as_one_visit dry_run html_files css_files js_files st :
  and_then (for_each (modernize_html dry_run) html_files st)
    (fun st2 =>
       and_then (for_each (modernize_css dry_run) css_files st2)
         (fun st3 => for_each (modernize_js dry_run) js_files st3))
  = for_each (visit dry_run) (visited html_files css_files js_files) st.
Proof.
  unfold visited. rewrite for_each_app, for_each_map.
  change (fun st a => visit dry_run st (Html, a)) with (modernize_html dry_run).
  apply and_then_ext; intros st2.
  rewrite for_each_app, for_each_map.
  change (fun st a => visit dry_run st (Css, a)) with (modernize_css dry_run).
  apply and_then_ext; intros st3.
  rewrite for_each_map. reflexivity.
Qed.

Lemma unreadable_raises transform dry_run st file_path :
  disk st !! file_path = None ->
  modernize_file transform dry_run st file_path = Raised st.
Proof. intros H. unfold modernize_file. now rewrite H. Qed.

Lemma visit_unreadable dry_run st k file_path :
  disk st !! file_path = None ->
  visit dry_run st (k, file_path) = Raised st.
Proof. intros H. destruct k; apply unreadable_raises, H. Qed.

End Exceptions.

(** C8, as the code has it. A file that cannot be read is not skipped:
  the read raises out of its per-file method, no handler catches it, and
  that ends the session on the spot: the state is the one the files
  before it left, and no file after it, of any type, is visited.  (The
  text of a file is what the read returns with errors ignored, so
  decoding itself raises nothing.) *)
Theorem unreadable_file_ends_the_session
  (copytree : gmap string text -> option (gmap string text))
  (dry_run backup : bool) (html_files css_files js_files : list string)
  (st st0 st1 : State) (before after : list (kind * string))
  (k : kind) (file_path : string) :
(if backup && negb dry_run then create_backup copytree st else Returned st)
= Returned st0 ->
visited html_files css_files js_files = before ++ (k, file_path) :: after ->
for_each (visit dry_run) before st0 = Returned st1 ->
disk st1 !! file_path = None ->
modernize copytree dry_run backup html_files css_files js_files st
= Raised st1.
Proof.
intros B V P U.
unfold modernize. rewrite B. cbn [and_then].
rewrite loops_as_one_visit, V, for_each_app, P. cbn [and_then for_each].
now rewrite (visit_unreadable dry_run st1 k file_path U).
Qed.

(** A session over a readable page, an unreadable one and a style sheet:
  the first page is rewritten and logged, the session ends at the second,
  and the style sheet is left as it was. *)
Lemma unreadable_file_ends_the_session_witness :
let st1 := final (visit false page_and_sheet (Html, "b.html"%string)) in
modernize no_copy false false ["b.html"; "a.html"]%string ["s.css"%string] []
  page_and_sheet
= Raised st1
/\ disk st1 !! "b.html"%string = Some (txt "<strong>x</strong>")
/\ length (changes st1) = 2
/\ disk st1 !! "s.css"%string = Some (txt "p {}").
Proof.
split; [|vm_compute; repeat split].
apply (unreadable_file_ends_the_session no_copy false false
         ["b.html"; "a.html"]%string ["s.css"%string] []
         page_and_sheet page_and_sheet
         (final (visit false page_and_sheet (Html, "b.html"%string)))
         [(Html, "b.html"%string)] [(Css, "s.css"%string)]
         Html "a.html"%string);
  reflexivity.
Defined.

(** C8 as the specification states it fails: with an unreadable page
  before a readable one, the session does not skip the first and go on;
  it ends with the exception, the second page is not rewritten and
  nothing is logged, where a session over the second page alone rewrites
  it. *)
Lemma unreadable_file_is_not_skipped :
modernize no_copy false false ["a.html"; "b.html"]%string [] [] one_page
= Raised one_page
/\ (forall st',
      modernize no_copy false false ["a.html"; "b.html"]%string [] [] one_page
      <> Returned st')
/\ disk (final (modernize no_copy false false ["b.html"]%string [] [] one_page))
     !! "b.html"%string
   = Some (txt "<strong>x</strong>").
Proof.
split; [reflexivity|]. split; [intros st'; discriminate|].
vm_compute. reflexivity.
Qed.

(** ** Determinism of the per-file methods *)

Lemma modernize_file_depends_on_text_and_path transform :
depends_on_text_and_path (modernize_file transform).
Proof.
intros p content dry1 dry2 st1 st2 R1 R2.
exists (fst (transform p content)), (snd (transform p content)).
unfold modernize_file. rewrite R1, R2.
destruct (transform p content) as [content' l]. cbn [fst snd final].
rewrite !write_back_changes. repeat split; reflexivity.
Qed.

(** ** Substitution over texts whose words open with a fixed character *)

Section TagFacts.

Variable h : ascii.

Lemma clash_strip t w x :
  clash t w = true -> Py.strip_prefix t (w ++ x) = None.
Proof.
  revert w; induction t as [|a t IH]; intros [|b w] H; simpl in *;
    try discriminate.
  destruct (Ascii.eqb a b); [now apply IH|reflexivity].
Qed.

Lemma headed_inv w :
  headed h w = true ->
  exists w', w = h :: w' /\ forallb (fun d => negb (Ascii.eqb d h)) w' = true.
Proof.
  destruct w as [|c w]; simpl; [discriminate|].
  intros H. apply andb_prop in H as [E F].
  apply Ascii.eqb_eq in E. subst c. eauto.
Qed.

Lemma headed_strip_other w c x :
  headed h w = true -> Ascii.eqb c h = false ->
  Py.strip_prefix w (c :: x) = None.
Proof.
  intros H E. destruct (headed_inv w H) as (w' & -> & _). simpl.
  rewrite Ascii.eqb_sym, E. reflexivity.
Qed.

Lemma first_match_other table c x :
  lefts_headed h table -> Ascii.eqb c h = false ->
  first_match table (c :: x) = None.
Proof.
  induction table as [|[o n] t IH]; intros L E; [reflexivity|].
  cbn [first_match].
  rewrite (headed_strip_other o c x (L (o, n) (or_introl eq_refl)) E).
  apply IH; [|exact E]. intros it I. apply L. now right.
Qed.

Lemma first_match_app t1 t2 s :
  first_match (t1 ++ t2) s
  = match first_match t1 s with
    | Some x => Some x
    | None => first_match t2 s
    end.
Proof.
  induction t1 as [|[o n] t1 IH]; [reflexivity|]. simpl.
  destruct (Py.strip_prefix o s); [reflexivity|apply IH].
Qed.

Lemma first_match_Some table s n r :
  first_match table s = Some (n, r) ->
  exists o, In (o, n) table /\ s = o ++ r.
Proof.
  induction table as [|[o' n'] t IH]; simpl; [discriminate|].
  destruct (Py.strip_prefix o' s) eqn:E.
  - intros [= <- <-]. apply strip_prefix_Some in E. eauto.
  - intros H. destruct (IH H) as (o & I & ->). eauto.
Qed.

Lemma first_match_None table s o n :
  first_match table s = None -> In (o, n) table -> Py.strip_prefix o s = None.
Proof.
  induction table as [|[o' n'] t IH]; simpl; [intros _ []|].
  destruct (Py.strip_prefix o' s) eqn:E; [discriminate|].
  intros H [[= <- <-]|I]; [exact E|now apply IH].
Qed.

Lemma first_match_shorter table s n r :
  lefts_headed h table -> first_match table s = Some (n, r) ->
  length r < length s.
Proof.
  intros L H. destruct (first_match_Some _ _ _ _ H) as (o & I & ->).
  destruct (headed_inv _ (L _ I)) as (o' & E & _). simpl in E. subst o.
  rewrite length_app. simpl. lia.
Qed.

Lemma first_match_nil table : lefts_headed h table -> first_match table [] = None.
Proof.
  intros L. destruct (first_match table []) as [[n r]|] eqn:E; [|reflexivity].
  apply first_match_shorter in E; [simpl in E; lia|exact L].
Qed.

Lemma substitute_fuel_enough table :
  lefts_headed h table ->
  forall f1 f2 s, length s <= f1 -> length s <= f2 ->
    substitute_fuel table f1 s = substitute_fuel table f2 s.
Proof.
  intros L. induction f1 as [|f1 IH]; intros f2 s H1 H2.
  - destruct s; [|simpl in H1; lia].
    destruct f2; simpl; [reflexivity|]. now rewrite first_match_nil.
  - destruct f2 as [|f2].
    + destruct s; [|simpl in H2; lia]. simpl. now rewrite first_match_nil.
    + simpl. destruct (first_match table s) as [[n r]|] eqn:E.
      * apply first_match_shorter in E; [|exact L].
        f_equal. apply IH; lia.
      * destruct s as [|c s]; [reflexivity|]. simpl in *.
        f_equal. apply IH; lia.
Qed.

Lemma substitute_unfold table s :
  lefts_headed h table ->
  substitute table s
  = match first_match table s with
    | Some (n, r) => n ++ substitute table r
    | None =>
        match s with
        | [] => []
        | c :: s' => c :: substitute table s'
        end
    end.
Proof.
  intros L. unfold substitute. destruct s as [|c s].
  - simpl. now rewrite first_match_nil.
  - cbn [length substitute_fuel].
    destruct (first_match table (c :: s)) as [[n r]|] eqn:E; [|reflexivity].
    f_equal. apply substitute_fuel_enough; [exact L| |lia].
    apply first_match_shorter in E; [simpl in E; lia|exact L].
Qed.

(** Characters other than [h] are kept. *)
Lemma substitute_keeps table u x :
  lefts_headed h table ->
  forallb (fun d => negb (Ascii.eqb d h)) u = true ->
  substitute table (u ++ x) = u ++ substitute table x.
Proof.
  intros L. induction u as [|c u IH]; intros F; [reflexivity|].
  simpl in F. apply andb_prop in F as [E F]. apply negb_true_iff in E.
  change ((c :: u) ++ x) with (c :: u ++ x).
  rewrite substitute_unfold by exact L.
  rewrite (first_match_other _ _ _ L E). simpl. f_equal. now apply IH.
Qed.

(** A headed word that every left text clashes with is kept. *)
Lemma substitute_keeps_word table w x :
  lefts_headed h table -> headed h w = true ->
  (forall it, In it table -> clash (fst it) w = true) ->
  substitute table (w ++ x) = w ++ substitute table x.
Proof.
  intros L H C. destruct (headed_inv w H) as (w' & -> & F).
  change ((h :: w') ++ x) with (h :: w' ++ x).
  rewrite substitute_unfold by exact L.
  destruct (first_match table (h :: w' ++ x)) as [[n r]|] eqn:E.
  - exfalso. destruct (first_match_Some _ _ _ _ E) as (o & I & E').
    pose proof (clash_strip o (h :: w') x (C _ I)) as N.
    change ((h :: w') ++ x) with (h :: w' ++ x) in N.
    rewrite E', strip_prefix_app in N. discriminate.
  - simpl. f_equal. now apply substitute_keeps.
Qed.

(** A run without [h] at the start of the output was there in the input. *)
Lemma substitute_creates_nothing table u :
  lefts_headed h table -> rights_headed h table ->
  forallb (fun d => negb (Ascii.eqb d h)) u = true ->
  forall s z, Py.strip_prefix u (substitute table s) = Some z ->
    exists r, Py.strip_prefix u s = Some r.
Proof.
  intros L R. induction u as [|d u IH]; intros F s z H.
  - simpl. eauto.
  - simpl in F. apply andb_prop in F as [E F]. apply negb_true_iff in E.
    rewrite substitute_unfold in H by exact L.
    destruct (first_match table s) as [[n r]|] eqn:M.
    + exfalso. destruct (first_match_Some _ _ _ _ M) as (o & I & _).
      destruct (headed_inv _ (R _ I)) as (n' & N & _). simpl in N. subst n.
      simpl in H. rewrite E in H. discriminate.
    + destruct s as [|c s]; [discriminate|]. simpl in H |- *.
      destruct (Ascii.eqb d c); [|discriminate].
      eapply IH; eassumption.
Qed.


Lemma strip_prefix_substitute table u s :
  lefts_headed h table -> rights_headed h table ->
  forallb (fun d => negb (Ascii.eqb d h)) u = true ->
  Py.startswith u (substitute table s) = Py.startswith u s.
Proof.
  intros L R F. unfold Py.startswith.
  destruct (Py.strip_prefix u s) as [r|] eqn:E.
  - apply strip_prefix_Some in E. subst s.
    rewrite (substitute_keeps _ _ _ L F), strip_prefix_app. reflexivity.
  - destruct (Py.strip_prefix u (substitute table s)) as [z|] eqn:E';
      [|reflexivity].
    destruct (substitute_creates_nothing _ _ L R F _ _ E') as (r & E'').
    congruence.
Qed.

Lemma startswith_headed_cons table o c s :
  lefts_headed h table -> rights_headed h table -> headed h o = true ->
  Py.startswith o (c :: substitute table s) = Py.startswith o (c :: s).
Proof.
  intros L R H. destruct (headed_inv o H) as (o' & -> & F).
  pose proof (strip_prefix_substitute table o' s L R F) as E.
  unfold Py.startswith in *. simpl. destruct (Ascii.eqb h c); [exact E|reflexivity].
Qed.

Lemma isin_skips o u x :
  headed h o = true ->
  forallb (fun d => negb (Ascii.eqb d h)) u = true ->
  Py.isin o (u ++ x) = Py.isin o x.
Proof.
  intros H. induction u as [|c u IH]; intros F; [reflexivity|].
  simpl in F. apply andb_prop in F as [E F]. apply negb_true_iff in E.
  change ((c :: u) ++ x) with (c :: u ++ x). rewrite isin_cons.
  unfold Py.startswith. rewrite (headed_strip_other o c _ H E). now apply IH.
Qed.

Lemma isin_skips_word o w x :
  headed h o = true -> headed h w = true -> clash o w = true ->
  Py.isin o (w ++ x) = Py.isin o x.
Proof.
  intros H W C. pose proof (clash_strip o w x C) as N.
  destruct (headed_inv w W) as (w' & -> & F).
  change ((h :: w') ++ x) with (h :: w' ++ x) in *. rewrite isin_cons.
  unfold Py.startswith. rewrite N. now apply isin_skips.
Qed.

(** Substituting one more pair afterwards is substituting with the longer
    table. *)
Lemma substitute_then_one table o n :
  lefts_headed h table -> rights_headed h table ->
  headed h o = true -> headed h n = true ->
  (forall it, In it table -> clash o (snd it) = true) ->
  forall s,
    substitute [(o, n)] (substitute table s) = substitute (table ++ [(o, n)]) s.
Proof.
  intros L R Ho Hn C.
  assert (L1 : lefts_headed h [(o, n)]).
  { intros it [<-|[]]. exact Ho. }
  assert (R1 : rights_headed h [(o, n)]).
  { intros it [<-|[]]. exact Hn. }
  assert (L2 : lefts_headed h (table ++ [(o, n)])).
  { intros it I. apply in_app_or in I as [I|I]; [now apply L|now apply L1]. }
  intros s. remember (length s) as k eqn:K. revert s K.
  induction k as [k IH] using lt_wf_ind. intros s ->.
  rewrite (substitute_unfold (table ++ [(o, n)]) s L2), first_match_app.
  rewrite (substitute_unfold table s L).
  destruct (first_match table s) as [[nt r]|] eqn:M.
  - destruct (first_match_Some _ _ _ _ M) as (t & I & ->).
    rewrite (substitute_keeps_word [(o, n)] nt _ L1 (R _ I)).
    + f_equal. eapply IH; [|reflexivity].
      apply (first_match_shorter _ _ _ _ L M).
    + intros it [<-|[]]. simpl. apply (C _ I).
  - cbn [first_match]. destruct (Py.strip_prefix o s) as [t|] eqn:E.
    + apply strip_prefix_Some in E. subst s.
      destruct (headed_inv o Ho) as (o' & -> & F).
      cbn [app]. rewrite (substitute_keeps _ _ _ L F).
      change (h :: o' ++ substitute table t)
        with ((h :: o') ++ substitute table t).
      change (h :: o' ++ t) with ((h :: o') ++ t).
      rewrite (substitute_unfold [(h :: o', n)] _ L1). cbn [first_match].
      rewrite strip_prefix_app. f_equal. eapply IH; [|reflexivity].
      simpl. rewrite length_app. lia.
    + destruct s as [|c s].
      * rewrite (substitute_unfold [(o, n)] [] L1). cbn [first_match].
        now rewrite E.
      * rewrite (substitute_unfold [(o, n)] _ L1). cbn [first_match].
        pose proof (startswith_headed_cons table o c s L R Ho) as S.
        unfold Py.startswith in S. rewrite E in S.
        destruct (Py.strip_prefix o (c :: substitute table s)); [discriminate|].
        f_equal. eapply IH; [|reflexivity]. simpl. lia.
Qed.

Lemma replace_count_scan c o n k s :
  Py.replace_count (c :: o) n (S k) s
  = match Py.strip_prefix (c :: o) s with
    | Some r => n ++ Py.replace_count (c :: o) n k r
    | None =>
        match s with
        | [] => []
        | d :: s' => d :: Py.replace_count (c :: o) n (S k) s'
        end
    end.
Proof.
  destruct s as [|d s]; [reflexivity|].
  cbn [Py.replace_count Py.partition_first].
  destruct (Py.strip_prefix (c :: o) (d :: s)); [reflexivity|].
  destruct (Py.partition_first (c :: o) s) as [[a b]|]; reflexivity.
Qed.

(** [replace] without a count is the substitution of one pair. *)
Lemma replace_all_substitute o n s :
  headed h o = true -> Py.replace o n None s = substitute [(o, n)] s.
Proof.
  intros Ho.
  assert (L1 : lefts_headed h [(o, n)]).
  { intros it [<-|[]]. exact Ho. }
  destruct (headed_inv o Ho) as (o' & -> & _).
  unfold Py.replace.
  assert (G : forall m s k, length s = m -> length s <= k ->
            Py.replace_count (h :: o') n (S k) s = substitute [(h :: o', n)] s).
  { clear s. induction m as [m IH] using lt_wf_ind. intros s k <- K.
    pose proof (substitute_unfold [(h :: o', n)] s L1) as U.
    cbn [first_match] in U. rewrite replace_count_scan.
    etransitivity; [|symmetry; exact U]. clear U.
    destruct (Py.strip_prefix (h :: o') s) as [r|] eqn:E.
    - apply strip_prefix_Some in E. subst s. simpl in K.
      rewrite length_app in K.
      destruct k as [|k]; [lia|]. f_equal.
      eapply IH; [|reflexivity|]; simpl; rewrite ?length_app; lia.
    - destruct s as [|d s]; [reflexivity|]. f_equal.
      eapply IH; [|reflexivity|]; simpl in *; lia. }
  eapply G; [reflexivity|lia].
Qed.

(** A word that clashes with the whole table occurs in the output exactly
    when it occurs in the input. *)
Lemma substitute_isin table o :
  lefts_headed h table -> rights_headed h table -> headed h o = true ->
  (forall it, In it table ->
     clash o (fst it) = true /\ clash o (snd it) = true) ->
  forall s, Py.isin o (substitute table s) = Py.isin o s.
Proof.
  intros L R Ho C s. remember (length s) as k eqn:K. revert s K.
  induction k as [k IH] using lt_wf_ind. intros s ->.
  rewrite (substitute_unfold table s L).
  destruct (first_match table s) as [[nt r]|] eqn:M.
  - destruct (first_match_Some _ _ _ _ M) as (t & I & ->).
    destruct (C _ I) as [C1 C2]. simpl in C1, C2.
    rewrite (isin_skips_word o nt _ Ho (R _ I) C2).
    rewrite (isin_skips_word o t _ Ho (L _ I) C1).
    eapply IH; [|reflexivity]. apply (first_match_shorter _ _ _ _ L M).
  - destruct s as [|c s]; [reflexivity|].
    rewrite !isin_cons, (startswith_headed_cons table o c s L R Ho).
    f_equal. eapply IH; [|reflexivity]. simpl. lia.
Qed.

(** No left text of the table occurs in the output. *)
Lemma substitute_removes table :
  lefts_headed h table -> rights_headed h table ->
  (forall it it', In it table -> In it' table ->
     clash (fst it) (snd it') = true) ->
  forall it, In it table ->
  forall s, Py.isin (fst it) (substitute table s) = false.
Proof.
  intros L R C [o n] I s. cbn [fst].
  remember (length s) as k eqn:K. revert s K.
  induction k as [k IH] using lt_wf_ind. intros s ->.
  rewrite (substitute_unfold table s L).
  destruct (first_match table s) as [[nt r]|] eqn:M.
  - destruct (first_match_Some _ _ _ _ M) as (t & I' & ->).
    rewrite (isin_skips_word o nt _ (L _ I) (R _ I') (C _ _ I I')).
    eapply IH; [|reflexivity]. apply (first_match_shorter _ _ _ _ L M).
  - destruct s as [|c s].
    + destruct (headed_inv o (L _ I)) as (o' & -> & _). reflexivity.
    + rewrite isin_cons, (startswith_headed_cons table o c s L R (L _ I)).
      unfold Py.startswith. rewrite (first_match_None _ _ _ _ M I).
      eapply IH; [|reflexivity]. simpl. lia.
Qed.

End TagFacts.

(** ** The deprecated-tag rule *)

Lemma substitute_nil s : substitute [] s = s.
Proof.
  unfold substitute. induction s as [|c s IH]; [reflexivity|].
  simpl. now rewrite IH.
Qed.

Lemma fits_inv h table o n :
  fits h table o n = true ->
  headed h o = true /\ headed h n = true
  /\ lefts_headed h table /\ rights_headed h table
  /\ (forall it, In it table ->
        clash o (fst it) = true /\ clash o (snd it) = true).
Proof.
  unfold fits. intros H.
  apply andb_prop in H as [H F]. apply andb_prop in H as [Ho Hn].
  rewrite forallb_forall in F.
  assert (G : forall it, In it table ->
            (clash o (fst it) = true /\ clash o (snd it) = true)
            /\ headed h (fst it) = true /\ headed h (snd it) = true).
  { intros it I. specialize (F it I).
    apply andb_prop in F as [F H4]. apply andb_prop in F as [F H3].
    apply andb_prop in F as [H1 H2]. tauto. }
  split; [exact Ho|]. split; [exact Hn|].
  split; [intros it I; apply (G it I)|].
  split; [intros it I; apply (G it I)|].
  intros it I; apply (G it I).
Qed.

Lemma deprecated_step_substitute file_path table o n content log :
  fits "<" table o n = true ->
  deprecated_step file_path (substitute table content, log) (o, n)
  = (substitute (table ++ [(o, n)]) content,
     log ++ map (deprecated_change file_path)
              (List.filter (fun it => Py.isin (fst it) content) [(o, n)])).
Proof.
  intros H. destruct (fits_inv _ _ _ _ H) as (Ho & Hn & L & R & C).
  unfold deprecated_step. cbn [fst snd List.filter].
  rewrite (substitute_isin "<" table o L R Ho C).
  rewrite <- (substitute_then_one "<" table o n L R Ho Hn
                (fun it I => proj2 (C it I))).
  rewrite <- (replace_all_substitute "<" o n _ Ho).
  destruct (Py.isin o content) eqn:E; [reflexivity|].
  simpl. rewrite app_nil_r. f_equal.
  destruct (headed_inv "<" o Ho) as (o' & -> & _).
  symmetry. apply replace_absent.
  now rewrite (substitute_isin "<" table _ L R Ho C).
Qed.

Lemma deprecated_fold file_path content todo :
  forall done log,
    all_fit "<" done todo = true ->
    fold_left (deprecated_step file_path) todo (substitute done content, log)
    = (substitute (done ++ todo) content,
       log ++ map (deprecated_change file_path)
                (List.filter (fun it => Py.isin (fst it) content) todo)).
Proof.
  induction todo as [|[o n] todo IH]; intros done log H.
  - simpl. now rewrite !app_nil_r.
  - cbn [all_fit fst snd] in H. apply andb_prop in H as [F H].
    cbn [fold_left]. rewrite (deprecated_step_substitute _ _ _ _ _ _ F).
    rewrite (IH _ _ H), <- !app_assoc. f_equal.
    change ((o, n) :: todo) with ([(o, n)] ++ todo).
    now rewrite List.filter_app, List.map_app.
Qed.

Lemma deprecated_rule_substitute file_path content :
  deprecated_rule file_path content
  = (substitute deprecated_replacements content,
     map (deprecated_change file_path) (tokens_present content)).
Proof.
  unfold deprecated_rule.
  rewrite <- (substitute_nil content) at 1.
  now rewrite (deprecated_fold file_path content deprecated_replacements [] []).
Qed.

Lemma table_clean_inv h table :
  table_clean h table = true ->
  lefts_headed h table /\ rights_headed h table
  /\ (forall it it', In it table -> In it' table ->
        clash (fst it) (snd it') = true).
Proof.
  unfold table_clean. rewrite forallb_forall. intros H.
  repeat split.
  - intros it I. specialize (H it I).
    apply andb_prop in H as [H _]. now apply andb_prop in H as [H _].
  - intros it I. specialize (H it I).
    apply andb_prop in H as [H _]. now apply andb_prop in H as [_ H].
  - intros it it' I I'. specialize (H it I).
    apply andb_prop in H as [_ H]. rewrite forallb_forall in H. now apply H.
Qed.

(** C2, as the code has it. The deprecated-tag rule returns the text with
    every occurrence of each of the six tokens replaced (the one-pass
    substitution with the dictionary), none of the tokens occurs in its
    output, and it logs one record per token that occurs in its input, in
    the order of the dictionary: the opening and the closing token of a
    pair are logged separately, each once whatever its number of
    occurrences. *)
Theorem deprecated_rule_logs_each_token_once
    (file_path : string) (content : text) :
  fst (deprecated_rule file_path content)
  = substitute deprecated_replacements content
  /\ (forall it, In it deprecated_replacements ->
        Py.isin (fst it) (fst (deprecated_rule file_path content)) = false)
  /\ snd (deprecated_rule file_path content)
     = map (deprecated_change file_path) (tokens_present content).
Proof.
  rewrite deprecated_rule_substitute. cbn [fst snd].
  split; [reflexivity|]. split; [|reflexivity].
  assert (T : table_clean "<" deprecated_replacements = true) by reflexivity.
  destruct (table_clean_inv _ _ T) as (L & R & C).
  intros it I. now apply (substitute_removes "<" _ L R C).
Qed.

(** C2 as the specification states it fails: the page [<b>hi</b>] holds
    one pair of bold tags and gets two records of the category
    [deprecated-tags], one for the opening and one for the closing token. *)
Lemma bold_pair_logs_two_records :
  snd (html_transform "index.html" (txt "<b>hi</b>"))
  = [deprecated_change "index.html" (txt "<b>", txt "<strong>");
     deprecated_change "index.html" (txt "</b>", txt "</strong>")]
  /\ length (of_category "deprecated-tags"
               (snd (html_transform "index.html" (txt "<b>hi</b>")))) <> 1.
Proof. split; [reflexivity|]. vm_compute. discriminate. Qed.

(** ** A loop over the matches of a pattern against one pass *)

Section ScanFacts.

Context {A : Type}.
Variable m : Re.matcher A.

Lemma last_char_app prev a b :
  Re.last_char prev (a ++ b) = Re.last_char (Re.last_char prev a) b.
Proof.
  unfold Re.last_char. rewrite rev_app_distr.
  destruct (rev b) as [|c r]; reflexivity.
Qed.

Lemma last_char_cons prev c w :
  Re.last_char prev (c :: w) = Re.last_char (Some c) w.
Proof. apply (last_char_app prev [c] w). Qed.

Lemma quiet_app prev P1 P2 Y :
  quiet m prev P1 (P2 ++ Y) -> quiet m (Re.last_char prev P1) P2 Y ->
  quiet m prev (P1 ++ P2) Y.
Proof.
  revert prev; induction P1 as [|c P1 IH]; intros prev H1 H2; [exact H2|].
  destruct H1 as [N H1]. split.
  - simpl. rewrite <- app_assoc. exact N.
  - apply IH; [exact H1|]. now rewrite <- (last_char_cons prev).
Qed.

Lemma quiet_snoc prev P c Y :
  quiet m prev P (c :: Y) -> m (Re.last_char prev P) (c :: Y) = None ->
  quiet m prev (P ++ [c]) Y.
Proof. intros H N. apply quiet_app; [exact H|]. split; [exact N|exact I]. Qed.

Lemma quiet_context_free p1 p2 P Y :
  context_free m -> quiet m p1 P Y -> quiet m p2 P Y.
Proof.
  intros F. revert p1 p2; induction P as [|c P IH]; intros p1 p2 H; [exact I|].
  destruct H as [N H]. split; [now rewrite (F p2 p1)|exact H].
Qed.

Variable repl : nat -> A -> text.
Variable step : nat -> A -> text -> text.
Variable good : A -> Prop.
Variable inv : option ascii -> text -> text -> Prop.

Hypothesis m_progressive : progressive m.

Hypothesis inv_skip : forall prev P c s,
  inv prev P (c :: s) -> m prev (c :: s) = None -> inv (Some c) (P ++ [c]) s.

Hypothesis inv_step : forall prev P s x w rest i,
  inv prev P s -> m prev s = Some (x, w, rest) -> good x ->
  step i x (P ++ s) = P ++ repl i x ++ rest
  /\ inv (Re.last_char prev w) (P ++ repl i x) rest.

(** A loop that handles the matches found beforehand one after the other,
    each on the text the turns before it left, computes the one pass. *)
Lemma loop_is_one_pass fuel :
  forall s P i prev,
    length s < fuel -> inv prev P s ->
    Forall good (Re.findall_fuel m fuel prev s) ->
    fold_left (fun content it => step (fst it) (snd it) content)
      (combine (seq i (length (Re.findall_fuel m fuel prev s)))
         (Re.findall_fuel m fuel prev s))
      (P ++ s)
    = P ++ rewrite_fuel m repl fuel i prev s.
Proof.
  induction fuel as [|f IH]; intros s P i prev Hl Hi Hg; [lia|].
  cbn [Re.findall_fuel rewrite_fuel] in *.
  destruct (m prev s) as [[[x w] rest]|] eqn:M.
  - apply Forall_cons_iff in Hg as [Gx Hg].
    destruct (m_progressive _ _ _ _ _ M) as [E W].
    destruct (inv_step prev P s x w rest i Hi M Gx) as [S1 S2].
    cbn [length seq combine fold_left fst snd]. rewrite S1.
    rewrite (app_assoc P (repl i x) rest).
    rewrite IH; [now rewrite <- app_assoc| |exact S2|exact Hg].
    subst s. rewrite length_app in Hl. destruct w; [congruence|simpl in Hl; lia].
  - destruct s as [|c s]; [reflexivity|].
    change (P ++ c :: s) with (P ++ [c] ++ s). rewrite (app_assoc P [c] s).
    rewrite IH;
      [now rewrite <- app_assoc| |now apply (inv_skip prev)|exact Hg].
    simpl in Hl. lia.
Qed.

End ScanFacts.

(** ** Literal needles and quiet prefixes *)

Section NeedleFacts.

Context {A : Type}.
Variable m : Re.matcher A.

Lemma partition_first_here p s r :
  Py.strip_prefix p s = Some r -> Py.partition_first p s = Some ([], r).
Proof. intros H. destruct s; simpl; now rewrite H. Qed.

(** When the pattern matches wherever the literal [w] starts, the leftmost
    [w] after a quiet prefix is the one right after the prefix. *)
Lemma partition_first_quiet prev P w rest :
  (forall p s r, Py.strip_prefix w s = Some r -> m p s <> None) ->
  quiet m prev P (w ++ rest) ->
  Py.partition_first w (P ++ w ++ rest) = Some (P, rest).
Proof.
  intros Hw. revert prev; induction P as [|c P IH]; intros prev Q.
  - cbn [app]. apply partition_first_here. apply strip_prefix_app.
  - destruct Q as [N Q]. cbn [app Py.partition_first].
    destruct (Py.strip_prefix w (c :: P ++ w ++ rest)) as [r|] eqn:E.
    + exfalso. exact (Hw _ _ _ E N).
    + now rewrite (IH _ Q).
Qed.

(** A text none of whose characters can start a match is quiet. *)
Lemma quiet_no_start (starts : ascii -> bool) prev u Y :
  (forall p c s, starts c = false -> m p (c :: s) = None) ->
  forallb (fun c => negb (starts c)) u = true ->
  quiet m prev u Y.
Proof.
  intros Hs. revert prev; induction u as [|c u IH]; intros prev F; [exact I|].
  simpl in F. apply andb_prop in F as [E F]. apply negb_true_iff in E.
  split; [now apply Hs|now apply IH].
Qed.

End NeedleFacts.

Lemma span_until_Some stop s a b :
  Re.span_until stop s = Some (a, b) -> s = a ++ stop :: b.
Proof.
  revert a b; induction s as [|c s IH]; intros a b; simpl; [discriminate|].
  destruct (Ascii.eqb_spec c stop) as [->|].
  - now intros [= <- <-].
  - destruct (Re.span_until stop s) as [[a' b']|]; [|discriminate].
    intros [= <- <-]. simpl. f_equal. now apply IH.
Qed.

Lemma span_until_app stop a b :
  exists x, Re.span_until stop (a ++ stop :: b) = Some x.
Proof.
  induction a as [|c a [x IH]]; simpl.
  - rewrite Ascii.eqb_refl. eauto.
  - destruct (Ascii.eqb c stop); [eauto|]. rewrite IH. destruct x. eauto.
Qed.

(** The needle [K] cannot run over the end of [u] into a character it does
    not have. *)
Lemma strip_prefix_no_overlap K u c Z r :
  Py.strip_prefix K (u ++ c :: Z) = Some r ->
  existsb (Ascii.eqb c) K = false ->
  exists u', u = K ++ u'.
Proof.
  revert u; induction K as [|k K IH]; intros u H E; [now exists u|].
  simpl in E. apply orb_false_elim in E as [E1 E2].
  destruct u as [|d u]; simpl in H.
  - rewrite Ascii.eqb_sym, E1 in H. discriminate.
  - destruct (Ascii.eqb_spec k d) as [->|]; [|discriminate].
    destruct (IH u H E2) as (u' & ->). now exists u'.
Qed.

(** ** The attribute pattern and the inline-style rule *)

Section AttrFacts.

Variable name : string.

Lemma quoted_attr_inv prev s x w rest :
  Re.quoted_attr name prev s = Some (x, w, rest) ->
  w = Re.attr_open name ++ x ++ [dq] /\ s = w ++ rest.
Proof.
  unfold Re.quoted_attr.
  destruct (Py.strip_prefix (Re.attr_open name) s) as [r|] eqn:E; [|discriminate].
  destruct (Re.span_until dq r) as [[g rest']|] eqn:S; [|discriminate].
  intros [= <- <- <-]. split; [reflexivity|].
  apply strip_prefix_Some in E. apply span_until_Some in S. subst.
  now rewrite <- !app_assoc.
Qed.

Lemma quoted_attr_progressive : progressive (Re.quoted_attr name).
Proof.
  intros prev s x w rest H. destruct (quoted_attr_inv _ _ _ _ _ H) as [-> ->].
  split; [reflexivity|]. intros E. apply (f_equal (@length ascii)) in E.
  rewrite !length_app in E. simpl in E. lia.
Qed.

Lemma quoted_attr_context_free : context_free (Re.quoted_attr name).
Proof. intros p1 p2 s. reflexivity. Qed.

Lemma quoted_attr_needs_open p s :
  Py.strip_prefix (Re.attr_open name) s = None ->
  Re.quoted_attr name p s = None.
Proof. intros H. unfold Re.quoted_attr. now rewrite H. Qed.

(** Where the attribute stands literally, the pattern matches. *)
Lemma quoted_attr_of_literal x p s r :
  Py.strip_prefix (Re.attr_open name ++ x ++ [dq]) s = Some r ->
  Re.quoted_attr name p s <> None.
Proof.
  intros H. apply strip_prefix_Some in H. subst s.
  unfold Re.quoted_attr. rewrite <- app_assoc, strip_prefix_app.
  rewrite <- app_assoc. cbn [app].
  destruct (span_until_app dq x r) as [[g rest] ->]. discriminate.
Qed.

(** A quiet prefix stays quiet when the text after it is exchanged for
    one that starts with a character foreign to the opening of the
    attribute, as long as the old text held a double quote. *)
Lemma quiet_new_tail prev P c Z Y1 Y2 :
  existsb (Ascii.eqb c) (Re.attr_open name) = false ->
  quiet (Re.quoted_attr name) prev P (Y1 ++ dq :: Y2) ->
  quiet (Re.quoted_attr name) prev P (c :: Z).
Proof.
  intros E. revert prev; induction P as [|d P IH]; intros prev Q; [exact I|].
  destruct Q as [N Q]. split; [|now apply IH].
  destruct (Py.strip_prefix (Re.attr_open name) (d :: P ++ c :: Z)) as [r|] eqn:S;
    [|now apply quoted_attr_needs_open].
  exfalso.
  change (d :: P ++ c :: Z) with ((d :: P) ++ c :: Z) in S.
  destruct (strip_prefix_no_overlap _ _ _ _ _ S E) as (u' & U).
  change (d :: P ++ Y1 ++ dq :: Y2) with ((d :: P) ++ Y1 ++ dq :: Y2) in N.
  rewrite U in N. unfold Re.quoted_attr in N.
  rewrite <- app_assoc, strip_prefix_app in N.
  rewrite app_assoc in N.
  destruct (span_until_app dq (u' ++ Y1) Y2) as [[g rest] G].
  rewrite G in N. discriminate.
Qed.

End AttrFacts.

Lemma replace_once_found' old new s a b :
  old <> [] -> Py.partition_first old s = Some (a, b) ->
  Py.replace old new (Some 1) s = a ++ new ++ b.
Proof.
  intros N H. destruct old as [|c old]; [congruence|].
  now apply replace_once_found.
Qed.

Lemma str_nat_forall (f : ascii -> bool) n :
  forallb f (txt "0123456789") = true -> forallb f (str_nat n) = true.
Proof.
  intros H. unfold str_nat. generalize (Nat.to_uint n). intros d.
  cbn in H. repeat (apply andb_prop in H as [? H]). unfold txt.
  induction d as [|d IH|d IH|d IH|d IH|d IH|d IH|d IH|d IH|d IH|d IH];
    cbn; rewrite ?IH; try reflexivity;
    match goal with E : f ?c = true |- f ?c && _ = true => now rewrite E end.
Qed.

Lemma style_attr_open x : style_attr x = Re.attr_open "style" ++ x ++ [dq].
Proof. reflexivity. Qed.

Lemma class_attr_split i :
  class_attr i
  = (txt "class=" ++ [dq] ++ txt "inline-style-") ++ str_nat (i + 1) ++ [dq].
Proof. reflexivity. Qed.

Lemma style_needs_s p c s :
  Ascii.eqb "s" c = false -> Re.quoted_attr "style" p (c :: s) = None.
Proof.
  intros H. unfold Re.quoted_attr.
  cbn [Re.attr_open txt list_ascii_of_string app Py.strip_prefix].
  now rewrite H.
Qed.

Lemma class_attr_quiet prev i rest :
  quiet (Re.quoted_attr "style") prev (class_attr i) rest.
Proof.
  rewrite class_attr_split. apply quiet_app.
  - cbn. repeat split; reflexivity.
  - apply (quiet_no_start _ (Ascii.eqb "s")); [apply style_needs_s|].
    rewrite forallb_app. apply andb_true_intro. split; [|reflexivity].
    now apply str_nat_forall.
Qed.

Lemma inline_fold l :
  forall css content,
    fold_left inline_style_step l (css, content)
    = (css ++ map (fun it => txt "." ++ class_name (fst it) ++ txt " { "
                               ++ snd it ++ txt " }") l,
       fold_left (fun c it =>
                    Py.replace (style_attr (snd it)) (class_attr (fst it))
                      (Some 1) c) l content).
Proof.
  induction l as [|[i style] l IH]; intros css content.
  - simpl. now rewrite app_nil_r.
  - cbn [fold_left inline_style_step map fst snd]. rewrite IH.
    now rewrite <- app_assoc.
Qed.

(** The loop of the inline-style rule computes the one pass that gives
    the i-th attribute the i-th class. *)
Lemma inline_loop content :
  fold_left (fun c it =>
               Py.replace (style_attr (snd it)) (class_attr (fst it))
                 (Some 1) c)
    (enumerate (Re.findall (Re.quoted_attr "style") content)) content
  = rewrite_matches (Re.quoted_attr "style") (fun i _ => class_attr i) content.
Proof.
  unfold enumerate, Re.findall, rewrite_matches.
  apply (loop_is_one_pass (Re.quoted_attr "style") (fun i _ => class_attr i)
           (fun i x c => Py.replace (style_attr x) (class_attr i) (Some 1) c)
           (fun _ => True)
           (fun _ P s => quiet (Re.quoted_attr "style") None P s)
           (quoted_attr_progressive "style"))
    with (P := []).
  - intros prev P c s Q N. apply quiet_snoc; [exact Q|].
    now rewrite (quoted_attr_context_free "style" _ prev).
  - intros prev P s x w rest i Q M _.
    destruct (quoted_attr_inv _ _ _ _ _ _ M) as [-> ->]. split.
    + rewrite style_attr_open. apply replace_once_found'.
      * intros E. apply (f_equal (@length ascii)) in E.
        rewrite !length_app in E. simpl in E. lia.
      * eapply partition_first_quiet; [|exact Q].
        intros p s r. apply quoted_attr_of_literal.
    + apply quiet_app; [|apply class_attr_quiet].
      rewrite class_attr_split. cbn [txt list_ascii_of_string app].
      assert (E : (Re.attr_open "style" ++ x ++ [dq]) ++ rest
                  = (Re.attr_open "style" ++ x) ++ dq :: rest)
        by now rewrite <- !app_assoc.
      rewrite E in Q.
      apply (quiet_new_tail "style" None P "c"%char _
               (Re.attr_open "style" ++ x) rest); [reflexivity|exact Q].
  - lia.
  - exact I.
  - apply Forall_forall. intros; exact I.
Qed.

(** ** The inline-style rule, read on the text cut at its attributes *)

Lemma span_until_clean stop a b :
  ~ In stop a -> Re.span_until stop (a ++ stop :: b) = Some (a, b).
Proof.
  induction a as [|c a IH]; intros N; simpl.
  - now rewrite Ascii.eqb_refl.
  - destruct (Ascii.eqb_spec c stop) as [->|_].
    + exfalso. apply N. now left.
    + rewrite IH; [reflexivity|]. intros I. apply N. now right.
Qed.

Lemma span_until_before stop s a b :
  Re.span_until stop s = Some (a, b) -> ~ In stop a.
Proof.
  revert a b; induction s as [|c s IH]; intros a b; simpl; [discriminate|].
  destruct (Ascii.eqb_spec c stop) as [->|N].
  - intros [= <- <-]. intros [].
  - destruct (Re.span_until stop s) as [[a' b']|]; [|discriminate].
    intros [= <- <-]. intros [E|I]; [now apply N|]. now apply (IH a' b').
Qed.

Lemma occurs_cons p c s :
  occurs p (c :: s) -> (exists r, c :: s = p ++ r) \/ occurs p s.
Proof.
  intros ([|d a] & b & E).
  - left. now exists b.
  - right. exists a, b. now injection E.
Qed.

Lemma weave_cons attr i c head tail :
  weave attr i (c :: head) tail = c :: weave attr i head tail.
Proof. now destruct tail as [|[x piece] tail]. Qed.

Lemma weave_app attr i a head tail :
  weave attr i (a ++ head) tail = a ++ weave attr i head tail.
Proof.
  induction a as [|c a IH]; [reflexivity|].
  cbn [app]. now rewrite weave_cons, IH.
Qed.

Lemma style_attribute_open x :
  style_attribute x = Re.attr_open "style" ++ x ++ [dq].
Proof. reflexivity. Qed.

Lemma class_attr_numbered i : class_attr i = numbered_class (S i).
Proof.
  unfold class_attr, class_name, numbered_class.
  rewrite Nat.add_1_r. now rewrite <- !app_assoc.
Qed.

(** The opening of the attribute does not overlap itself: where it stands
    at the start of a text that holds it again after [u], it lies within
    [u] or [u] is empty. *)
Lemma attr_open_no_border u Z r :
  Py.strip_prefix (Re.attr_open "style") (u ++ Re.attr_open "style" ++ Z)
  = Some r ->
  u = [] \/ exists u', u = Re.attr_open "style" ++ u'.
Proof.
  destruct u as [|c u]; [now left|]. intros H. right.
  change (Re.attr_open "style") with ("s"%char :: txt "tyle=" ++ [dq]) in H |- *.
  cbn [app Py.strip_prefix] in H.
  destruct (Ascii.eqb_spec "s" c) as [<-|]; [|discriminate].
  destruct (strip_prefix_no_overlap _ _ _ _ _ H eq_refl) as (u' & ->).
  now exists u'.
Qed.

Section StyleCut.

Local Abbreviation m := (Re.quoted_attr "style").
Local Abbreviation style := (fun (_ : nat) (x : text) => style_attribute x).
Local Abbreviation class := (fun (i : nat) (_ : text) => numbered_class i).

(** The pattern finds nothing in a piece that holds no whole attribute. *)
Lemma last_piece_quiet fuel : forall p i head,
  (forall x, ~ occurs (style_attribute x) head) ->
  rewrite_fuel m (fun i _ => class_attr i) fuel i p head = head
  /\ Re.findall_fuel m fuel p head = [].
Proof.
  induction fuel as [|f IH]; intros p i head N; [now split|].
  cbn [rewrite_fuel Re.findall_fuel].
  destruct (m p head) as [[[x w] rest]|] eqn:M.
  - exfalso. destruct (quoted_attr_inv _ _ _ _ _ _ M) as [-> ->].
    apply (N x). exists [], rest. reflexivity.
  - destruct head as [|c head]; [now split|].
    destruct (IH (Some c) i head) as [R F].
    + intros x O. apply (N x). destruct O as (a & b & ->).
      now exists (c :: a), b.
    + now rewrite R, F.
Qed.

Lemma quoted_attr_clean p s x w rest :
  m p s = Some (x, w, rest) -> ~ In dq x.
Proof.
  unfold Re.quoted_attr.
  destruct (Py.strip_prefix (Re.attr_open "style") s) as [r|]; [|discriminate].
  destruct (Re.span_until dq r) as [[g rest']|] eqn:S; [|discriminate].
  intros [= <- _ _]. exact (span_until_before _ _ _ _ S).
Qed.

Lemma quoted_attr_at x W p :
  ~ In dq x ->
  m p (style_attribute x ++ W)
  = Some (x, Re.attr_open "style" ++ x ++ [dq], W).
Proof.
  intros N. unfold Re.quoted_attr.
  rewrite style_attribute_open, <- app_assoc, strip_prefix_app.
  rewrite <- app_assoc. cbn [app]. now rewrite span_until_clean.
Qed.

Lemma no_opening_no_match p c h Z :
  ~ occurs (Re.attr_open "style") (c :: h) ->
  m p (c :: h ++ Re.attr_open "style" ++ Z) = None.
Proof.
  intros N. apply quoted_attr_needs_open.
  destruct (Py.strip_prefix (Re.attr_open "style")
              (c :: h ++ Re.attr_open "style" ++ Z)) as [r|] eqn:S;
    [|reflexivity].
  exfalso. change (c :: h ++ Re.attr_open "style" ++ Z)
    with ((c :: h) ++ Re.attr_open "style" ++ Z) in S.
  destruct (attr_open_no_border _ _ _ S) as [E|(u' & E)]; [discriminate|].
  apply N. exists [], u'. exact E.
Qed.

(** On a text cut at its attributes, the pass over the matches puts the
    numbered class at each cut, and the pattern finds one match per cut. *)
Lemma pass_on_cut fuel : forall p i head tail,
  length (weave style (S i) head tail) < fuel ->
  cut_at_styles head tail ->
  rewrite_fuel m (fun i _ => class_attr i) fuel i p
    (weave style (S i) head tail)
  = weave class (S i) head tail
  /\ length (Re.findall_fuel m fuel p (weave style (S i) head tail))
     = length tail.
Proof.
  induction fuel as [|f IH]; intros p i head tail L C; [lia|].
  destruct tail as [|[x piece] tail].
  - cbn [weave]. destruct (last_piece_quiet (S f) p i head C) as [R F].
    now rewrite R, F.
  - destruct C as (O & D & C). destruct head as [|c h].
    + cbn [weave app] in *. cbn [rewrite_fuel Re.findall_fuel].
      rewrite !(quoted_attr_at x _ p D).
      rewrite style_attribute_open in L.
      rewrite !length_app in L. cbn [length] in L.
      destruct (IH (Re.last_char p (Re.attr_open "style" ++ x ++ [dq]))
                  (S i) piece tail) as [R F]; [lia|exact C|].
      cbn [length]. rewrite R, F.
      now rewrite class_attr_numbered.
    + rewrite weave_cons in *. cbn [length] in L.
      assert (O' : ~ occurs (Re.attr_open "style") h).
      { intros (a & b & ->). apply O. now exists (c :: a), b. }
      destruct (IH (Some c) i h ((x, piece) :: tail)) as [R F];
        [lia|now repeat split|].
      cbn [rewrite_fuel Re.findall_fuel].
      assert (M : m p (c :: weave style (S i) h ((x, piece) :: tail)) = None).
      { cbn [weave]. rewrite style_attribute_open.
        rewrite <- !app_assoc. now apply no_opening_no_match. }
      rewrite M, R, F. now rewrite weave_cons.
Qed.

(** Every text has such a cut. *)
Lemma cut_exists fuel : forall i s,
  length s < fuel ->
  exists head tail,
    s = weave style i head tail /\ cut_at_styles head tail.
Proof.
  induction fuel as [|f IH]; intros i s L; [lia|].
  destruct (m None s) as [[[x w] rest]|] eqn:M.
  - destruct (quoted_attr_inv _ _ _ _ _ _ M) as [-> E].
    assert (L' : length rest < f).
    { rewrite E in L. rewrite !length_app in L. cbn [length] in L. lia. }
    destruct (IH (S i) rest L') as (head & tail & E' & C).
    exists [], ((x, head) :: tail). split.
    + cbn [weave app]. rewrite <- E'.
      now rewrite style_attribute_open.
    + split; [|split; [exact (quoted_attr_clean _ _ _ _ _ M)|exact C]].
      intros (a & b & A). apply (f_equal (@length ascii)) in A.
      rewrite !length_app in A. cbn [length] in A. lia.
  - destruct s as [|c s].
    + exists [], []. split; [reflexivity|]. intros x (a & b & A).
      apply (f_equal (@length ascii)) in A. unfold style_attribute in A.
      rewrite !length_app in A. cbn [length] in A. lia.
    + cbn [length] in L.
      destruct (IH i s ltac:(lia)) as (head & tail & E & C).
      exists (c :: head), tail. split; [now rewrite weave_cons, <- E|].
      destruct tail as [|[x piece] tail].
      * cbn [weave] in E. subst head. intros x O.
        destruct (occurs_cons _ _ _ O) as [(r & A)|O']; [|exact (C x O')].
        apply (quoted_attr_of_literal "style" x None (c :: s) r);
          [|exact M].
        apply strip_prefix_iff. exact A.
      * destruct C as (O & D & C). split; [|now split].
        intros O1. destruct (occurs_cons _ _ _ O1) as [(r & A)|O']; [|exact (O O')].
        apply (quoted_attr_of_literal "style" (r ++ Re.attr_open "style" ++ x)
                 None (c :: s) (weave style (S i) piece tail)); [|exact M].
        apply strip_prefix_iff. rewrite E. cbn [weave].
        change (c :: head ++ ?t) with ((c :: head) ++ t). rewrite A.
        rewrite style_attribute_open.
        now rewrite <- !app_assoc.
Qed.

End StyleCut.

Lemma inline_styles_rule_as_pass (file_path : string) (content : text) :
  fst (inline_styles_rule file_path content)
  = rewrite_matches (Re.quoted_attr "style") (fun i _ => class_attr i) content
  /\ snd (inline_styles_rule file_path content)
     = match Re.findall (Re.quoted_attr "style") content with
       | [] => []
       | (_ :: _) as l => [inline_styles_change file_path (length l)]
       end.
Proof.
  pose proof (inline_loop content) as L. unfold inline_styles_rule.
  destruct (Re.findall (Re.quoted_attr "style") content) as [|x l] eqn:F.
  - split; [exact L|reflexivity].
  - rewrite inline_fold. cbn [fst snd]. split; [exact L|].
    unfold enumerate. cbn [length seq combine map app]. reflexivity.
Qed.

(** C7. Cut a text at its style attributes, in document order: the
    pieces between them hold no further occurrence and the style texts
    no double quote.  Every text has such a cut, and for every such cut
    the inline-style rule returns the same pieces with the i-th
    attribute, counted from 1, replaced by the class attribute
    [inline-style-i], identical style texts included; it logs exactly one
    record of the category [inline-styles], whose description carries the
    number of occurrences, when there is at least one occurrence, and
    none otherwise. *)
Theorem inline_styles_rule_numbers_occurrences
    (file_path : string) (content : text) :
  (exists head tail,
     content = weave (fun _ x => style_attribute x) 1 head tail
     /\ cut_at_styles head tail)
  /\ (forall head tail,
        content = weave (fun _ x => style_attribute x) 1 head tail ->
        cut_at_styles head tail ->
        fst (inline_styles_rule file_path content)
        = weave (fun i _ => numbered_class i) 1 head tail
        /\ snd (inline_styles_rule file_path content)
           = match tail with
             | [] => []
             | _ :: _ =>
                 [mkChange file_path "inline-styles"
                    (txt "Extracted " ++ str_nat (length tail)
                       ++ txt " inline styles to classes")]
             end)
  /\ fst (inline_styles_rule file_path
            (txt "<p style=" ++ [dq] ++ txt "a:b" ++ [dq] ++ txt "><i style="
               ++ [dq] ++ txt "a:b" ++ [dq] ++ txt ">"))
     = txt "<p class=" ++ [dq] ++ txt "inline-style-1" ++ [dq]
         ++ txt "><i class=" ++ [dq] ++ txt "inline-style-2" ++ [dq]
         ++ txt ">".
Proof.
  split; [|split; [|reflexivity]].
  - apply (cut_exists (S (length content)) 1 content). lia.
  - intros head tail E C.
    destruct (inline_styles_rule_as_pass file_path content) as [T R].
    rewrite T, R. unfold rewrite_matches, Re.findall.
    destruct (pass_on_cut (S (length content)) None 0 head tail) as [P F];
      [rewrite <- E; lia|exact C|].
    rewrite <- E in P, F. split; [exact P|].
    destruct (Re.findall_fuel (Re.quoted_attr "style") (S (length content))
                None content) as [|y l];
      destruct tail as [|t tail]; try discriminate; [reflexivity|].
    now rewrite F.
Qed.

(** Two attributes with the same style text get the classes 1 and 2. *)
Example inline_styles_same_text :
  fst (inline_styles_rule "index.html"
         (txt "<p style=" ++ [dq] ++ txt "a:b" ++ [dq] ++ txt "><i style="
            ++ [dq] ++ txt "a:b" ++ [dq] ++ txt ">"))
  = txt "<p class=" ++ [dq] ++ txt "inline-style-1" ++ [dq]
      ++ txt "><i class=" ++ [dq] ++ txt "inline-style-2" ++ [dq] ++ txt ">".
Proof. reflexivity. Qed.

(** ** The image pattern and the alt-text rule *)

Lemma span_until_exact stop s a b :
  Re.span_until stop s = Some (a, b) ->
  forall b', Re.span_until stop (a ++ stop :: b') = Some (a, b').
Proof.
  revert a b; induction s as [|c s IH]; intros a b; simpl; [discriminate|].
  destruct (Ascii.eqb c stop) eqn:E.
  - intros [= <- <-] b'. simpl. now rewrite Ascii.eqb_refl.
  - destruct (Re.span_until stop s) as [[a' b0]|]; [|discriminate].
    intros [= <- <-] b'. simpl. rewrite E. now rewrite (IH a' b0 eq_refl b').
Qed.

Lemma span_until_None stop s :
  Re.span_until stop s = None ->
  forallb (fun c => negb (Ascii.eqb c stop)) s = true.
Proof.
  induction s as [|c s IH]; simpl; [reflexivity|].
  destruct (Ascii.eqb c stop); [discriminate|].
  destruct (Re.span_until stop s) as [[a b]|]; [discriminate|].
  intros _. now apply IH.
Qed.

Lemma span_until_free stop s a b :
  Re.span_until stop s = Some (a, b) ->
  forallb (fun c => negb (Ascii.eqb c stop)) a = true.
Proof.
  revert a b; induction s as [|c s IH]; intros a b; simpl; [discriminate|].
  destruct (Ascii.eqb c stop) eqn:E.
  - now intros [= <- <-].
  - destruct (Re.span_until stop s) as [[a' b0]|]; [|discriminate].
    intros [= <- <-]. simpl. rewrite E. simpl. now apply (IH a' b0).
Qed.

(** Whether [K] starts a text is decided before a character [K] lacks. *)
Lemma startswith_local K u c Z :
  existsb (Ascii.eqb c) K = false ->
  Py.startswith K (u ++ c :: Z) = Py.startswith K u.
Proof.
  intros E. unfold Py.startswith.
  destruct (Py.strip_prefix K (u ++ c :: Z)) as [r|] eqn:S.
  - destruct (strip_prefix_no_overlap _ _ _ _ _ S E) as (u' & ->).
    now rewrite strip_prefix_app.
  - destruct (Py.strip_prefix K u) as [r|] eqn:S'; [|reflexivity].
    apply strip_prefix_Some in S'. subst u.
    rewrite <- app_assoc, strip_prefix_app in S. discriminate.
Qed.

Lemma alt_ahead_cons c r :
  Re.alt_ahead (c :: r)
  = if Py.startswith (txt "alt=") (c :: r) then true
    else if Ascii.eqb c ">" then false else Re.alt_ahead r.
Proof. reflexivity. Qed.

(** The lookahead is decided by the text up to the first [>]. *)
Lemma alt_ahead_local v Y Y' :
  forallb (fun c => negb (Ascii.eqb c ">")) v = true ->
  Re.alt_ahead (v ++ ">"%char :: Y) = Re.alt_ahead (v ++ ">"%char :: Y').
Proof.
  induction v as [|c v IH]; intros F; [reflexivity|].
  simpl in F. apply andb_prop in F as [E F]. apply negb_true_iff in E.
  cbn [app]. rewrite !alt_ahead_cons, E.
  change (c :: v ++ ">"%char :: Y) with ((c :: v) ++ ">"%char :: Y).
  change (c :: v ++ ">"%char :: Y') with ((c :: v) ++ ">"%char :: Y').
  rewrite !(startswith_local (txt "alt=") (c :: v) ">") by reflexivity.
  now rewrite (IH F).
Qed.

(** Without a [>] on the way, the lookahead reaches an alt attribute
    that follows. *)
Lemma alt_ahead_reaches u Z :
  forallb (fun c => negb (Ascii.eqb c ">")) u = true ->
  Re.alt_ahead (u ++ txt "<img alt=" ++ Z) = true.
Proof.
  induction u as [|c u IH]; intros F; [reflexivity|].
  simpl in F. apply andb_prop in F as [E F]. apply negb_true_iff in E.
  cbn [app]. rewrite alt_ahead_cons, E, (IH F).
  now destruct (Py.startswith _ _).
Qed.

Lemma img_inv prev s x w rest :
  Re.img_without_alt prev s = Some (x, w, rest) ->
  exists run,
    x = w /\ w = txt "<img" ++ run ++ txt ">" /\ s = w ++ rest
    /\ Re.alt_ahead (run ++ ">"%char :: rest) = false
    /\ Re.span_until ">" (run ++ ">"%char :: rest) = Some (run, rest).
Proof.
  unfold Re.img_without_alt.
  destruct (Py.strip_prefix (txt "<img") s) as [r|] eqn:E; [|discriminate].
  destruct (Re.alt_ahead r) eqn:L; [discriminate|].
  destruct (Re.span_until ">" r) as [[g rest']|] eqn:S; [|discriminate].
  intros [= <- <- <-]. exists g.
  apply strip_prefix_Some in E. pose proof (span_until_Some _ _ _ _ S) as R.
  subst r s. split; [reflexivity|]. split; [reflexivity|].
  split; [|split; assumption].
  cbn [txt list_ascii_of_string app]. now rewrite <- app_assoc.
Qed.

Lemma img_progressive : progressive Re.img_without_alt.
Proof.
  intros prev s x w rest H.
  destruct (img_inv _ _ _ _ _ H) as (run & _ & -> & -> & _).
  split; [reflexivity|discriminate].
Qed.

Lemma img_context_free : context_free Re.img_without_alt.
Proof. intros p1 p2 s. reflexivity. Qed.

Lemma img_needs_open p s :
  Py.strip_prefix (txt "<img") s = None -> Re.img_without_alt p s = None.
Proof. intros H. unfold Re.img_without_alt. now rewrite H. Qed.

Lemma img_needs_lt p c s :
  Ascii.eqb "<" c = false -> Re.img_without_alt p (c :: s) = None.
Proof.
  intros H. apply img_needs_open.
  cbn [txt list_ascii_of_string Py.strip_prefix]. now rewrite H.
Qed.

(** Where a matched tag stands literally, the pattern matches. *)
Lemma img_of_literal run rest p s r :
  Re.alt_ahead (run ++ ">"%char :: rest) = false ->
  Re.span_until ">" (run ++ ">"%char :: rest) = Some (run, rest) ->
  Py.strip_prefix (txt "<img" ++ run ++ txt ">") s = Some r ->
  Re.img_without_alt p s <> None.
Proof.
  intros L S H. apply strip_prefix_Some in H. subst s.
  unfold Re.img_without_alt. rewrite <- app_assoc, strip_prefix_app.
  rewrite <- app_assoc. cbn [txt list_ascii_of_string app].
  rewrite (alt_ahead_local run r rest (span_until_free _ _ _ _ S)), L.
  now rewrite (span_until_exact _ _ _ _ S r).
Qed.

Lemma strip_prefix_no_overlap_tail k K u c Z r :
  Py.strip_prefix (k :: K) (u ++ c :: Z) = Some r ->
  u <> [] -> existsb (Ascii.eqb c) K = false ->
  exists u', u = (k :: K) ++ u'.
Proof.
  intros H N E. destruct u as [|d u]; [congruence|]. simpl in H.
  destruct (Ascii.eqb_spec k d) as [->|]; [|discriminate].
  destruct (strip_prefix_no_overlap _ _ _ _ _ H E) as (u' & ->).
  now exists u'.
Qed.

(** A quiet prefix stays quiet when the text after it is exchanged for one
    that starts with an image tag that has an alt attribute. *)
Lemma img_quiet_new_tail prev P run rest Z :
  quiet Re.img_without_alt prev P ((txt "<img" ++ run ++ txt ">") ++ rest) ->
  quiet Re.img_without_alt prev P (txt "<img alt=" ++ Z).
Proof.
  revert prev; induction P as [|d P IH]; intros prev Q; [exact I|].
  destruct Q as [N Q]. split; [|now apply IH].
  destruct (Py.strip_prefix (txt "<img") (d :: P ++ txt "<img alt=" ++ Z))
    as [r|] eqn:S; [|now apply img_needs_open].
  change (d :: P ++ txt "<img alt=" ++ Z)
    with ((d :: P) ++ "<"%char :: txt "img alt=" ++ Z) in S |- *.
  destruct (strip_prefix_no_overlap_tail "<" (txt "img") (d :: P) "<" _ _ S)
    as (u' & U); [discriminate|reflexivity|].
  change (d :: P ++ (txt "<img" ++ run ++ txt ">") ++ rest)
    with ((d :: P) ++ (txt "<img" ++ run ++ txt ">") ++ rest) in N.
  rewrite U in N |- *. clear S U IH Q.
  unfold Re.img_without_alt in *.
  rewrite <- app_assoc, strip_prefix_app in N.
  rewrite <- app_assoc, strip_prefix_app.
  destruct (Re.span_until ">" u') as [[v v']|] eqn:G.
  - pose proof (span_until_free _ _ _ _ G) as F.
    apply span_until_Some in G. subst u'.
    rewrite <- app_assoc in N |- *. cbn [app] in N |- *.
    rewrite (alt_ahead_local v _ (v' ++ (txt "<img" ++ run ++ txt ">") ++ rest) F).
    destruct (Re.alt_ahead (v ++ ">"%char :: v' ++ (txt "<img" ++ run ++ txt ">") ++ rest));
      [reflexivity|].
    destruct (span_until_app ">" v (v' ++ (txt "<img" ++ run ++ txt ">") ++ rest))
      as [[a b] E].
    rewrite E in N. discriminate.
  - apply span_until_None in G.
    change ("<"%char :: txt "img alt=" ++ Z) with (txt "<img alt=" ++ Z).
    now rewrite (alt_ahead_reaches u' Z G).
Qed.

(** A text without the needle, before a character the needle lacks, is
    quiet for a pattern that starts with the needle. *)
Lemma quiet_no_occurrence {A} (m : Re.matcher A) K prev u c Z :
  (forall p s, Py.strip_prefix K s = None -> m p s = None) ->
  existsb (Ascii.eqb c) K = false ->
  Py.isin K u = false ->
  quiet m prev u (c :: Z).
Proof.
  intros Hm E. revert prev; induction u as [|d u IH]; intros prev H; [exact I|].
  rewrite isin_cons in H. apply orb_false_elim in H as [H1 H2].
  split; [|now apply IH]. apply Hm.
  pose proof (startswith_local K (d :: u) c Z E) as L.
  rewrite H1 in L. unfold Py.startswith in L. cbn [app] in L.
  now destruct (Py.strip_prefix K (d :: u ++ c :: Z)).
Qed.

Lemma title_char_not_lt (b : bool) (c : ascii) :
  Ascii.eqb "<"
    (if Py.is_cased c then if b then Py.to_lower c else Py.to_upper c else c)
  = true ->
  Py.is_cased c = false.
Proof.
  destruct b, c as [[] [] [] [] [] [] [] []]; vm_compute; congruence.
Qed.

Lemma title_first_not_i (c : ascii) :
  Ascii.eqb "i" (if Py.is_cased c then Py.to_upper c else c) = false.
Proof. destruct c as [[] [] [] [] [] [] [] []]; reflexivity. Qed.

(** A title-cased text holds no [<i], so no image tag starts in it. *)
Lemma title_quiet prev b x y Z :
  Ascii.eqb "i" y = false ->
  quiet Re.img_without_alt prev (Py.title_from b x) (y :: Z).
Proof.
  intros Y. revert prev b; induction x as [|c x IH]; intros prev b; [exact I|].
  cbn [Py.title_from]. split; [|apply IH].
  destruct (Ascii.eqb "<"
              (if Py.is_cased c then if b then Py.to_lower c else Py.to_upper c
               else c)) eqn:E; [|now apply img_needs_lt].
  pose proof (title_char_not_lt b c E) as U. rewrite U in *.
  apply Ascii.eqb_eq in E. subst c. apply img_needs_open.
  cbn [txt list_ascii_of_string Py.strip_prefix app]. rewrite Ascii.eqb_refl.
  destruct x as [|d x]; cbn [Py.title_from app Py.strip_prefix].
  - now rewrite Y.
  - now rewrite title_first_not_i.
Qed.

Lemma alt_text_quiet prev img y Z :
  Ascii.eqb "i" y = false ->
  quiet Re.img_without_alt prev (alt_text img) (y :: Z).
Proof.
  intros Y. unfold alt_text.
  destruct (Re.search (Re.quoted_attr "src") img); [now apply title_quiet|].
  cbn. repeat split; reflexivity.
Qed.

Lemma isin_middle K a b c :
  Py.isin K (a ++ b ++ c) = false -> Py.isin K b = false.
Proof.
  intros H. destruct (Py.isin K b) eqn:E; [|reflexivity].
  apply isin_occurs in E as (x & y & ->).
  apply not_isin_occurs in H. exfalso. apply H.
  exists (a ++ x), (y ++ c). now rewrite <- !app_assoc.
Qed.

Lemma alt_tag_split run :
  alt_tag (txt "<img" ++ run ++ txt ">")
  = (txt "<img alt=" ++ [dq])
      ++ alt_text (txt "<img" ++ run ++ txt ">") ++ (dq :: run ++ txt ">").
Proof. reflexivity. Qed.

Lemma alt_tag_quiet prev run rest :
  single_img (txt "<img" ++ run ++ txt ">") ->
  quiet Re.img_without_alt prev (alt_tag (txt "<img" ++ run ++ txt ">")) rest.
Proof.
  intros G. unfold single_img in G.
  assert (R : Py.isin (txt "<img") run = false).
  { apply (isin_middle _ (txt "img") run (txt ">")). exact G. }
  rewrite alt_tag_split.
  apply quiet_app; [cbn; repeat split; reflexivity|].
  apply quiet_app; [now apply alt_text_quiet|].
  split; [reflexivity|]. apply quiet_app.
  - apply (quiet_no_occurrence _ (txt "<img"));
      [apply img_needs_open|reflexivity|exact R].
  - split; [reflexivity|exact I].
Qed.

Lemma new_img_alt_tag run :
  new_img (txt "<img" ++ run ++ txt ">") = alt_tag (txt "<img" ++ run ++ txt ">").
Proof.
  unfold new_img.
  rewrite (replace_once_found' (txt "<img") _ _ [] (run ++ txt ">"));
    [|discriminate|apply partition_first_here, strip_prefix_app].
  rewrite alt_tag_split. cbn [txt list_ascii_of_string app]. do 10 f_equal.
  now rewrite <- app_assoc.
Qed.

Lemma fold_left_indexed {X Y} (f : X -> Y -> X) l :
  forall i x,
    fold_left (fun c (it : nat * Y) => f c (snd it))
      (combine (seq i (length l)) l) x
    = fold_left f l x.
Proof.
  induction l as [|y l IH]; intros i x; [reflexivity|].
  cbn [length seq combine fold_left snd]. apply IH.
Qed.

(** On a text whose tags without alt hold no second image token, the loop
    of the alt-text rule computes the one pass that puts the alt attribute
    into each of these tags. *)
Lemma alt_loop content :
  Forall single_img (Re.findall Re.img_without_alt content) ->
  fold_left alt_step (Re.findall Re.img_without_alt content) content
  = rewrite_matches Re.img_without_alt (fun _ img => alt_tag img) content.
Proof.
  intros G.
  rewrite <- (fold_left_indexed alt_step _ 0 content).
  unfold Re.findall, rewrite_matches in *.
  apply (loop_is_one_pass Re.img_without_alt (fun _ img => alt_tag img)
           (fun _ img c => alt_step c img) single_img
           (fun _ P s => quiet Re.img_without_alt None P s)
           img_progressive)
    with (P := []).
  - intros prev P c s Q N. apply quiet_snoc; [exact Q|].
    now rewrite (img_context_free _ prev).
  - intros prev P s x w rest i Q M Gx.
    destruct (img_inv _ _ _ _ _ M) as (run & -> & -> & -> & L & S). split.
    + unfold alt_step. rewrite new_img_alt_tag.
      apply replace_once_found'; [discriminate|].
      eapply partition_first_quiet; [|exact Q].
      intros p s r. now apply (img_of_literal run rest).
    + apply quiet_app; [|now apply alt_tag_quiet].
      rewrite alt_tag_split, <- app_assoc.
      change ((txt "<img alt=" ++ [dq]) ++ ?z)
        with (txt "<img alt=" ++ dq :: z).
      eapply img_quiet_new_tail. exact Q.
  - lia.
  - exact I.
  - exact G.
Qed.




(** ** Character classes and runs *)

Lemma word_not_space c : Re.is_word c = true -> Re.is_space c = false.
Proof. destruct c as [[] [] [] [] [] [] [] []]; vm_compute; congruence. Qed.

Lemma span_stop f a c Z :
  f c = false ->
  Re.span f (a ++ c :: Z) = (fst (Re.span f a), snd (Re.span f a) ++ c :: Z).
Proof.
  intros H. induction a as [|d a IH]; simpl.
  - now rewrite H.
  - destruct (f d); [|reflexivity].
    rewrite IH. now destruct (Re.span f a).
Qed.

Lemma span_all f a Z :
  forallb f a = true ->
  Re.span f (a ++ Z) = (a ++ fst (Re.span f Z), snd (Re.span f Z)).
Proof.
  induction a as [|d a IH]; intros H; simpl.
  - now destruct (Re.span f Z).
  - simpl in H. apply andb_prop in H as [H1 H2]. rewrite H1, (IH H2).
    reflexivity.
Qed.

Lemma span_spec f s :
  s = fst (Re.span f s) ++ snd (Re.span f s)
  /\ forallb f (fst (Re.span f s)) = true
  /\ match snd (Re.span f s) with [] => True | c :: _ => f c = false end.
Proof.
  induction s as [|d s (E & F & G)]; simpl; [now repeat split|].
  destruct (f d) eqn:H.
  - destruct (Re.span f s) as [a b]. simpl in *. repeat split;
      [now rewrite <- E|now rewrite H, F|exact G].
  - simpl. now repeat split.
Qed.

Lemma span_all_nil f a :
  forallb f a = true -> Re.span f a = (a, []).
Proof.
  intros H. pose proof (span_all f a [] H) as E. rewrite app_nil_r in E.
  simpl in E. now rewrite app_nil_r in E.
Qed.

(** A run ends either inside [a] or [a] is all of the class. *)
Lemma span_cases f a :
  (forallb f a = true /\ Re.span f a = (a, []))
  \/ (exists a1 c a2,
        a = a1 ++ c :: a2 /\ forallb f a1 = true /\ f c = false
        /\ Re.span f a = (a1, c :: a2)).
Proof.
  destruct (span_spec f a) as (E & F & G).
  destruct (Re.span f a) as [a1 b] eqn:S. simpl in *.
  destruct b as [|c a2].
  - left. rewrite app_nil_r in E. subst a1. now split.
  - right. exists a1, c, a2. now repeat split.
Qed.

Lemma span_inside f a1 c a2 Z :
  forallb f a1 = true -> f c = false ->
  Re.span f ((a1 ++ c :: a2) ++ Z) = (a1, c :: a2 ++ Z).
Proof.
  intros F H. rewrite <- app_assoc. cbn [app].
  rewrite (span_all f a1 _ F). simpl. rewrite H. simpl.
  now rewrite app_nil_r.
Qed.

(** ** The patterns of the JavaScript rule *)

(** Equations between concatenations that differ in their bracketing. *)
Ltac assoc :=
  cbn [txt list_ascii_of_string app];
  repeat (rewrite <- app_assoc; cbn [app]);
  try reflexivity.

Lemma strip_prefix_local K v c Z :
  existsb (Ascii.eqb c) K = false ->
  Py.strip_prefix K (v ++ c :: Z)
  = option_map (fun r => r ++ c :: Z) (Py.strip_prefix K v).
Proof.
  intros E. destruct (Py.strip_prefix K v) as [r|] eqn:S; simpl.
  - apply strip_prefix_Some in S. subst v.
    now rewrite <- app_assoc, strip_prefix_app.
  - destruct (Py.strip_prefix K (v ++ c :: Z)) as [r|] eqn:S'; [|reflexivity].
    destruct (strip_prefix_no_overlap _ _ _ _ _ S' E) as (u' & ->).
    rewrite strip_prefix_app in S. discriminate.
Qed.

Lemma spaces_equals_Some r ws rest :
  Re.spaces_equals r = Some (ws, rest) ->
  r = ws ++ "="%char :: rest /\ forallb Re.is_space ws = true.
Proof.
  unfold Re.spaces_equals. destruct (span_spec Re.is_space r) as (E & F & _).
  destruct (Re.span Re.is_space r) as [a b]. simpl in *.
  destruct b as [|e b]; [discriminate|].
  destruct (Ascii.eqb_spec e "=") as [->|]; [|discriminate].
  intros [= <- <-]. now split.
Qed.

Lemma spaces_equals_local x Z :
  Re.spaces_equals (x ++ "="%char :: Z)
  = match Re.spaces_equals (x ++ ["="%char]) with
    | Some (ws, r) => Some (ws, r ++ Z)
    | None => None
    end.
Proof.
  unfold Re.spaces_equals. rewrite !span_stop by reflexivity.
  destruct (Re.span Re.is_space x) as [ws x1]. cbn [fst snd].
  destruct x1 as [|e x1]; [reflexivity|]. cbn [app].
  destruct (Ascii.eqb e "="); [|reflexivity].
  now rewrite <- app_assoc.
Qed.

(** No equals sign before a character that is neither white space nor an
    equals sign: [\s*=] fails. *)
Lemma spaces_equals_none x y Y :
  forallb (fun c => negb (Ascii.eqb c "=")) x = true ->
  Re.is_space y = false -> Ascii.eqb y "=" = false ->
  Re.spaces_equals (x ++ y :: Y) = None.
Proof.
  intros F S E. unfold Re.spaces_equals.
  destruct (span_cases Re.is_space x) as [[A _]|(a1 & c & a2 & -> & A & C & _)].
  - rewrite (span_all _ _ _ A). cbn [Re.span]. rewrite S. cbn [fst snd].
    now rewrite E.
  - rewrite (span_inside _ _ _ _ _ A C).
    rewrite forallb_app in F. apply andb_prop in F as [_ F]. simpl in F.
    apply andb_prop in F as [F _]. apply negb_true_iff in F. now rewrite F.
Qed.

Lemma name_head n :
  is_name n -> exists c n', n = c :: n' /\ Re.is_word c = true
                          /\ forallb Re.is_word n' = true.
Proof.
  intros [N W]. destruct n as [|c n']; [congruence|].
  simpl in W. apply andb_prop in W as [W1 W2]. eauto.
Qed.

Lemma word_not_equals c : Re.is_word c = true -> Ascii.eqb c "=" = false.
Proof. destruct c as [[] [] [] [] [] [] [] []]; vm_compute; congruence. Qed.

Lemma name_lacks (f : ascii -> bool) c n :
  (forall d, Re.is_word d = true -> Ascii.eqb c d = false) ->
  forallb Re.is_word n = true -> existsb (Ascii.eqb c) n = false.
Proof.
  intros H. induction n as [|d n IH]; intros W; [reflexivity|].
  simpl in W. apply andb_prop in W as [W1 W2]. simpl.
  now rewrite (H d W1), (IH W2).
Qed.

Lemma name_lacks_equals n :
  forallb Re.is_word n = true -> existsb (Ascii.eqb "=") n = false.
Proof.
  apply (name_lacks Re.is_word). intros d W.
  rewrite Ascii.eqb_sym. now apply word_not_equals.
Qed.

Lemma name_lacks_space c n :
  Re.is_space c = true ->
  forallb Re.is_word n = true -> existsb (Ascii.eqb c) n = false.
Proof.
  intros S. apply (name_lacks Re.is_word). intros d W.
  destruct (Ascii.eqb_spec c d) as [->|]; [|reflexivity].
  apply word_not_space in W. congruence.
Qed.

(** [\s*=] after a space and a name fails. *)
Lemma spaces_equals_space_name n Z :
  is_name n -> Re.spaces_equals (" "%char :: n ++ Z) = None.
Proof.
  intros N. destruct (name_head n N) as (c & n' & -> & W & _).
  unfold Re.spaces_equals. cbn [Re.span app].
  change (Re.is_space " ") with true. cbn iota.
  rewrite (word_not_space c W). now rewrite (word_not_equals c W).
Qed.

Lemma var_declaration_inv prev s name w rest :
  Re.var_declaration prev s = Some (name, w, rest) ->
  exists ws ws',
    w = txt "var" ++ ws ++ name ++ ws' ++ txt "=" /\ s = w ++ rest
    /\ ws <> [] /\ forallb Re.is_space ws = true /\ is_name name
    /\ forallb Re.is_space ws' = true /\ Re.word_boundary prev s = true.
Proof.
  unfold Re.var_declaration.
  destruct (Re.word_boundary prev s) eqn:B; [|discriminate].
  destruct (Py.strip_prefix (txt "var") s) as [r|] eqn:S; [|discriminate].
  destruct (span_spec Re.is_space r) as (E1 & F1 & _).
  destruct (Re.span Re.is_space r) as [ws r1]. simpl in E1, F1.
  destruct (span_spec Re.is_word r1) as (E2 & F2 & _).
  destruct (Re.span Re.is_word r1) as [n r2]. simpl in E2, F2.
  destruct ws as [|w0 ws]; [discriminate|].
  destruct n as [|n0 n]; [discriminate|].
  destruct (Re.spaces_equals r2) as [[ws' rest']|] eqn:Q; [|discriminate].
  intros [= <- <- <-]. exists (w0 :: ws), ws'.
  apply spaces_equals_Some in Q as [-> F3]. apply strip_prefix_Some in S.
  subst r r1 s. repeat split; try assumption; try discriminate.
  assoc.
Qed.

Lemma var_declaration_progressive : progressive Re.var_declaration.
Proof.
  intros prev s x w rest H.
  destruct (var_declaration_inv _ _ _ _ _ H) as (ws & ws' & -> & -> & _).
  split; [reflexivity|discriminate].
Qed.

Lemma span_word_before_space kw R :
  forallb Re.is_word kw = true ->
  Re.span Re.is_word (kw ++ " "%char :: R) = (kw, " "%char :: R).
Proof.
  intros W. rewrite (span_all _ _ _ W). cbn [Re.span].
  change (Re.is_word " ") with false. cbn [fst snd]. now rewrite app_nil_r.
Qed.

Lemma span_word_before_equals ws R :
  forallb Re.is_space ws = true ->
  Re.span Re.is_word (ws ++ "="%char :: R) = ([], ws ++ "="%char :: R).
Proof.
  intros S. destruct ws as [|c ws]; [reflexivity|]. simpl in S.
  apply andb_prop in S as [S _]. cbn [app Re.span].
  destruct (Re.is_word c) eqn:W; [|reflexivity].
  apply word_not_space in W. congruence.
Qed.

Lemma span_space_before_word c R :
  Re.is_word c = true -> Re.span Re.is_space (c :: R) = ([], c :: R).
Proof. intros W. cbn [Re.span]. now rewrite (word_not_space c W). Qed.

(** The pattern of a declaration of [name] matches where the general
    pattern reports [name]. *)
Lemma declaration_of_match prev s name w rest :
  Re.var_declaration prev s = Some (name, w, rest) ->
  Re.declaration_of name prev s = Some (tt, w, rest).
Proof.
  unfold Re.var_declaration, Re.declaration_of.
  destruct (Re.word_boundary prev s); [|discriminate].
  destruct (Py.strip_prefix (txt "var") s) as [r|]; [|discriminate].
  destruct (Re.span Re.is_space r) as [ws r1].
  destruct (span_spec Re.is_word r1) as (E & _ & _).
  destruct (Re.span Re.is_word r1) as [n r2]. simpl in E.
  destruct ws as [|w0 ws]; [discriminate|].
  destruct n as [|n0 n]; [discriminate|].
  destruct (Re.spaces_equals r2) as [[ws' rest']|] eqn:Q; [|discriminate].
  intros [= <- <- <-]. rewrite E, strip_prefix_app, Q. reflexivity.
Qed.

(** Where the general pattern fails, the pattern of a declaration of a
    name fails. *)
Lemma declaration_of_general name p s :
  is_name name -> Re.var_declaration p s = None ->
  Re.declaration_of name p s = None.
Proof.
  intros N. unfold Re.var_declaration, Re.declaration_of.
  destruct (Re.word_boundary p s); [|reflexivity].
  destruct (Py.strip_prefix (txt "var") s) as [r|]; [|reflexivity].
  destruct (Re.span Re.is_space r) as [ws r1].
  destruct ws as [|w0 ws]; [reflexivity|].
  destruct (Py.strip_prefix name r1) as [r2|] eqn:S; [|reflexivity].
  apply strip_prefix_Some in S. subst r1.
  destruct (Re.spaces_equals r2) as [[ws' rest]|] eqn:Q; [|reflexivity].
  destruct (spaces_equals_Some _ _ _ Q) as [-> F].
  rewrite (span_all _ _ _ (proj2 N)), (span_word_before_equals _ _ F).
  cbn [fst snd]. rewrite app_nil_r, Q.
  destruct N as [N _]. destruct name; [congruence|discriminate].
Qed.

Lemma word_boundary_local p v c Z :
  Re.word_boundary p (v ++ c :: Z) = Re.word_boundary p (v ++ [c]).
Proof. now destruct v. Qed.

(** The general pattern decides at the first equals sign. *)
Lemma var_declaration_local p v Z :
  Re.var_declaration p (v ++ "="%char :: Z)
  = match Re.var_declaration p (v ++ ["="%char]) with
    | Some (x, w, r) => Some (x, w, r ++ Z)
    | None => None
    end.
Proof.
  unfold Re.var_declaration. rewrite word_boundary_local.
  destruct (Re.word_boundary p (v ++ ["="%char])); [|reflexivity].
  rewrite !(strip_prefix_local (txt "var") v "=") by reflexivity.
  destruct (Py.strip_prefix (txt "var") v) as [r|]; [|reflexivity].
  cbn [option_map]. rewrite !span_stop by reflexivity.
  destruct (Re.span Re.is_space r) as [ws x1]. cbn [fst snd].
  destruct (Re.span Re.is_word x1) as [n x2]. cbn [fst snd].
  rewrite spaces_equals_local.
  destruct ws, n, (Re.spaces_equals (x2 ++ ["="%char])) as [[ws' r']|];
    reflexivity.
Qed.

(** No declaration starts before a rewritten declaration and runs into
    it. *)
Lemma var_declaration_before_new p t k0 kw name Z :
  forallb Re.is_word (k0 :: kw) = true ->
  existsb (Ascii.eqb k0) (txt "var") = false ->
  is_name name ->
  forallb (fun c => negb (Ascii.eqb c "=")) t = true ->
  Re.var_declaration p (t ++ (k0 :: kw) ++ " "%char :: name ++ Z) = None.
Proof.
  intros W K N F. unfold Re.var_declaration.
  destruct (Re.word_boundary p _); [|reflexivity].
  cbn [app]. rewrite (strip_prefix_local (txt "var") t k0 _ K).
  destruct (Py.strip_prefix (txt "var") t) as [t'|] eqn:S; [|reflexivity].
  cbn [option_map]. apply strip_prefix_Some in S. subst t.
  rewrite forallb_app in F. apply andb_prop in F as [_ F].
  change (k0 :: kw ++ " "%char :: name ++ Z)
    with ((k0 :: kw) ++ " "%char :: name ++ Z).
  pose proof (span_word_before_space (k0 :: kw) (name ++ Z) W) as SW.
  assert (W0 : Re.is_word k0 = true).
  { simpl in W. now apply andb_prop in W as [W _]. }
  destruct (span_cases Re.is_space t')
    as [[A _]|(a1 & d & a2 & -> & A & D & _)].
  - rewrite (span_all _ _ _ A).
    change ((k0 :: kw) ++ " "%char :: name ++ Z)
      with (k0 :: kw ++ " "%char :: name ++ Z) at 1 2.
    rewrite (span_space_before_word k0 _ W0). cbn [fst snd].
    change (k0 :: kw ++ " "%char :: name ++ Z)
      with ((k0 :: kw) ++ " "%char :: name ++ Z).
    rewrite SW, (spaces_equals_space_name name Z N).
    now destruct (t' ++ []).
  - rewrite (span_inside _ _ _ _ _ A D).
    rewrite forallb_app in F. apply andb_prop in F as [_ F].
    destruct (span_cases Re.is_word (d :: a2))
      as [[B _]|(b1 & e & b2 & E & B & E' & _)].
    + change (d :: a2 ++ (k0 :: kw) ++ " "%char :: name ++ Z)
        with ((d :: a2) ++ (k0 :: kw) ++ " "%char :: name ++ Z).
      rewrite (span_all _ _ _ B), SW. cbn [fst snd].
      rewrite (spaces_equals_space_name name Z N).
      now destruct a1.
    + change (d :: a2 ++ (k0 :: kw) ++ " "%char :: name ++ Z)
        with ((d :: a2) ++ (k0 :: kw) ++ " "%char :: name ++ Z).
      rewrite E, (span_inside _ _ _ _ _ B E').
      rewrite E in F. rewrite forallb_app in F. apply andb_prop in F as [_ F].
      change (e :: b2 ++ (k0 :: kw) ++ " "%char :: name ++ Z)
        with ((e :: b2) ++ k0 :: (kw ++ " "%char :: name ++ Z)).
      rewrite (spaces_equals_none (e :: b2) k0 _ F (word_not_space _ W0)
                 (word_not_equals _ W0)).
      now destruct a1, b1.
Qed.

Lemma var_needs_v p c s :
  Ascii.eqb "v" c = false -> Re.var_declaration p (c :: s) = None.
Proof.
  intros H. unfold Re.var_declaration.
  destruct (Re.word_boundary p (c :: s)); [|reflexivity].
  cbn [txt list_ascii_of_string Py.strip_prefix]. now rewrite H.
Qed.

(** No declaration starts at the name of a rewritten declaration. *)
Lemma var_declaration_at_name p name Z :
  is_name name ->
  Re.var_declaration p (name ++ " "%char :: "="%char :: Z) = None.
Proof.
  intros [_ W]. unfold Re.var_declaration.
  destruct (Re.word_boundary p _); [|reflexivity].
  rewrite (strip_prefix_local (txt "var") name " ") by reflexivity.
  destruct (Py.strip_prefix (txt "var") name) as [n|] eqn:S; [|reflexivity].
  cbn [option_map]. apply strip_prefix_Some in S. subst name.
  rewrite forallb_app in W. apply andb_prop in W as [_ W].
  destruct n as [|d n].
  - reflexivity.
  - simpl in W. apply andb_prop in W as [W _].
    cbn [app]. rewrite (span_space_before_word d _ W).
    now destruct (Re.span Re.is_word _).
Qed.

Lemma quiet_word_run c u Y :
  Re.is_word c = true -> forallb Re.is_word u = true ->
  quiet Re.var_declaration (Some c) u Y.
Proof.
  revert c; induction u as [|d u IH]; intros c C W; [exact I|].
  simpl in W. apply andb_prop in W as [D W]. split; [|now apply IH].
  unfold Re.var_declaration, Re.word_boundary. cbn [app].
  now rewrite C, D.
Qed.

(** A rewritten declaration holds no declaration. *)
Lemma declaration_quiet p kw name rest :
  forallb (fun c => negb (Ascii.eqb "v" c)) kw = true ->
  is_name name ->
  quiet Re.var_declaration p (kw ++ txt " " ++ name ++ txt " =") rest.
Proof.
  intros K N. apply quiet_app.
  - apply (quiet_no_start _ (Ascii.eqb "v")); [apply var_needs_v|exact K].
  - destruct (name_head name N) as (c & n & E & C & W).
    pose proof (var_declaration_at_name (Some " "%char) name rest N) as H.
    subst name. cbn [txt list_ascii_of_string app] in H |- *.
    split; [now apply var_needs_v|]. split.
    + rewrite <- app_assoc. exact H.
    + apply quiet_app; [now apply quiet_word_run|].
      split; [now apply var_needs_v|]. split; [now apply var_needs_v|exact I].
Qed.

(** A quiet prefix stays quiet when the text after it is exchanged for
    one that starts with a rewritten declaration. *)
Lemma quiet_new_declaration p0 P X k0 kw name Z :
  forallb Re.is_word (k0 :: kw) = true ->
  existsb (Ascii.eqb k0) (txt "var") = false ->
  is_name name ->
  quiet Re.var_declaration p0 P X ->
  quiet Re.var_declaration p0 P ((k0 :: kw) ++ " "%char :: name ++ Z).
Proof.
  intros W K N. revert p0; induction P as [|d P IH]; intros p0 Q; [exact I|].
  destruct Q as [H Q]. split; [|now apply IH].
  destruct (Re.span_until "=" (d :: P)) as [[v v']|] eqn:U.
  - apply span_until_Some in U.
    change (d :: P ++ X) with ((d :: P) ++ X) in H.
    change (d :: P ++ (k0 :: kw) ++ " "%char :: name ++ Z)
      with ((d :: P) ++ (k0 :: kw) ++ " "%char :: name ++ Z).
    rewrite U in H |- *. rewrite <- app_assoc in H |- *. cbn [app] in H |- *.
    rewrite var_declaration_local in H |- *.
    now destruct (Re.var_declaration p0 (v ++ ["="%char])) as [[[x w] r]|].
  - apply span_until_None in U.
    now apply (var_declaration_before_new p0 (d :: P)).
Qed.

Lemma search_from_quiet {A} (m : Re.matcher A) p0 P s r :
  quiet m p0 P s -> m (Re.last_char p0 P) s = Some r ->
  Re.search_from m p0 (P ++ s) = Some (P, r).
Proof.
  revert p0; induction P as [|c P IH]; intros p0 Q H.
  - cbn [app]. change (Re.last_char p0 []) with p0 in H.
    destruct s; simpl; now rewrite H.
  - destruct Q as [N Q]. cbn [app Re.search_from]. rewrite N.
    rewrite (IH (Some c) Q); [reflexivity|].
    now rewrite <- (last_char_cons p0).
Qed.

Lemma quiet_weaken {A B} (m : Re.matcher A) (m' : Re.matcher B) p P Y :
  (forall p s, m p s = None -> m' p s = None) ->
  quiet m p P Y -> quiet m' p P Y.
Proof.
  intros H. revert p; induction P as [|c P IH]; intros p Q; [exact I|].
  destruct Q as [N Q]. split; [now apply H|now apply IH].
Qed.

(** ** Scans *)

Section ScanCount.

Context {A : Type}.
Variable m : Re.matcher A.
Hypothesis m_progressive : progressive m.

Lemma progressive_shorter prev s x w rest :
  m prev s = Some (x, w, rest) -> length rest < length s.
Proof.
  intros H. destruct (m_progressive _ _ _ _ _ H) as [-> W].
  rewrite length_app. destruct w; [congruence|simpl; lia].
Qed.

Lemma findall_fuel_enough f1 :
  forall f2 p s, length s < f1 -> length s < f2 ->
    Re.findall_fuel m f1 p s = Re.findall_fuel m f2 p s.
Proof.
  induction f1 as [|f1 IH]; intros f2 p s H1 H2; [lia|].
  destruct f2 as [|f2]; [lia|]. cbn [Re.findall_fuel].
  destruct (m p s) as [[[x w] rest]|] eqn:M.
  - pose proof (progressive_shorter _ _ _ _ _ M). f_equal. apply IH; lia.
  - destruct s as [|c s]; [reflexivity|]. simpl in *. apply IH; lia.
Qed.

Lemma findall_fuel_S f p s :
  Re.findall_fuel m (S f) p s
  = match m p s with
    | Some (x, w, rest) => x :: Re.findall_fuel m f (Re.last_char p w) rest
    | None =>
        match s with
        | [] => []
        | c :: s' => Re.findall_fuel m f (Some c) s'
        end
    end.
Proof. reflexivity. Qed.

Lemma scan_unfold p s :
  scan m p s
  = match m p s with
    | Some (x, w, rest) => x :: scan m (Re.last_char p w) rest
    | None =>
        match s with
        | [] => []
        | c :: s' => scan m (Some c) s'
        end
    end.
Proof.
  unfold scan. rewrite findall_fuel_S.
  destruct (m p s) as [[[x w] rest]|] eqn:M.
  - pose proof (progressive_shorter _ _ _ _ _ M). f_equal.
    apply findall_fuel_enough; lia.
  - destruct s as [|c s]; [reflexivity|]. apply findall_fuel_enough; simpl; lia.
Qed.

(** A scan passes over a quiet piece. *)
Lemma scan_quiet p u Y :
  quiet m p u Y -> scan m p (u ++ Y) = scan m (Re.last_char p u) Y.
Proof.
  revert p; induction u as [|c u IH]; intros p Q; [reflexivity|].
  destruct Q as [N Q]. cbn [app]. rewrite scan_unfold, N, (IH _ Q).
  now rewrite <- (last_char_cons p).
Qed.

End ScanCount.

(** ** Assignments to a name *)

Section AssignmentFacts.

Variable var_name : text.
Hypothesis var_name_is_name : is_name var_name.

Lemma assignment_inv p s x w rest :
  Re.assignment_to var_name p s = Some (x, w, rest) ->
  exists ws, w = var_name ++ ws ++ txt "=" /\ s = w ++ rest
             /\ forallb Re.is_space ws = true.
Proof.
  unfold Re.assignment_to.
  destruct (Re.word_boundary p s); [|discriminate].
  destruct (Py.strip_prefix var_name s) as [r|] eqn:S; [|discriminate].
  destruct (Re.spaces_equals r) as [[ws rest']|] eqn:Q; [|discriminate].
  intros [= <- <- <-]. exists ws.
  apply strip_prefix_Some in S. apply spaces_equals_Some in Q as [-> F].
  subst s. repeat split; [|exact F]. assoc.
Qed.

Lemma assignment_progressive : progressive (Re.assignment_to var_name).
Proof.
  intros p s x w rest H. destruct (assignment_inv _ _ _ _ _ H) as (ws & -> & -> & _).
  split; [reflexivity|]. intros E. apply (f_equal (@length ascii)) in E.
  rewrite !length_app in E. simpl in E. lia.
Qed.

(** The assignment pattern decides at the first equals sign. *)
Lemma assignment_local p v Z :
  Re.assignment_to var_name p (v ++ "="%char :: Z)
  = match Re.assignment_to var_name p (v ++ ["="%char]) with
    | Some (x, w, r) => Some (x, w, r ++ Z)
    | None => None
    end.
Proof.
  unfold Re.assignment_to. rewrite word_boundary_local.
  destruct (Re.word_boundary p (v ++ ["="%char])); [|reflexivity].
  rewrite !(strip_prefix_local var_name v "=")
    by (apply name_lacks_equals, var_name_is_name).
  destruct (Py.strip_prefix var_name v) as [r|]; [|reflexivity].
  cbn [option_map]. rewrite spaces_equals_local.
  now destruct (Re.spaces_equals (r ++ ["="%char])) as [[ws r']|].
Qed.

Lemma space_not_equals ws :
  forallb Re.is_space ws = true ->
  forallb (fun c => negb (Ascii.eqb c "=")) ws = true.
Proof.
  induction ws as [|c ws IH]; intros H; [reflexivity|].
  simpl in H. apply andb_prop in H as [H1 H2]. simpl. rewrite (IH H2).
  destruct (Ascii.eqb_spec c "=") as [->|]; [discriminate|reflexivity].
Qed.

(** No assignment starts in a text without an equals sign that runs into
    white space and another name. *)
Lemma assignment_before_name p t w0 ws name Z :
  forallb (fun c => negb (Ascii.eqb c "=")) t = true ->
  forallb Re.is_space (w0 :: ws) = true -> is_name name ->
  Re.assignment_to var_name p (t ++ (w0 :: ws) ++ name ++ Z) = None.
Proof.
  intros F S N. unfold Re.assignment_to.
  destruct (Re.word_boundary p _); [|reflexivity].
  cbn [app]. rewrite (strip_prefix_local var_name t w0).
  2:{ apply name_lacks_space; [|apply var_name_is_name].
      simpl in S. now apply andb_prop in S as [S _]. }
  destruct (Py.strip_prefix var_name t) as [t'|] eqn:E; [|reflexivity].
  cbn [option_map]. apply strip_prefix_Some in E. subst t.
  rewrite forallb_app in F. apply andb_prop in F as [_ F].
  destruct (name_head name N) as (c & n & -> & C & _).
  change (t' ++ w0 :: ws ++ (c :: n) ++ Z)
    with (t' ++ (w0 :: ws) ++ c :: n ++ Z).
  rewrite app_assoc.
  rewrite (spaces_equals_none (t' ++ w0 :: ws) c (n ++ Z));
    [reflexivity| |now apply word_not_space|now apply word_not_equals].
  rewrite forallb_app, F. now apply space_not_equals.
Qed.

End AssignmentFacts.

Lemma last_char_snoc p u c : Re.last_char p (u ++ [c]) = Some c.
Proof. unfold Re.last_char. now rewrite rev_app_distr. Qed.

Lemma last_char_forall (f : ascii -> bool) p c u :
  forallb f (c :: u) = true ->
  exists d, Re.last_char p (c :: u) = Some d /\ f d = true.
Proof.
  intros F. destruct (@exists_last _ (c :: u)) as (u' & d & E); [discriminate|].
  rewrite E in F |- *. rewrite last_char_snoc. exists d. split; [reflexivity|].
  rewrite forallb_app in F. apply andb_prop in F as [_ F]. simpl in F.
  now apply andb_prop in F as [F _].
Qed.

Section AssignmentCount.

Variable var_name : text.
Hypothesis var_name_is_name : is_name var_name.

Lemma quiet_before_name t :
  forall p w0 ws name Z,
    forallb (fun c => negb (Ascii.eqb c "=")) t = true ->
    forallb Re.is_space (w0 :: ws) = true -> is_name name ->
    quiet (Re.assignment_to var_name) p t ((w0 :: ws) ++ name ++ Z).
Proof.
  induction t as [|c t IH]; intros p w0 ws name Z F S N; [exact I|].
  split.
  - now apply (assignment_before_name var_name var_name_is_name p (c :: t)).
  - simpl in F. apply andb_prop in F as [_ F]. now apply IH.
Qed.

Lemma quiet_spaces ws :
  forall p name Z,
    forallb Re.is_space ws = true -> is_name name ->
    quiet (Re.assignment_to var_name) p ws (name ++ Z).
Proof.
  induction ws as [|c ws IH]; intros p name Z S N; [exact I|].
  split.
  - now apply (assignment_before_name var_name var_name_is_name p [] c ws).
  - simpl in S. apply andb_prop in S as [_ S]. now apply IH.
Qed.

Lemma assignment_needs_word p c s :
  Re.is_word c = false -> Re.assignment_to var_name p (c :: s) = None.
Proof.
  intros H. unfold Re.assignment_to.
  destruct (Re.word_boundary p (c :: s)); [|reflexivity].
  destruct (name_head _ var_name_is_name) as (n0 & n & -> & W & _).
  cbn [Py.strip_prefix].
  destruct (Ascii.eqb_spec n0 c) as [->|]; [congruence|reflexivity].
Qed.

Lemma assignment_word_run c u Y :
  Re.is_word c = true -> forallb Re.is_word u = true ->
  quiet (Re.assignment_to var_name) (Some c) u Y.
Proof.
  revert c; induction u as [|d u IH]; intros c C W; [exact I|].
  simpl in W. apply andb_prop in W as [D W]. split; [|now apply IH].
  unfold Re.assignment_to, Re.word_boundary. cbn [app]. now rewrite C, D.
Qed.

Lemma spaces_equals_exact ws rest :
  forallb Re.is_space ws = true ->
  Re.spaces_equals (ws ++ "="%char :: rest) = Some (ws, rest).
Proof.
  intros S. unfold Re.spaces_equals.
  rewrite (span_all _ _ _ S). cbn [Re.span].
  change (Re.is_space "=") with false. cbn [fst snd].
  now rewrite app_nil_r.
Qed.

Lemma assignment_at_name d ws rest :
  Re.is_word d = false -> forallb Re.is_space ws = true ->
  Re.assignment_to var_name (Some d) (var_name ++ ws ++ "="%char :: rest)
  = Some (tt, var_name ++ ws ++ txt "=", rest).
Proof.
  intros D S. unfold Re.assignment_to.
  destruct (name_head _ var_name_is_name) as (n0 & n & E & W & _).
  assert (B : Re.word_boundary (Some d) (var_name ++ ws ++ "="%char :: rest)
              = true).
  { rewrite E. unfold Re.word_boundary. cbn [app]. now rewrite D, W. }
  rewrite B, strip_prefix_app, (spaces_equals_exact _ _ S). reflexivity.
Qed.

Lemma assignment_at_other_name p name ws rest :
  is_name name -> name <> var_name -> forallb Re.is_space ws = true ->
  Re.assignment_to var_name p (name ++ ws ++ "="%char :: rest) = None.
Proof.
  intros N D S. unfold Re.assignment_to.
  destruct (Re.word_boundary p _); [|reflexivity].
  assert (X : exists c X', ws ++ "="%char :: rest = c :: X'
                           /\ existsb (Ascii.eqb c) var_name = false).
  { destruct ws as [|c ws].
    - exists "="%char, rest. split; [reflexivity|].
      apply name_lacks_equals, var_name_is_name.
    - exists c, (ws ++ "="%char :: rest). split; [reflexivity|].
      simpl in S. apply andb_prop in S as [S _].
      apply name_lacks_space; [exact S|apply var_name_is_name]. }
  destruct X as (c & X' & E & L). rewrite E.
  rewrite (strip_prefix_local var_name name c X' L).
  destruct (Py.strip_prefix var_name name) as [r|] eqn:P; [|reflexivity].
  cbn [option_map]. apply strip_prefix_Some in P.
  destruct r as [|e r]; [rewrite app_nil_r in P; congruence|].
  destruct N as [_ W]. rewrite P, forallb_app in W.
  apply andb_prop in W as [_ W]. simpl in W. apply andb_prop in W as [W _].
  unfold Re.spaces_equals. cbn [app].
  rewrite (span_space_before_word e _ W). now rewrite (word_not_equals e W).
Qed.

(** The assignments found in a declaration and after it: one when the
    declared name is the name counted, and those of the text after. *)
Lemma count_at_declaration p t0 w0 ws name ws' rest :
  forallb (fun c => negb (Ascii.eqb c "=")) t0 = true ->
  forallb Re.is_space (w0 :: ws) = true -> is_name name ->
  forallb Re.is_space ws' = true ->
  length (scan (Re.assignment_to var_name) p
            (t0 ++ (w0 :: ws) ++ name ++ ws' ++ "="%char :: rest))
  = (if decide (name = var_name) then 1 else 0)
    + length (scan (Re.assignment_to var_name) (Some "="%char) rest).
Proof.
  intros F S N S'.
  pose proof (assignment_progressive var_name) as Pr.
  rewrite (scan_quiet _ Pr _ _ _ (quiet_before_name t0 p w0 ws name _ F S N)).
  rewrite (scan_quiet _ Pr _ _ _ (quiet_spaces (w0 :: ws) _ name _ S N)).
  destruct (last_char_forall Re.is_space (Re.last_char p t0) w0 ws S)
    as (d & -> & D).
  assert (Dw : Re.is_word d = false).
  { destruct (Re.is_word d) eqn:W; [|reflexivity].
    apply word_not_space in W. congruence. }
  rewrite scan_unfold by exact Pr. destruct (decide (name = var_name)) as [->|Ne].
  - rewrite (assignment_at_name d ws' rest Dw S'). cbn [length Nat.add].
    rewrite app_assoc. change (txt "=") with ["="%char].
    now rewrite last_char_snoc.
  - rewrite (assignment_at_other_name (Some d) name ws' rest N Ne S').
    destruct (name_head name N) as (c & n & -> & C & W). cbn [app Nat.add].
    rewrite (scan_quiet _ Pr _ _ _ (assignment_word_run c n _ C W)).
    change (ws' ++ "="%char :: rest) with (ws' ++ ["="%char] ++ rest).
    rewrite app_assoc.
    rewrite (scan_quiet _ Pr (Re.last_char (Some c) n) (ws' ++ ["="%char]) rest).
    + now rewrite last_char_snoc.
    + apply (quiet_no_start _ Re.is_word); [apply assignment_needs_word|].
      rewrite forallb_app. apply andb_true_intro. split; [|reflexivity].
      clear -S'. induction ws' as [|e ws' IH]; [reflexivity|].
      simpl in S'. apply andb_prop in S' as [E S']. simpl. rewrite (IH S').
      destruct (Re.is_word e) eqn:W; [|reflexivity].
      apply word_not_space in W. congruence.
Qed.

End AssignmentCount.

Section AssignmentContext.

Variable var_name : text.
Hypothesis var_name_is_name : is_name var_name.

(** Exchanging a declaration of a name for another declaration of the
    same name, anywhere in a text, keeps the number of assignments to
    [var_name]. *)
Lemma count_in_context t1 w1 ws1 ws1' t2 w2 ws2 ws2' name rest :
  forallb (fun c => negb (Ascii.eqb c "=")) t1 = true ->
  forallb (fun c => negb (Ascii.eqb c "=")) t2 = true ->
  forallb Re.is_space (w1 :: ws1) = true ->
  forallb Re.is_space (w2 :: ws2) = true ->
  forallb Re.is_space ws1' = true -> forallb Re.is_space ws2' = true ->
  is_name name ->
  forall t p,
    length (scan (Re.assignment_to var_name) p
              (t ++ t1 ++ (w1 :: ws1) ++ name ++ ws1' ++ "="%char :: rest))
    = length (scan (Re.assignment_to var_name) p
                (t ++ t2 ++ (w2 :: ws2) ++ name ++ ws2' ++ "="%char :: rest)).
Proof.
  intros F1 F2 S1 S2 S1' S2' N t.
  pose proof (assignment_progressive var_name) as Pr.
  remember (length t) as n eqn:L. revert t L.
  induction n as [n IH] using lt_wf_ind. intros t -> p.
  destruct t as [|c t].
  - etransitivity;
      [apply (count_at_declaration var_name var_name_is_name p t1 w1 ws1)
      |symmetry;
       apply (count_at_declaration var_name var_name_is_name p t2 w2 ws2)];
      assumption.
  - assert (Skip : forall q,
              length (scan (Re.assignment_to var_name) q
                        (t ++ t1 ++ (w1 :: ws1) ++ name ++ ws1' ++ "="%char :: rest))
              = length (scan (Re.assignment_to var_name) q
                          (t ++ t2 ++ (w2 :: ws2) ++ name ++ ws2' ++ "="%char :: rest))).
    { intros q. apply (IH (length t)); [simpl; lia|reflexivity]. }
    rewrite (scan_unfold _ Pr p ((c :: t) ++ t1 ++ _)).
    rewrite (scan_unfold _ Pr p ((c :: t) ++ t2 ++ _)).
    destruct (Re.span_until "=" (c :: t)) as [[v v']|] eqn:U.
    + apply span_until_Some in U.
      assert (E : forall T,
                Re.assignment_to var_name p ((c :: t) ++ T)
                = match Re.assignment_to var_name p (v ++ ["="%char]) with
                  | Some (x, w, r) => Some (x, w, r ++ v' ++ T)
                  | None => None
                  end).
      { intros T. rewrite U, <- app_assoc. cbn [app].
        now apply assignment_local. }
      rewrite !E.
      destruct (Re.assignment_to var_name p (v ++ ["="%char]))
        as [[[x w0] r]|] eqn:M.
      * cbn [length]. f_equal. rewrite !(app_assoc r v').
        apply (IH (length (r ++ v'))); [|reflexivity].
        destruct (Pr _ _ _ _ _ M) as [E' W]. rewrite U.
        apply (f_equal (@length ascii)) in E'.
        rewrite !length_app in *. simpl in *.
        destruct w0; [congruence|simpl in *; lia].
      * cbn [app]. apply Skip.
    + apply span_until_None in U.
      assert (E : forall t0 w0 ws ws',
                forallb (fun c => negb (Ascii.eqb c "=")) t0 = true ->
                forallb Re.is_space (w0 :: ws) = true ->
                Re.assignment_to var_name p
                  ((c :: t) ++ t0 ++ (w0 :: ws) ++ name ++ ws' ++ "="%char :: rest)
                = None).
      { intros t0 w0 ws ws' F0 S0. rewrite app_assoc.
        apply assignment_before_name; try assumption.
        rewrite forallb_app. now rewrite U. }
      rewrite !E by assumption. cbn [app]. apply Skip.
Qed.

End AssignmentContext.

(** ** The declaration rule *)

Lemma keyword_cases content name :
  keyword_for content name = txt "const" \/ keyword_for content name = txt "let".
Proof. unfold keyword_for. destruct (_ =? 1); auto. Qed.

(** The loop of the JavaScript rule computes the one pass that gives each
    declaration the keyword its name has in the file. *)
Lemma js_loop content :
  fold_left js_step (Re.findall Re.var_declaration content) content
  = rewrite_matches Re.var_declaration
      (fun _ name => declaration_for content name) content.
Proof.
  rewrite <- (fold_left_indexed js_step _ 0 content).
  unfold Re.findall, rewrite_matches.
  apply (loop_is_one_pass Re.var_declaration
           (fun _ name => declaration_for content name)
           (fun _ name c => js_step c name) (fun _ => True)
           (fun prev P s =>
              prev = Re.last_char None P
              /\ quiet Re.var_declaration None P s
              /\ forall n, is_name n ->
                   length (scan (Re.assignment_to n) None (P ++ s))
                   = assignments_to content n)
           var_declaration_progressive)
    with (P := []).
  - intros prev P c s (E & Q & C) N. split; [|split].
    + symmetry. apply last_char_snoc.
    + apply quiet_snoc; [exact Q|now rewrite <- E].
    + intros n Hn. rewrite <- app_assoc. exact (C n Hn).
  - intros prev P s name w rest i (E & Q & C) M _.
    destruct (var_declaration_inv _ _ _ _ _ M)
      as (ws & ws' & Ew & Es & Wn & Sw & Nn & Sw' & B).
    destruct ws as [|w0 ws]; [congruence|].
    assert (Sf : Re.search_from (Re.declaration_of name) None (P ++ s)
                 = Some (P, (tt, w, rest))).
    { apply search_from_quiet.
      - apply (quiet_weaken Re.var_declaration); [|exact Q].
        intros p0 s0. now apply declaration_of_general.
      - rewrite <- E. now apply declaration_of_match. }
    assert (Cn : forall n, is_name n ->
              length (scan (Re.assignment_to n) None
                        (P ++ declaration_for content name ++ rest))
              = assignments_to content n).
    { intros n Hn. rewrite <- (C n Hn), Es, Ew.
      assert (Fk : forallb (fun c => negb (Ascii.eqb c "="))
                     (keyword_for content name) = true)
        by (destruct (keyword_cases content name) as [-> | ->]; reflexivity).
      pose proof (count_in_context n Hn (keyword_for content name) " " []
                    [" "%char] (txt "var") w0 ws ws' name rest
                    Fk eq_refl eq_refl Sw eq_refl Sw' Nn P None) as H.
      assert (E1 : declaration_for content name ++ rest
                   = keyword_for content name ++ [" "%char] ++ name
                       ++ [" "%char] ++ "="%char :: rest)
        by (unfold declaration_for; assoc).
      assert (E2 : (txt "var" ++ (w0 :: ws) ++ name ++ ws' ++ txt "=") ++ rest
                   = txt "var" ++ (w0 :: ws) ++ name ++ ws' ++ "="%char :: rest)
        by assoc.
      rewrite E1, E2. exact H. }
    split; [|split; [|split]].
    + unfold js_step. unfold scan in C. unfold Re.findall.
      rewrite (C name Nn). unfold Re.sub_first. rewrite Sf.
      unfold declaration_for, keyword_for.
      destruct (assignments_to content name =? 1); f_equal; assoc.
    + rewrite Ew. unfold declaration_for.
      change (txt " =") with ([" "%char] ++ ["="%char]).
      change (txt "=") with ["="%char].
      rewrite !app_assoc. now rewrite !last_char_snoc.
    + apply quiet_app; [|apply declaration_quiet].
      * unfold declaration_for.
        destruct (keyword_cases content name) as [-> | ->].
        -- rewrite <- !app_assoc.
           apply (quiet_new_declaration None P s "c" (txt "onst") name
                    (txt " =" ++ rest)); auto.
        -- rewrite <- !app_assoc.
           apply (quiet_new_declaration None P s "l" (txt "et") name
                    (txt " =" ++ rest)); auto.
      * destruct (keyword_cases content name) as [-> | ->]; reflexivity.
      * exact Nn.
    + intros n Hn. rewrite <- app_assoc. now apply Cn.
  - lia.
  - split; [reflexivity|]. split; [exact I|]. intros n Hn. reflexivity.
  - apply Forall_forall. intros; exact I.
Qed.



(** ** What a pass leaves behind *)

Section ScanEnd.

Context {A : Type}.
Variable m : Re.matcher A.
Variable repl : nat -> A -> text.
Variable good : A -> Prop.
Variable inv : option ascii -> text -> text -> Prop.

Hypothesis m_progressive : progressive m.

Hypothesis inv_skip : forall prev P c s,
  inv prev P (c :: s) -> m prev (c :: s) = None -> inv (Some c) (P ++ [c]) s.

Hypothesis inv_keep : forall prev P s x w rest i,
  inv prev P s -> m prev s = Some (x, w, rest) -> good x ->
  inv (Re.last_char prev w) (P ++ repl i x) rest.

(** An invariant of the scan that every replacement keeps holds of the
    whole output of the pass. *)
Lemma one_pass_keeps_inv fuel :
  forall s P i prev,
    length s < fuel -> inv prev P s ->
    Forall good (Re.findall_fuel m fuel prev s) ->
    exists prev', inv prev' (P ++ rewrite_fuel m repl fuel i prev s) [].
Proof.
  induction fuel as [|f IH]; intros s P i prev Hl Hi Hg; [lia|].
  cbn [Re.findall_fuel rewrite_fuel] in *.
  destruct (m prev s) as [[[x w] rest]|] eqn:M.
  - apply Forall_cons_iff in Hg as [Gx Hg].
    destruct (m_progressive _ _ _ _ _ M) as [E W].
    rewrite (app_assoc P (repl i x)).
    apply IH; [|exact (inv_keep prev P s x w rest i Hi M Gx)|exact Hg].
    subst s. rewrite length_app in Hl. destruct w; [congruence|simpl in Hl; lia].
  - destruct s as [|c s]; [exists prev; now rewrite app_nil_r|].
    change (P ++ c :: ?z) with (P ++ [c] ++ z). rewrite (app_assoc P [c]).
    apply IH; [simpl in Hl; lia|now apply (inv_skip prev)|exact Hg].
Qed.

(** A text that is quiet to its end holds no match. *)
Lemma quiet_finds_nothing u :
  quiet m None u [] -> Re.findall m u = [].
Proof.
  intros Q. change (Re.findall m u) with (scan m None u).
  pose proof (scan_quiet m m_progressive None u [] Q) as H.
  rewrite app_nil_r in H. rewrite H.
  rewrite (scan_unfold m m_progressive).
  destruct (m (Re.last_char None u) []) as [[[x w] rest]|] eqn:M; [|reflexivity].
  destruct (m_progressive _ _ _ _ _ M) as [E W].
  symmetry in E. apply app_eq_nil in E as [E _]. congruence.
Qed.

End ScanEnd.

(** *** The inline-style rule *)

Lemma inline_styles_rule_text file_path content :
  fst (inline_styles_rule file_path content)
  = rewrite_matches (Re.quoted_attr "style") (fun i _ => class_attr i) content.
Proof.
  pose proof (inline_loop content) as L. unfold inline_styles_rule.
  destruct (Re.findall (Re.quoted_attr "style") content) as [|x l] eqn:F.
  - exact L.
  - rewrite inline_fold. exact L.
Qed.

Lemma inline_pass_quiet content :
  quiet (Re.quoted_attr "style") None
    (rewrite_matches (Re.quoted_attr "style") (fun i _ => class_attr i) content)
    [].
Proof.
  unfold rewrite_matches.
  destruct (one_pass_keeps_inv (Re.quoted_attr "style")
              (fun i _ => class_attr i) (fun _ => True)
              (fun _ P s => quiet (Re.quoted_attr "style") None P s)
              (quoted_attr_progressive "style"))
    with (fuel := S (length content)) (s := content) (P := @nil ascii) (i := 0)
         (prev := @None ascii) as [prev' H].
  - intros prev P c s Q N. apply quiet_snoc; [exact Q|].
    now rewrite (quoted_attr_context_free "style" _ prev).
  - intros prev P s x w rest i Q M _.
    destruct (quoted_attr_inv _ _ _ _ _ _ M) as [-> ->].
    apply quiet_app; [|apply class_attr_quiet].
    rewrite class_attr_split. cbn [txt list_ascii_of_string app].
    assert (E : (Re.attr_open "style" ++ x ++ [dq]) ++ rest
                = (Re.attr_open "style" ++ x) ++ dq :: rest)
      by now rewrite <- !app_assoc.
    rewrite E in Q.
    apply (quiet_new_tail "style" None P "c"%char _
             (Re.attr_open "style" ++ x) rest); [reflexivity|exact Q].
  - lia.
  - exact I.
  - apply Forall_forall. intros; exact I.
  - exact H.
Qed.

(** X1. The inline-style rule is self-terminating: the style-attribute
    pattern finds nothing in its output (the class attributes it wrote are
    not taken for styles), so a second application returns the text as it
    is and logs nothing. *)
Theorem inline_styles_rule_leaves_no_style_attribute
    (file_path : string) (content : text) :
  let content' := fst (inline_styles_rule file_path content) in
  Re.findall (Re.quoted_attr "style") content' = []
  /\ forall file_path', inline_styles_rule file_path' content' = (content', []).
Proof.
  cbv zeta.
  assert (F : Re.findall (Re.quoted_attr "style")
                (fst (inline_styles_rule file_path content)) = []).
  { rewrite inline_styles_rule_text.
    apply quiet_finds_nothing;
      [apply quoted_attr_progressive|apply inline_pass_quiet]. }
  split; [exact F|]. intros file_path'.
  unfold inline_styles_rule at 1. now rewrite F.
Qed.

(** *** The declaration rule *)

Lemma js_pass_invariant content :
  let content' := rewrite_matches Re.var_declaration
                    (fun _ name => declaration_for content name) content in
  quiet Re.var_declaration None content' []
  /\ forall n, is_name n -> assignments_to content' n = assignments_to content n.
Proof.
  cbv zeta. unfold rewrite_matches.
  destruct (one_pass_keeps_inv Re.var_declaration
              (fun _ name => declaration_for content name) (fun _ => True)
              (fun prev P s =>
                 prev = Re.last_char None P
                 /\ quiet Re.var_declaration None P s
                 /\ forall n, is_name n ->
                      length (scan (Re.assignment_to n) None (P ++ s))
                      = assignments_to content n)
              var_declaration_progressive)
    with (fuel := S (length content)) (s := content) (P := @nil ascii) (i := 0)
         (prev := @None ascii) as [prev' (_ & Q & C)].
  - intros prev P c s (E & Q & C) N. split; [|split].
    + symmetry. apply last_char_snoc.
    + apply quiet_snoc; [exact Q|now rewrite <- E].
    + intros n Hn. rewrite <- app_assoc. exact (C n Hn).
  - intros prev P s name w rest i (E & Q & C) M _.
    destruct (var_declaration_inv _ _ _ _ _ M)
      as (ws & ws' & Ew & Es & Wn & Sw & Nn & Sw' & B).
    destruct ws as [|w0 ws]; [congruence|].
    split; [|split].
    + rewrite Ew. unfold declaration_for.
      change (txt " =") with ([" "%char] ++ ["="%char]).
      change (txt "=") with ["="%char].
      rewrite !app_assoc. now rewrite !last_char_snoc.
    + apply quiet_app; [|apply declaration_quiet].
      * unfold declaration_for.
        destruct (keyword_cases content name) as [-> | ->].
        -- rewrite <- !app_assoc.
           apply (quiet_new_declaration None P s "c" (txt "onst") name
                    (txt " =" ++ rest)); auto.
        -- rewrite <- !app_assoc.
           apply (quiet_new_declaration None P s "l" (txt "et") name
                    (txt " =" ++ rest)); auto.
      * destruct (keyword_cases content name) as [-> | ->]; reflexivity.
      * exact Nn.
    + intros n Hn. rewrite <- app_assoc. rewrite <- (C n Hn), Es, Ew.
      assert (Fk : forallb (fun c => negb (Ascii.eqb c "="))
                     (keyword_for content name) = true)
        by (destruct (keyword_cases content name) as [-> | ->]; reflexivity).
      pose proof (count_in_context n Hn (keyword_for content name) " " []
                    [" "%char] (txt "var") w0 ws ws' name rest
                    Fk eq_refl eq_refl Sw eq_refl Sw' Nn P None) as H.
      assert (E1 : declaration_for content name ++ rest
                   = keyword_for content name ++ [" "%char] ++ name
                       ++ [" "%char] ++ "="%char :: rest)
        by (unfold declaration_for; assoc).
      assert (E2 : (txt "var" ++ (w0 :: ws) ++ name ++ ws' ++ txt "=") ++ rest
                   = txt "var" ++ (w0 :: ws) ++ name ++ ws' ++ "="%char :: rest)
        by assoc.
      rewrite E1, E2. exact H.
  - lia.
  - split; [reflexivity|]. split; [exact I|]. intros n Hn. reflexivity.
  - apply Forall_forall. intros; exact I.
  - cbn [app] in Q, C. split; [exact Q|].
    intros n Hn. rewrite <- (C n Hn). rewrite app_nil_r. reflexivity.
Qed.

Lemma js_transform_text file_path content :
  fst (js_transform file_path content)
  = rewrite_matches Re.var_declaration
      (fun _ name => declaration_for content name) content.
Proof. apply js_loop. Qed.

(** X7. On a text of ASCII characters the JavaScript rule leaves no
    declaration with the legacy keyword: the declaration pattern finds
    nothing in its output, and a second application changes nothing and
    logs nothing. *)
Theorem js_transform_leaves_no_var_declaration
    (file_path : string) (content : text) :
  ascii_text content ->
  let content' := fst (js_transform file_path content) in
  Re.findall Re.var_declaration content' = []
  /\ forall file_path', js_transform file_path' content' = (content', []).
Proof.
  intros _. cbv zeta.
  assert (F : Re.findall Re.var_declaration
                (fst (js_transform file_path content)) = []).
  { rewrite js_transform_text.
    apply quiet_finds_nothing; [apply var_declaration_progressive|].
    apply js_pass_invariant. }
  split; [exact F|]. intros file_path'.
  unfold js_transform at 1. now rewrite F.
Qed.

Lemma js_transform_leaves_no_var_declaration_witness :
  Re.findall Re.var_declaration (txt "var a = 1; var b = 2; b = a;")
  = [txt "a"; txt "b"]
  /\ Re.findall Re.var_declaration
       (fst (js_transform "app.js" (txt "var a = 1; var b = 2; b = a;")))
     = [].
Proof.
  split; [reflexivity|].
  refine (proj1 (js_transform_leaves_no_var_declaration "app.js"
                   (txt "var a = 1; var b = 2; b = a;") _)).
  reflexivity.
Defined.

(** X8. On a text of ASCII characters the JavaScript rule keeps, for
    every name of ASCII word characters, the number of textual
    assignments to it: the count that decides between [const] and [let]
    is the same in the output as in the input. *)
Theorem js_transform_keeps_assignment_counts
    (file_path : string) (content var_name : text) :
  ascii_text content ->
  ascii_text var_name ->
  is_name var_name ->
  assignments_to (fst (js_transform file_path content)) var_name
  = assignments_to content var_name.
Proof.
  intros _ _ N. rewrite js_transform_text. now apply js_pass_invariant.
Qed.

Lemma js_transform_keeps_assignment_counts_witness :
  assignments_to (fst (js_transform "app.js" (txt "var y = 1; y = 2;"))) (txt "y")
  = 2.
Proof.
  etransitivity;
    [apply (js_transform_keeps_assignment_counts "app.js"
              (txt "var y = 1; y = 2;") (txt "y"));
     [reflexivity|reflexivity|split; [discriminate|reflexivity]]
    |reflexivity].
Defined.

(** *** The alt-text rule *)

Lemma alt_pass_quiet content :
  Forall single_img (Re.findall Re.img_without_alt content) ->
  quiet Re.img_without_alt None
    (rewrite_matches Re.img_without_alt (fun _ img => alt_tag img) content) [].
Proof.
  intros G. unfold rewrite_matches.
  destruct (one_pass_keeps_inv Re.img_without_alt
              (fun _ img => alt_tag img) single_img
              (fun _ P s => quiet Re.img_without_alt None P s)
              img_progressive)
    with (fuel := S (length content)) (s := content) (P := @nil ascii) (i := 0)
         (prev := @None ascii) as [prev' H].
  - intros prev P c s Q N. apply quiet_snoc; [exact Q|].
    now rewrite (img_context_free _ prev).
  - intros prev P s x w rest i Q M Gx.
    destruct (img_inv _ _ _ _ _ M) as (run & -> & -> & -> & L & S).
    apply quiet_app; [|now apply alt_tag_quiet].
    rewrite alt_tag_split, <- app_assoc.
    change ((txt "<img alt=" ++ [dq]) ++ ?z)
      with (txt "<img alt=" ++ dq :: z).
    eapply img_quiet_new_tail. exact Q.
  - lia.
  - exact I.
  - exact G.
  - exact H.
Qed.

(** X3. On a text of ASCII characters none of whose image tags without
    alt holds a second [<img], the alt-text rule leaves no image tag
    without alt: the image pattern finds nothing in its output, and a
    second application changes nothing and logs nothing. *)
Theorem alt_rule_leaves_no_image_without_alt
    (file_path : string) (content : text) :
  ascii_text content ->
  Forall single_img (Re.findall Re.img_without_alt content) ->
  let content' := fst (alt_rule file_path content) in
  Re.findall Re.img_without_alt content' = []
  /\ forall file_path', alt_rule file_path' content' = (content', []).
Proof.
  intros _ G. cbv zeta.
  assert (F : Re.findall Re.img_without_alt (fst (alt_rule file_path content))
              = []).
  { unfold alt_rule. cbn [fst]. rewrite (alt_loop content G).
    apply quiet_finds_nothing; [apply img_progressive|now apply alt_pass_quiet]. }
  split; [exact F|]. intros file_path'.
  unfold alt_rule at 1. now rewrite F.
Qed.

Lemma alt_rule_leaves_no_image_without_alt_witness :
  Re.findall Re.img_without_alt
    (fst (alt_rule "index.html"
            (txt "<p><img src=" ++ [dq] ++ txt "a/logo.png" ++ [dq]
               ++ txt "><img></p>")))
  = [].
Proof.
  refine (proj1 (alt_rule_leaves_no_image_without_alt "index.html"
                   (txt "<p><img src=" ++ [dq] ++ txt "a/logo.png" ++ [dq]
                      ++ txt "><img></p>") _ _)).
  - reflexivity.
  - vm_compute. repeat constructor.
Defined.

(** *** The deprecated-tag rule *)

Section TagsAbsent.

Variable h : ascii.

(** A text that holds no left text of the table is returned as it is. *)
Lemma substitute_absent table :
  lefts_headed h table ->
  forall s, (forall it, In it table -> Py.isin (fst it) s = false) ->
    substitute table s = s.
Proof.
  intros L. induction s as [|c s IH]; intros N.
  - rewrite (substitute_unfold h table [] L). now rewrite (first_match_nil h).
  - rewrite (substitute_unfold h table (c :: s) L).
    destruct (first_match table (c :: s)) as [[n r]|] eqn:M.
    + exfalso. destruct (first_match_Some _ _ _ _ M) as (o & I & E).
      specialize (N _ I). cbn [fst] in N.
      apply not_isin_occurs in N. apply N. exists [], r. exact E.
    + f_equal. apply IH. intros it I. specialize (N it I).
      rewrite isin_cons in N. now apply orb_false_elim in N as [_ N].
Qed.

(** Where a left text occurs, its right text stands in the output. *)
Lemma substitute_puts_new table old new :
  lefts_headed h table -> rights_headed h table ->
  headed h old = true -> In (old, new) table ->
  (forall it, In it table ->
     it = (old, new) \/ clash old (fst it) = true) ->
  forall s, Py.isin old s = true -> Py.isin new (substitute table s) = true.
Proof.
  intros L R Ho Io C s. remember (length s) as k eqn:K. revert s K.
  induction k as [k IH] using lt_wf_ind. intros s -> H.
  rewrite (substitute_unfold h table s L).
  destruct (first_match table s) as [[n r]|] eqn:M.
  - destruct (first_match_Some _ _ _ _ M) as (o & I & ->).
    destruct (C _ I) as [[= -> ->]|Cl].
    + apply isin_occurs. exists [], (substitute table r). reflexivity.
    + apply isin_app_r. eapply IH; [|reflexivity|].
      * apply (first_match_shorter h _ _ _ _ L M).
      * cbn [fst] in Cl.
        now rewrite (isin_skips_word h old o r Ho (L _ I) Cl) in H.
  - destruct s as [|c s].
    + destruct (headed_inv h old Ho) as (o' & -> & _). discriminate.
    + rewrite isin_cons in H. apply orb_prop in H as [H|H].
      * exfalso. unfold Py.startswith in H.
        now rewrite (first_match_None _ _ _ _ M Io) in H.
      * rewrite isin_cons. apply orb_true_intro. right.
        eapply IH; [|reflexivity|exact H]. simpl. lia.
Qed.

End TagsAbsent.

Lemma deprecated_table_clean :
  lefts_headed "<" deprecated_replacements
  /\ rights_headed "<" deprecated_replacements
  /\ (forall it it', In it deprecated_replacements ->
        In it' deprecated_replacements -> clash (fst it) (snd it') = true).
Proof. apply table_clean_inv. reflexivity. Qed.

Lemma deprecated_rule_removes file_path content it :
  In it deprecated_replacements ->
  Py.isin (fst it) (fst (deprecated_rule file_path content)) = false.
Proof.
  intros I. rewrite deprecated_rule_substitute. cbn [fst].
  destruct deprecated_table_clean as (L & R & C).
  now apply (substitute_removes "<" _ L R C).
Qed.

Lemma filter_none {X} (f : X -> bool) l :
  (forall x, In x l -> f x = false) -> List.filter f l = [].
Proof.
  induction l as [|x l IH]; intros H; [reflexivity|]. simpl.
  rewrite (H x (or_introl eq_refl)). apply IH. intros y I. apply H. now right.
Qed.

(** X5. The deprecated-tag rule applied to its own output returns it
    unchanged and logs nothing. *)
Theorem deprecated_rule_twice_changes_nothing
    (file_path file_path' : string) (content : text) :
  deprecated_rule file_path' (fst (deprecated_rule file_path content))
  = (fst (deprecated_rule file_path content), []).
Proof.
  rewrite (deprecated_rule_substitute file_path').
  destruct deprecated_table_clean as (L & _).
  f_equal.
  - apply (substitute_absent "<" _ L).
    intros it I. now apply deprecated_rule_removes.
  - unfold tokens_present. rewrite filter_none; [reflexivity|].
    intros it I. now apply deprecated_rule_removes.
Qed.

(** Where an attribute stands literally, the scan reports a match. *)
Lemma literal_attribute_found name x s :
  occurs (Re.attr_open name ++ x ++ [dq]) s ->
  Re.findall (Re.quoted_attr name) s <> [].
Proof.
  intros (a & b & ->). change (Re.findall ?m ?s) with (scan m None s).
  generalize (@None ascii). induction a as [|c a IH]; intros p.
  - rewrite (scan_unfold _ (quoted_attr_progressive name)).
    destruct (Re.quoted_attr name p _) as [[[y w] rest]|] eqn:M; [discriminate|].
    exfalso. revert M. cbn [app].
    apply (quoted_attr_of_literal name x p _ b), strip_prefix_app.
  - rewrite (scan_unfold _ (quoted_attr_progressive name)).
    destruct (Re.quoted_attr name p _) as [[[y w] rest]|] eqn:M; [discriminate|].
    cbn [app]. apply IH.
Qed.

(** X6. A text with the tag [<center>] leaves the deprecated-tag rule
    with an inline style in it: the style-attribute pattern finds a match
    in the output of that rule, and the inline-style rule applied to that
    output logs a record. *)
Theorem center_tag_brings_back_an_inline_style
    (file_path : string) (content : text) :
  occurs (txt "<center>") content ->
  let content' := fst (deprecated_rule file_path content) in
  Re.findall (Re.quoted_attr "style") content' <> []
  /\ snd (inline_styles_rule file_path content') <> [].
Proof.
  intros H. cbv zeta.
  assert (F : Re.findall (Re.quoted_attr "style")
                (fst (deprecated_rule file_path content)) <> []).
  { rewrite deprecated_rule_substitute. cbn [fst].
    destruct deprecated_table_clean as (L & R & _).
    apply isin_occurs in H.
    assert (N : Py.isin (txt "<div style=" ++ [dq] ++ txt "text-align: center;"
                           ++ [dq] ++ txt ">")
                  (substitute deprecated_replacements content) = true).
    { apply (substitute_puts_new "<" deprecated_replacements
               (txt "<center>") _ L R eq_refl); [| |exact H].
      - cbn. tauto.
      - intros it I. cbn in I.
        repeat (destruct I as [<-|I]; [(now left) || (right; reflexivity)|]).
        destruct I. }
    apply isin_occurs in N as (a & b & E).
    apply (literal_attribute_found "style" (txt "text-align: center;")).
    exists (a ++ txt "<div "), (txt ">" ++ b). rewrite E.
    rewrite <- !app_assoc. reflexivity. }
  split; [exact F|].
  unfold inline_styles_rule.
  destruct (Re.findall (Re.quoted_attr "style")
              (fst (deprecated_rule file_path content))) as [|x l];
    [congruence|].
  rewrite inline_fold. cbn [snd]. unfold enumerate.
  cbn [length seq combine map app]. discriminate.
Qed.

Lemma center_tag_brings_back_an_inline_style_witness :
  Re.findall (Re.quoted_attr "style")
    (fst (deprecated_rule "index.html" (txt "<center>x</center>")))
  <> [].
Proof.
  refine (proj1 (center_tag_brings_back_an_inline_style "index.html"
                   (txt "<center>x</center>") _)).
  exists [], (txt "x</center>"). reflexivity.
Defined.

(** ** Records and changes of the transformations *)

Lemma filter_nil_none {X} (f : X -> bool) l :
  List.filter f l = [] -> forall x, In x l -> f x = false.
Proof.
  induction l as [|y l IH]; intros H x I; [destruct I|]. simpl in H.
  destruct (f y) eqn:E; [discriminate|].
  destruct I as [<-|I]; [exact E|now apply IH].
Qed.

Lemma inline_styles_rule_unlogged file_path content :
  snd (inline_styles_rule file_path content) = [] ->
  fst (inline_styles_rule file_path content) = content.
Proof.
  unfold inline_styles_rule.
  destruct (Re.findall (Re.quoted_attr "style") content) as [|x l];
    [reflexivity|].
  rewrite inline_fold. cbn [snd]. unfold enumerate.
  cbn [length seq combine map app]. discriminate.
Qed.

Lemma viewport_rule_unlogged file_path content :
  snd (viewport_rule file_path content) = [] ->
  fst (viewport_rule file_path content) = content.
Proof.
  unfold viewport_rule. destruct (_ && _); [discriminate|reflexivity].
Qed.

Lemma alt_rule_unlogged file_path content :
  snd (alt_rule file_path content) = [] ->
  fst (alt_rule file_path content) = content.
Proof.
  unfold alt_rule. cbn [fst snd].
  destruct (Re.findall Re.img_without_alt content); [reflexivity|discriminate].
Qed.

Lemma deprecated_rule_unlogged file_path content :
  snd (deprecated_rule file_path content) = [] ->
  fst (deprecated_rule file_path content) = content.
Proof.
  rewrite deprecated_rule_substitute. cbn [fst snd]. intros H.
  apply map_eq_nil in H. destruct deprecated_table_clean as (L & _).
  apply (substitute_absent "<" _ L). intros it I.
  now apply (filter_nil_none _ _ H).
Qed.

Lemma html_transform_unfold file_path content :
  html_transform file_path content
  = let r1 := inline_styles_rule file_path content in
    let r2 := viewport_rule file_path (fst r1) in
    let r3 := alt_rule file_path (fst r2) in
    let r4 := deprecated_rule file_path (fst r3) in
    (fst r4, snd r1 ++ snd r2 ++ snd r3 ++ snd r4).
Proof.
  unfold html_transform.
  destruct (inline_styles_rule file_path content) as [c1 l1]. cbn [fst snd].
  destruct (viewport_rule file_path c1) as [c2 l2]. cbn [fst snd].
  destruct (alt_rule file_path c2) as [c3 l3]. cbn [fst snd].
  now destruct (deprecated_rule file_path c3) as [c4 l4].
Qed.

Lemma transform_unlogged (k : kind) (file_path : string) (content : text) :
  snd (transform_of k file_path content) = [] ->
  fst (transform_of k file_path content) = content.
Proof.
  destruct k; cbn [transform_of].
  - rewrite html_transform_unfold. cbv zeta. cbn [fst snd]. intros H.
    apply app_eq_nil in H as [H1 H]. apply app_eq_nil in H as [H2 H].
    apply app_eq_nil in H as [H3 H4].
    apply inline_styles_rule_unlogged in H1. rewrite H1 in *.
    apply viewport_rule_unlogged in H2. rewrite H2 in *.
    apply alt_rule_unlogged in H3. rewrite H3 in *.
    now apply deprecated_rule_unlogged.
  - unfold css_transform. destruct (negb _); [discriminate|reflexivity].
  - unfold js_transform. cbn [fst snd].
    destruct (Re.findall Re.var_declaration content); [reflexivity|discriminate].
Qed.

(** X10. No silent change: when the transformation of a file (HTML, CSS
    or JavaScript) logs no record, the text it returns is the text it was
    given. *)
Theorem no_record_means_no_change
    (k : kind) (file_path : string) (content : text) :
  snd (transform_of k file_path content) = [] ->
  fst (transform_of k file_path content) = content.
Proof. apply transform_unlogged. Qed.

Lemma no_record_means_no_change_witness :
  fst (transform_of Html "index.html" (txt "<p>hello</p>")) = txt "<p>hello</p>".
Proof.
  apply (no_record_means_no_change Html "index.html" (txt "<p>hello</p>")).
  reflexivity.
Defined.
(** Every record names the file it was computed for and carries a
    category of the file's type. *)
Lemma transform_records k file_path content :
  Forall (fun r => file r = file_path /\ In (category r) (categories_of k))
    (snd (transform_of k file_path content)).
Proof.
  destruct k; cbn [transform_of categories_of].
  - rewrite html_transform_unfold. cbv zeta. cbn [snd].
    repeat apply Forall_app_2.
    + unfold inline_styles_rule.
      destruct (Re.findall (Re.quoted_attr "style") content) as [|x l];
        [constructor|].
      rewrite inline_fold. cbn [snd]. unfold enumerate.
      cbn [length seq combine map app].
      constructor; [|constructor]. cbn. tauto.
    + unfold viewport_rule. destruct (_ && _); cbn [snd]; [|constructor].
      constructor; [|constructor]. cbn. tauto.
    + unfold alt_rule. cbn [snd].
      destruct (Re.findall Re.img_without_alt _); [constructor|].
      constructor; [|constructor]. cbn. tauto.
    + rewrite deprecated_rule_substitute. cbn [snd].
      apply List.Forall_forall. intros r I.
      apply in_map_iff in I as (it & <- & _).
      cbn. tauto.
  - unfold css_transform. destruct (negb _); cbn [snd]; [|constructor].
    constructor; [|constructor]. cbn. tauto.
  - unfold js_transform. cbn [snd].
    destruct (Re.findall Re.var_declaration content); [constructor|].
    constructor; [|constructor]. cbn. tauto.
Qed.

(** ** Sessions: the log, the writes and the disk *)

Lemma visit_step dry_run st k file_path :
  visit dry_run st (k, file_path)
  = match disk st !! file_path with
    | None => Raised st
    | Some content =>
        Returned
          (write_back dry_run file_path content
             (fst (transform_of k file_path content))
             (log_changes (snd (transform_of k file_path content)) st))
    end.
Proof.
  unfold visit. cbn [fst snd].
  destruct k; cbn [method_of transform_of];
    unfold modernize_html, modernize_css, modernize_js, modernize_file;
    destruct (disk st !! file_path) as [content|]; try reflexivity;
    match goal with
    | |- context [let '(_, _) := ?t in _] => now destruct t
    end.
Qed.

Lemma visited_paths html_files css_files js_files :
  map snd (visited html_files css_files js_files)
  = html_files ++ css_files ++ js_files.
Proof.
  unfold visited. rewrite !List.map_app, !List.map_map. cbn [snd].
  now rewrite !List.map_id.
Qed.

Lemma visited_kinds html_files css_files js_files k p :
  In (k, p) (visited html_files css_files js_files) ->
  In p (html_files ++ css_files ++ js_files).
Proof.
  intros I. rewrite <- visited_paths. apply in_map_iff. now exists (k, p).
Qed.

(** What one loop over files adds to the log and to the writes, and what
    it leaves on the disk. *)
Lemma for_each_visit_grows dry_run files :
  forall st,
    let st' := final (for_each (visit dry_run) files st) in
    exists l w,
      changes st' = changes st ++ l
      /\ writes st' = writes st ++ w
      /\ Forall (fun r => exists k, In (k, file r) files
                                    /\ In (category r) (categories_of k)) l
      /\ (forall p c, In (p, c) w -> exists r, In r l /\ file r = p)
      /\ (forall p, ~ In p (map snd files) -> disk st' !! p = disk st !! p).
Proof.
  induction files as [|[k p] files IH]; intros st; cbv zeta.
  - exists [], []. cbn. rewrite !app_nil_r.
    repeat split; try reflexivity; [constructor|intros ? ? []].
  - cbn [for_each]. rewrite visit_step.
    destruct (disk st !! p) as [content|] eqn:R.
    + set (T := transform_of k p content).
      set (st1 := write_back dry_run p content (fst T) (log_changes (snd T) st)).
      destruct (IH st1) as (l & w & Hc & Hw & Hl & Hlog & Hd). cbv zeta in *.
      pose proof (write_back_effect dry_run p content (fst T)
                    (log_changes (snd T) st)) as E.
      cbv zeta in E. fold st1 in E.
      assert (C1 : changes st1 = changes st ++ snd T)
        by (unfold st1; now rewrite write_back_changes).
      change (writes (log_changes (snd T) st)) with (writes st) in E.
      change (disk (log_changes (snd T) st)) with (disk st) in E.
      pose proof (transform_records k p content) as TR. fold T in TR.
      exists (snd T ++ l),
        ((if negb dry_run && negb (bool_decide (fst T = content))
          then [(p, fst T)] else []) ++ w).
      split; [now rewrite Hc, C1, <- app_assoc|].
      split.
      { rewrite Hw. destruct (negb dry_run && negb (bool_decide _));
          destruct E as [_ ->]; now rewrite <- ?app_assoc, ?app_nil_r. }
      split.
      { apply Forall_app_2.
        - eapply List.Forall_impl; [|exact TR]. intros r [F I]. exists k.
          rewrite F. split; [now left|exact I].
        - eapply List.Forall_impl; [|exact Hl]. intros r (k' & I & I').
          exists k'. split; [now right|exact I']. }
      split.
      { intros q c I. apply in_app_or in I as [I|I].
        - destruct (negb dry_run) eqn:Dr; cbn [andb] in I; [|destruct I].
          destruct (bool_decide (fst T = content)) eqn:B; cbn [negb] in I;
            [destruct I|].
          destruct I as [[= <- <-]|[]].
          apply bool_decide_eq_false in B.
          destruct (snd T) as [|r rs] eqn:S.
          + exfalso. apply B. unfold T in S |- *.
            now apply transform_unlogged.
          + exists r. split; [now left|].
            now apply List.Forall_inv in TR as [F _].
        - destruct (Hlog q c I) as (r & I' & F). exists r.
          split; [apply in_or_app; now right|exact F]. }
      { intros q N. cbn [map snd] in N.
        rewrite Hd by (intros I; apply N; now right).
        destruct (negb dry_run && negb (bool_decide _));
          destruct E as [-> _]; [|reflexivity].
        apply lookup_insert_ne. intros ->. apply N. now left. }
    + exists [], []. cbn [final]. rewrite !app_nil_r.
      repeat split; try reflexivity; [constructor|intros ? ? []].
Qed.
Section SessionGrowth.

Variable copytree : gmap string text -> option (gmap string text).

Lemma modernize_as_visit dry_run backup html_files css_files js_files st :
  modernize copytree dry_run backup html_files css_files js_files st
  = and_then (backup_step copytree dry_run backup st)
      (for_each (visit dry_run) (visited html_files css_files js_files)).
Proof.
  unfold modernize, backup_step. apply and_then_ext. intros st1.
  apply loops_as_one_visit.
Qed.

Lemma backup_step_keeps dry_run backup st :
  changes (final (backup_step copytree dry_run backup st)) = changes st
  /\ writes (final (backup_step copytree dry_run backup st)) = writes st.
Proof.
  unfold backup_step, create_backup.
  destruct (backup && negb dry_run); [|split; reflexivity].
  destruct (copytree (disk st)); [|split; reflexivity].
  split; [reflexivity|]. unfold writes. cbn [final effects].
  rewrite flat_map_app. apply app_nil_r.
Qed.

Lemma modernize_grows dry_run backup html_files css_files js_files st :
  let st' := final (modernize copytree dry_run backup html_files css_files
                      js_files st) in
  exists l w,
    changes st' = changes st ++ l
    /\ writes st' = writes st ++ w
    /\ Forall (fun r => exists k,
                 In (k, file r) (visited html_files css_files js_files)
                 /\ In (category r) (categories_of k)) l
    /\ (forall p c, In (p, c) w -> exists r, In r l /\ file r = p)
    /\ (forall p, ~ In p (html_files ++ css_files ++ js_files) ->
          disk st' !! p = disk (final (backup_step copytree dry_run backup st)) !! p).
Proof.
  cbv zeta. rewrite modernize_as_visit.
  destruct (backup_step_keeps dry_run backup st) as [Bc Bw].
  destruct (backup_step copytree dry_run backup st) as [st1|st1]; cbn [and_then final] in *.
  - destruct (for_each_visit_grows dry_run
                (visited html_files css_files js_files) st1)
      as (l & w & Hc & Hw & Hl & Hlog & Hd). cbv zeta in *.
    exists l, w. rewrite Hc, Hw, Bc, Bw. rewrite visited_paths in Hd.
    repeat split; assumption.
  - exists [], []. rewrite !app_nil_r, Bc, Bw.
    repeat split; try reflexivity; [constructor|intros ? ? []].
Qed.

End SessionGrowth.

(** ** A second run on a style sheet or a script *)

Lemma js_transform_twice file_path content :
  js_transform file_path (fst (js_transform file_path content))
  = (fst (js_transform file_path content), []).
Proof.
  assert (F : Re.findall Re.var_declaration
                (fst (js_transform file_path content)) = []).
  { rewrite js_transform_text.
    apply quiet_finds_nothing; [apply var_declaration_progressive|].
    apply js_pass_invariant. }
  unfold js_transform at 1. now rewrite F.
Qed.

Lemma log_nothing st : log_changes [] st = st.
Proof. destruct st as [d l e]. unfold log_changes. cbn. now rewrite app_nil_r. Qed.

Lemma write_back_same dry_run file_path content st :
  write_back dry_run file_path content content st = st.
Proof.
  unfold write_back. now rewrite bool_decide_eq_true_2.
Qed.

Lemma write_back_lookup file_path original content st :
  disk st !! file_path = Some original ->
  disk (write_back false file_path original content st) !! file_path
  = Some content.
Proof.
  intros R. unfold write_back.
  destruct (bool_decide (content = original)) eqn:B.
  - apply bool_decide_eq_true in B. now subst.
  - cbn [disk]. apply lookup_insert_eq.
Qed.

(** X11. A style sheet or a script settles after one run: once
    [modernize_css] or [modernize_js] has processed a file with dry-run
    off and has returned, processing the file again, with either value of
    the flag, returns the state exactly as it is: no write, no notice, no
    record.  For a script this is stated of a text of ASCII characters. *)
Theorem style_sheets_and_scripts_settle_after_one_run
    (k : kind) (dry_run : bool) (st st1 : State) (file_path : string)
    (content : text) :
  k <> Html ->
  (k = Js -> ascii_text content) ->
  disk st !! file_path = Some content ->
  method_of k false st file_path = Returned st1 ->
  method_of k dry_run st1 file_path = Returned st1.
Proof.
  intros K _ R F.
  assert (E : method_of k false st file_path
              = Returned
                  (write_back false file_path content
                     (fst (transform_of k file_path content))
                     (log_changes (snd (transform_of k file_path content)) st))).
  { change (method_of k false st file_path)
      with (visit false st (k, file_path)).
    now rewrite visit_step, R. }
  rewrite E in F. injection F as <-.
  change (method_of k dry_run ?s file_path)
    with (visit dry_run s (k, file_path)).
  rewrite visit_step.
  rewrite (write_back_lookup file_path content _ (log_changes _ st) R).
  assert (T : transform_of k file_path
                (fst (transform_of k file_path content))
              = (fst (transform_of k file_path content), [])).
  { destruct k; [congruence| |]; cbn [transform_of].
    - apply css_transform_twice.
    - apply js_transform_twice. }
  rewrite T. cbn [fst snd]. now rewrite log_nothing, write_back_same.
Qed.

Lemma style_sheets_and_scripts_settle_after_one_run_witness :
  let st := mkState {[ "app.js"%string := txt "var x = 1;" ]} [] [] in
  let st1 := final (method_of Js false st "app.js") in
  disk st1 !! "app.js"%string = Some (txt "const x = 1;")
  /\ method_of Js true st1 "app.js" = Returned st1.
Proof.
  split; [reflexivity|].
  refine (style_sheets_and_scripts_settle_after_one_run Js true
            (mkState {[ "app.js"%string := txt "var x = 1;" ]} [] []) _
            "app.js" (txt "var x = 1;") _ _ _ _).
  - discriminate.
  - reflexivity.
  - reflexivity.
  - reflexivity.
Defined.

(** ** The summary *)

Section DictFacts.

Context {V : Type}.

Lemma dict_get_set_eq k (v : V) d : Dict.get k (Dict.set k v d) = Some v.
Proof.
  induction d as [|[k' v'] d IH]; simpl.
  - now rewrite String.eqb_refl.
  - destruct (String.eqb k' k) eqn:E; simpl; rewrite E; [reflexivity|exact IH].
Qed.

Lemma dict_get_set_ne k k' (v : V) d :
  k <> k' -> Dict.get k' (Dict.set k v d) = Dict.get k' d.
Proof.
  intros N. induction d as [|[k0 v0] d IH]; simpl.
  - destruct (String.eqb_spec k k'); [contradiction|reflexivity].
  - destruct (String.eqb_spec k0 k) as [->|]; simpl.
    + destruct (String.eqb_spec k k'); [contradiction|reflexivity].
    + now rewrite IH.
Qed.

Lemma dict_get_None k (d : Dict.t V) :
  Dict.get k d = None <-> ~ In k (map fst d).
Proof.
  induction d as [|[k' v'] d IH]; simpl; [tauto|].
  destruct (String.eqb_spec k' k) as [->|N].
  - split; [discriminate|]. intros H. exfalso. apply H. now left.
  - rewrite IH. tauto.
Qed.

Lemma dict_keys_set k (v : V) d :
  map fst (Dict.set k v d)
  = match Dict.get k d with
    | Some _ => map fst d
    | None => map fst d ++ [k]
    end.
Proof.
  induction d as [|[k' v'] d IH]; simpl; [reflexivity|].
  destruct (String.eqb_spec k' k) as [->|N]; simpl; [reflexivity|].
  rewrite IH. now destruct (Dict.get k d).
Qed.

Lemma dict_In_get k (v : V) d :
  List.NoDup (map fst d) -> (In (k, v) d <-> Dict.get k d = Some v).
Proof.
  induction d as [|[k' v'] d IH]; simpl; intros N.
  - split; [intros []|discriminate].
  - apply List.NoDup_cons_iff in N as [N1 N2].
    destruct (String.eqb_spec k' k) as [->|Ne].
    + split.
      * intros [[= ->]|I]; [reflexivity|].
        exfalso. apply N1. apply in_map_iff. now exists (k, v).
      * intros [= ->]. now left.
    + rewrite <- (IH N2). split; [intros [[= -> ->]|I]; [congruence|exact I]|].
      intros I. now right.
Qed.

End DictFacts.

Lemma nodup_snoc {X} (x : X) l :
  ~ In x l -> List.NoDup l -> List.NoDup (l ++ [x]).
Proof.
  intros Nx N. induction N as [|y l Ny N IH]; cbn [app].
  - constructor; [intros []|constructor].
  - constructor.
    + intros I. apply in_app_or in I as [I|[->|[]]]; [now apply Ny|].
      apply Nx. now left.
    + apply IH. intros I. apply Nx. now right.
Qed.

(** The number of records a dictionary of groups holds. *)
Lemma dict_total_set k (v : list ChangeRecord) d :
  list_sum (map (fun kv => length (snd kv)) (Dict.set k v d))
    + match Dict.get k d with Some v0 => length v0 | None => 0 end
  = list_sum (map (fun kv => length (snd kv)) d) + length v.
Proof.
  induction d as [|[k' v'] d IH]; simpl; [lia|].
  destruct (String.eqb_spec k' k) as [->|N]; simpl; lia.
Qed.

Lemma group_change_cases d change :
  group_change d change
  = match Dict.get (category change) d with
    | Some l => Dict.set (category change) (l ++ [change]) d
    | None => Dict.set (category change) [change]
                (Dict.set (category change) [] d)
    end.
Proof.
  unfold group_change, Dict.mem. cbv zeta.
  destruct (Dict.get (category change) d) as [l|] eqn:G; cbn [negb].
  - now rewrite G.
  - now rewrite dict_get_set_eq.
Qed.

Lemma of_category_snoc c l r :
  of_category c (l ++ [r])
  = of_category c l ++ (if String.eqb (category r) c then [r] else []).
Proof. unfold of_category. now rewrite List.filter_app. Qed.

Lemma grouped_step d l r :
  grouped d l -> grouped (group_change d r) (l ++ [r]).
Proof.
  intros (N & G & S). rewrite group_change_cases.
  pose proof (G (category r)) as Gr.
  assert (Own : of_category (category r) (l ++ [r])
                = of_category (category r) l ++ [r])
    by now rewrite of_category_snoc, String.eqb_refl.
  assert (Other : forall c, category r <> c ->
            of_category c (l ++ [r]) = of_category c l).
  { intros c Ne. rewrite of_category_snoc.
    destruct (String.eqb_spec (category r) c); [contradiction|].
    apply app_nil_r. }
  destruct (Dict.get (category r) d) as [v|] eqn:E.
  - assert (Ev : of_category (category r) l = v)
      by (destruct (of_category (category r) l); congruence).
    split; [|split].
    + now rewrite dict_keys_set, E.
    + intros c. destruct (String.eq_dec (category r) c) as [<-|Ne].
      * rewrite dict_get_set_eq, Own, Ev. now destruct v.
      * rewrite dict_get_set_ne by exact Ne. rewrite Other by exact Ne. apply G.
    + pose proof (dict_total_set (category r) (v ++ [r]) d) as T.
      rewrite E in T. rewrite !length_app in *. cbn [length] in *. lia.
  - assert (Ev : of_category (category r) l = [])
      by (destruct (of_category (category r) l); congruence).
    split; [|split].
    + rewrite dict_keys_set, dict_get_set_eq, dict_keys_set, E.
      apply nodup_snoc; [now apply dict_get_None in E|exact N].
    + intros c. destruct (String.eq_dec (category r) c) as [<-|Ne].
      * now rewrite dict_get_set_eq, Own, Ev.
      * rewrite !dict_get_set_ne by exact Ne. rewrite Other by exact Ne.
        apply G.
    + pose proof (dict_total_set (category r) [r]
                    (Dict.set (category r) [] d)) as T1.
      pose proof (dict_total_set (category r) [] d) as T2.
      rewrite dict_get_set_eq in T1. rewrite E in T2.
      rewrite length_app. cbn [length] in *. lia.
Qed.

Lemma grouped_fold l :
  forall d pre, grouped d pre -> grouped (fold_left group_change l d) (pre ++ l).
Proof.
  induction l as [|r l IH]; intros d pre H; cbn [fold_left].
  - now rewrite app_nil_r.
  - change (r :: l) with ([r] ++ l). rewrite app_assoc.
    apply IH. now apply grouped_step.
Qed.

Lemma by_category_grouped changes : grouped (by_category changes) changes.
Proof.
  apply (grouped_fold changes [] []).
  split; [constructor|]. split; [reflexivity|reflexivity].
Qed.
Lemma category_counts_lines (d : Dict.t (list ChangeRecord)) :
  category_counts
    (map (fun '(category, changes) => CategoryCount category (length changes)) d)
  = map (fun kv => (fst kv, length (snd kv))) d.
Proof.
  unfold category_counts. induction d as [|[k v] d IH]; [reflexivity|].
  cbn [map flat_map app fst snd]. now rewrite IH.
Qed.

Lemma category_counts_summary dry_run changes :
  category_counts (print_summary dry_run changes)
  = map (fun kv => (fst kv, length (snd kv))) (by_category changes).
Proof.
  unfold print_summary. destruct changes as [|r l]; [reflexivity|].
  unfold category_counts at 1. cbn [flat_map app].
  rewrite flat_map_app.
  change (flat_map ?f ?x) with (category_counts x) at 1.
  rewrite category_counts_lines.
  destruct dry_run; cbn [flat_map app]; now rewrite app_nil_r.
Qed.

(** X17. The per-category lines of the summary partition the log: the
    categories listed are distinct; a category is listed with a count
    exactly when the log holds that many records of it, and at least one;
    the counts add up to the number of records; a log with records gets
    that number as the printed total, and an empty log gets the header and
    the no-changes line alone. *)
Theorem summary_counts_partition_the_log
    (dry_run : bool) (changes : list ChangeRecord) :
  let counts := category_counts (print_summary dry_run changes) in
  List.NoDup (map fst counts)
  /\ (forall c n, In (c, n) counts
                  <-> n = length (of_category c changes) /\ 0 < n)
  /\ list_sum (map snd counts) = length changes
  /\ match changes with
     | [] => print_summary dry_run changes = [SummaryHeader; NoChangesNeeded]
     | _ :: _ => In (TotalChanges (length changes))
                   (print_summary dry_run changes)
     end.
Proof.
  cbv zeta. rewrite category_counts_summary.
  destruct (by_category_grouped changes) as (N & G & S).
  rewrite !List.map_map. cbn [fst snd].
  split; [exact N|]. split; [|split; [exact S|]].
  - intros c n. rewrite in_map_iff. split.
    + intros ([k v] & [= <- <-] & I). cbn [fst snd].
      apply (dict_In_get _ _ _ N) in I. rewrite G in I.
      destruct (of_category k changes) as [|x l]; [discriminate|].
      injection I as <-. split; [reflexivity|cbn; lia].
    + intros [-> P]. exists (c, of_category c changes). split; [reflexivity|].
      apply (dict_In_get _ _ _ N). rewrite G.
      destruct (of_category c changes); [cbn in P; lia|reflexivity].
  - destruct changes as [|r l]; [reflexivity|]. cbn. tauto.
Qed.

(** ** The session as a whole *)

(** X12. The change log of a session is append-only, and every record
    added names a file the session was given and carries a category of that
    file's type (the four HTML categories, [css-variables], [modern-js]),
    whatever the flags and wherever the session ends. *)
Theorem session_log_grows_by_records_of_the_files_found
    (copytree : gmap string text -> option (gmap string text))
    (dry_run backup : bool) (html_files css_files js_files : list string)
    (st : State) :
  let st' := final (modernize copytree dry_run backup html_files css_files
                      js_files st) in
  exists l,
    changes st' = changes st ++ l
    /\ Forall (fun r => exists k,
                 In (k, file r) (visited html_files css_files js_files)
                 /\ In (category r) (categories_of k)) l.
Proof.
  cbv zeta.
  destruct (modernize_grows copytree dry_run backup html_files css_files
              js_files st) as (l & w & Hc & _ & Hl & _).
  now exists l.
Qed.

(** X13. Every write of a session is logged: the session appends
    records and calls of [write_text], and for each call it appends there
    is, among the records it appends, one with the path of the file
    written. *)
Theorem every_write_is_logged
    (copytree : gmap string text -> option (gmap string text))
    (dry_run backup : bool) (html_files css_files js_files : list string)
    (st : State) :
  let st' := final (modernize copytree dry_run backup html_files css_files
                      js_files st) in
  exists l w,
    changes st' = changes st ++ l
    /\ writes st' = writes st ++ w
    /\ forall p c, In (p, c) w -> exists r, In r l /\ file r = p.
Proof.
  cbv zeta.
  destruct (modernize_grows copytree dry_run backup html_files css_files
              js_files st) as (l & w & Hc & Hw & _ & Hlog & _).
  now exists l, w.
Qed.

(** X14. A session writes only files it was given: every call of
    [write_text] the session adds is on a path of its three lists. *)
Theorem session_writes_only_the_files_found
    (copytree : gmap string text -> option (gmap string text))
    (dry_run backup : bool) (html_files css_files js_files : list string)
    (st : State) :
  let st' := final (modernize copytree dry_run backup html_files css_files
                      js_files st) in
  exists w,
    writes st' = writes st ++ w
    /\ forall p c, In (p, c) w -> In p (html_files ++ css_files ++ js_files).
Proof.
  cbv zeta.
  destruct (modernize_grows copytree dry_run backup html_files css_files
              js_files st) as (l & w & _ & Hw & Hl & Hlog & _).
  exists w. split; [exact Hw|]. intros p c I.
  destruct (Hlog p c I) as (r & Ir & <-).
  rewrite List.Forall_forall in Hl. destruct (Hl r Ir) as (k & Ik & _).
  rewrite <- visited_paths. apply (in_map snd) in Ik. exact Ik.
Qed.

(** ** The alt text *)

Lemma quoted_attr_group name p s x w rest :
  Re.quoted_attr name p s = Some (x, w, rest) -> forallb not_dq x = true.
Proof.
  unfold Re.quoted_attr.
  destruct (Py.strip_prefix (Re.attr_open name) s) as [r|]; [|discriminate].
  destruct (Re.span_until dq r) as [[g rest']|] eqn:S; [|discriminate].
  intros [= <- <- <-]. exact (span_until_free _ _ _ _ S).
Qed.

Section KeptClass.

Variable f : ascii -> bool.

Lemma split_on_forall sep s :
  forallb f s = true -> Forall (fun w => forallb f w = true) (Py.split_on sep s).
Proof.
  induction s as [|c s IH]; intros H; cbn [Py.split_on].
  - repeat constructor.
  - cbn [forallb] in H. apply andb_prop in H as [Hc H]. specialize (IH H).
    destruct (Ascii.eqb c sep); [constructor; [reflexivity|exact IH]|].
    destruct (Py.split_on sep s) as [|w ws]; [repeat constructor; cbn; now rewrite Hc|].
    apply List.Forall_cons_iff in IH as [Hw Hws].
    constructor; [cbn; now rewrite Hc|exact Hws].
Qed.

Lemma last_forall (l : list text) :
  Forall (fun w => forallb f w = true) l -> forallb f (List.last l []) = true.
Proof.
  induction 1 as [|w l Hw Hl IH]; [reflexivity|].
  cbn [List.last]. destruct l; [exact Hw|exact IH].
Qed.

Lemma filter_forall (g : text -> bool) (l : list text) :
  Forall (fun w => forallb f w = true) l ->
  Forall (fun w => forallb f w = true) (List.filter g l).
Proof.
  induction 1 as [|w l Hw Hl IH]; [constructor|]. cbn [List.filter].
  destruct (g w); [constructor; assumption|exact IH].
Qed.

Lemma firstn_forall n (s : text) :
  forallb f s = true -> forallb f (firstn n s) = true.
Proof.
  revert s; induction n as [|n IH]; intros [|c s] H; try reflexivity.
  cbn [firstn forallb] in *. apply andb_prop in H as [Hc H].
  now rewrite Hc, IH.
Qed.

Lemma path_stem_forall s :
  forallb f s = true -> forallb f (Py.path_stem s) = true.
Proof.
  intros H.
  assert (N : forallb f (Py.path_name s) = true).
  { unfold Py.path_name. apply last_forall, filter_forall.
    now apply split_on_forall. }
  unfold Py.path_stem. destruct (Py.rfind "." (Py.path_name s)); [|exact N].
  destruct (_ && _); [now apply firstn_forall|exact N].
Qed.

Lemma replace_count_forall old new n :
  forallb f new = true ->
  forall s, forallb f s = true ->
    forallb f (Py.replace_count old new n s) = true.
Proof.
  intros Hn. induction n as [|n IH]; intros s H; [exact H|].
  cbn [Py.replace_count].
  destruct (Py.partition_first old s) as [[a b]|] eqn:P; [|exact H].
  apply partition_first_Some in P. subst s.
  rewrite !forallb_app in H. apply andb_prop in H as [Ha H].
  apply andb_prop in H as [_ Hb].
  rewrite !forallb_app, Ha, Hn. cbn [andb]. now apply IH.
Qed.

Lemma replace_char_forall a b s :
  f b = true -> forallb f s = true ->
  forallb f (Py.replace [a] [b] None s) = true.
Proof.
  intros Hb H. unfold Py.replace. apply replace_count_forall; [|exact H].
  cbn. now rewrite Hb.
Qed.

End KeptClass.

Lemma title_char_not_dq (b : bool) (c : ascii) :
  not_dq c = true ->
  not_dq (if Py.is_cased c
          then if b then Py.to_lower c else Py.to_upper c
          else c) = true.
Proof.
  destruct b, c as [[] [] [] [] [] [] [] []]; vm_compute; congruence.
Qed.

Lemma title_from_not_dq b s :
  forallb not_dq s = true -> forallb not_dq (Py.title_from b s) = true.
Proof.
  revert b; induction s as [|c s IH]; intros b H; [reflexivity|].
  cbn [forallb Py.title_from] in *. apply andb_prop in H as [Hc H].
  now rewrite title_char_not_dq, IH.
Qed.

Lemma search_from_match {A} (m : Re.matcher A) s :
  forall p b x w rest,
    Re.search_from m p s = Some (b, (x, w, rest)) ->
    exists p' s', m p' s' = Some (x, w, rest).
Proof.
  induction s as [|c s IH]; intros p b x w rest; cbn [Re.search_from].
  - destruct (m p []) as [r|] eqn:M; [|discriminate].
    intros [= <- <-]. eauto.
  - destruct (m p (c :: s)) as [r|] eqn:M.
    + intros [= <- <-]. eauto.
    + destruct (Re.search_from m (Some c) s) as [[b' r]|] eqn:S; [|discriminate].
      intros E. injection E as <- ->. eapply IH. exact S.
Qed.

Lemma alt_text_not_dq img : forallb not_dq (alt_text img) = true.
Proof.
  unfold alt_text, Re.search.
  destruct (Re.search_from (Re.quoted_attr "src") None img)
    as [[b [[x w] rest]]|] eqn:S; [|reflexivity].
  destruct (search_from_match _ _ _ _ _ _ _ S) as (p' & s' & M).
  apply quoted_attr_group in M.
  apply title_from_not_dq.
  apply replace_char_forall; [reflexivity|].
  apply replace_char_forall; [reflexivity|].
  now apply path_stem_forall.
Qed.

Lemma span_until_stop_free stop a b :
  forallb (fun c => negb (Ascii.eqb c stop)) a = true ->
  Re.span_until stop (a ++ stop :: b) = Some (a, b).
Proof.
  induction a as [|c a IH]; intros H; cbn [app Re.span_until].
  - now rewrite Ascii.eqb_refl.
  - cbn [forallb] in H. apply andb_prop in H as [Hc H].
    apply negb_true_iff in Hc. now rewrite Hc, IH.
Qed.

(** X4. The alt text derived for a tag of ASCII characters never holds
    a double quote, whatever the tag and its [src]; so the attribute the
    rule writes reads back, by the attribute pattern, as exactly the
    derived text, and the text after the attribute is the text that was
    there. *)
Theorem alt_attribute_reads_back_as_the_alt_text (img rest : text) :
  ascii_text img ->
  forallb not_dq (alt_text img) = true
  /\ Re.quoted_attr "alt" None
       (txt "alt=" ++ [dq] ++ alt_text img ++ [dq] ++ rest)
     = Some (alt_text img, txt "alt=" ++ [dq] ++ alt_text img ++ [dq], rest).
Proof.
  intros _. split; [apply alt_text_not_dq|].
  unfold Re.quoted_attr.
  change (txt "alt=" ++ [dq] ++ alt_text img ++ [dq] ++ rest)
    with (Re.attr_open "alt" ++ (alt_text img ++ dq :: rest)).
  rewrite strip_prefix_app.
  rewrite (span_until_stop_free dq _ rest (alt_text_not_dq img)).
  reflexivity.
Qed.

Lemma alt_attribute_reads_back_as_the_alt_text_witness :
  Re.quoted_attr "alt" None
    (txt "alt=" ++ [dq] ++ txt "My Cool Photo" ++ [dq] ++ txt " src=" ++ [dq]
       ++ txt "my-cool_photo.png" ++ [dq] ++ txt ">")
  = Some (txt "My Cool Photo",
          txt "alt=" ++ [dq] ++ txt "My Cool Photo" ++ [dq],
          txt " src=" ++ [dq] ++ txt "my-cool_photo.png" ++ [dq] ++ txt ">").
Proof.
  refine (proj2 (alt_attribute_reads_back_as_the_alt_text
                   (txt "<img src=" ++ [dq] ++ txt "my-cool_photo.png" ++ [dq]
                      ++ txt ">")
                   (txt " src=" ++ [dq] ++ txt "my-cool_photo.png" ++ [dq]
                      ++ txt ">") _)).
  reflexivity.
Defined.

(** ** The viewport rule where the head tag is bare *)

Lemma strip_prefix_short K s :
  length s < length K -> Py.strip_prefix K s = None.
Proof.
  revert s; induction K as [|k K IH]; intros s H; [simpl in H; lia|].
  destruct s as [|c s]; [reflexivity|]. simpl in *.
  destruct (Ascii.eqb k c); [apply IH; lia|reflexivity].
Qed.

Lemma isin_short K s : length s < length K -> Py.isin K s = false.
Proof.
  induction s as [|c s IH]; intros H; cbn [Py.isin];
    rewrite (strip_prefix_short K _ H); [reflexivity|].
  apply IH. simpl in H. lia.
Qed.

Lemma strip_prefix_longer K u v :
  Py.strip_prefix K (u ++ v) = None -> Py.strip_prefix K u = None.
Proof.
  intros H. destruct (Py.strip_prefix K u) as [t|] eqn:E; [|reflexivity].
  apply strip_prefix_Some in E. subst u.
  rewrite <- app_assoc, strip_prefix_app in H. discriminate.
Qed.

(** The occurrence [partition] splits at is the leftmost one. *)
Lemma partition_first_leftmost K' z s :
  forall a b,
    Py.partition_first (K' ++ [z]) s = Some (a, b) ->
    Py.isin (K' ++ [z]) (a ++ K') = false.
Proof.
  assert (Short : Py.isin (K' ++ [z]) K' = false)
    by (apply isin_short; rewrite length_app; simpl; lia).
  induction s as [|c s IH]; intros a b; cbn [Py.partition_first].
  - destruct (Py.strip_prefix (K' ++ [z]) []) eqn:E; [|discriminate].
    now intros [= <- <-].
  - destruct (Py.strip_prefix (K' ++ [z]) (c :: s)) eqn:E;
      [now intros [= <- <-]|].
    destruct (Py.partition_first (K' ++ [z]) s) as [[a' b']|] eqn:P;
      [|discriminate].
    intros [= <- <-]. cbn [app]. rewrite isin_cons, (IH _ _ eq_refl).
    rewrite orb_false_r. unfold Py.startswith.
    apply partition_first_Some in P. subst s.
    rewrite <- (app_assoc K' [z] b') in E.
    change (c :: a' ++ K' ++ [z] ++ b')
      with ((c :: a') ++ K' ++ [z] ++ b') in E.
    rewrite (app_assoc (c :: a') K') in E.
    pose proof (strip_prefix_longer _ _ _ E) as E'. cbn [app] in E'.
    now rewrite E'.
Qed.

(** X2. Where the text holds no viewport tag and holds the bare tag
    [<head>], the viewport rule splits the text at the leftmost [<head>]
    (none starts before it), puts a newline, four spaces and the viewport
    tag right after that tag, keeps everything else as it is, and logs one
    [viewport] record. *)
Theorem viewport_rule_inserts_after_the_first_bare_head
    (file_path : string) (content : text) :
  Py.isin viewport_marker content = false ->
  occurs (txt "<head>") content ->
  exists a b,
    content = a ++ txt "<head>" ++ b
    /\ Py.isin (txt "<head>") (a ++ txt "<head") = false
    /\ viewport_rule file_path content
       = (a ++ head_with_viewport ++ b, [viewport_change file_path]).
Proof.
  intros M H. apply isin_occurs in H.
  destruct (partition_first_isin _ _ H) as (a & b & P).
  exists a, b. split; [now apply partition_first_Some|].
  split; [exact (partition_first_leftmost (txt "<head") ">" content a b P)|].
  now apply viewport_rule_literal_head.
Qed.

Lemma viewport_rule_inserts_after_the_first_bare_head_witness :
  exists a b,
    txt "<html><head></head></html>" = a ++ txt "<head>" ++ b
    /\ Py.isin (txt "<head>") (a ++ txt "<head") = false
    /\ viewport_rule "index.html" (txt "<html><head></head></html>")
       = (a ++ head_with_viewport ++ b, [viewport_change "index.html"]).
Proof.
  refine (viewport_rule_inserts_after_the_first_bare_head "index.html"
            (txt "<html><head></head></html>") _ _).
  - reflexivity.
  - exists (txt "<html>"), (txt "</head></html>"). reflexivity.
Defined.

(** ** The command line and the backup *)

(** X16. The backup is attempted only without both flags.  From the
    command line, without [--dry-run] and without [--no-backup], a copy
    that raises ends the session with the exception, no record logged and
    no file written by it; with either flag the outcome of the session
    does not depend on what copying would do. *)
Theorem backup_is_attempted_only_without_both_flags
    (copytree : gmap string text -> option (gmap string text))
    (dry_run no_backup : bool) (html_files css_files js_files : list string)
    (d : gmap string text) :
  let o := main copytree dry_run no_backup html_files css_files js_files d in
  if negb no_backup && negb dry_run
  then copytree d = None ->
       exists st, o = Raised st /\ changes st = [] /\ writes st = []
  else forall copytree',
         main copytree' dry_run no_backup html_files css_files js_files d = o.
Proof.
  cbv zeta. unfold main. rewrite modernize_as_visit. unfold backup_step.
  destruct (negb no_backup && negb dry_run) eqn:B.
  - intros C. unfold create_backup. cbn [new_session disk]. rewrite C.
    exists (new_session d). repeat split.
  - intros copytree'. rewrite modernize_as_visit. unfold backup_step.
    now rewrite B.
Qed.

(** ** What the path of the file contributes *)

Lemma deprecated_fold_path p1 p2 table : forall content l,
  fold_left (deprecated_step p1) table (content, map (with_file p1) l)
  = (fst (fold_left (deprecated_step p2) table (content, l)),
     map (with_file p1) (snd (fold_left (deprecated_step p2) table (content, l)))).
Proof.
  induction table as [|it table IH]; intros content l; [reflexivity|].
  cbn [fold_left deprecated_step].
  destruct (Py.isin (fst it) content); [|apply IH].
  rewrite <- IH. now rewrite map_app.
Qed.

Lemma rule_path (rule : string -> text -> text * list ChangeRecord) :
  rule = inline_styles_rule \/ rule = viewport_rule \/ rule = alt_rule
  \/ rule = deprecated_rule \/ rule = css_transform \/ rule = js_transform ->
  forall p1 p2 content,
    rule p1 content
    = (fst (rule p2 content), map (with_file p1) (snd (rule p2 content))).
Proof.
  intros [->|[->|[->|[->|[->| ->]]]]] p1 p2 content.
  - unfold inline_styles_rule.
    destruct (Re.findall (Re.quoted_attr "style") content); [reflexivity|].
    destruct (fold_left inline_style_step _ _) as [[|c css] content'];
      reflexivity.
  - unfold viewport_rule.
    now destruct (negb (Py.isin viewport_marker content)
                  && Py.isin (txt "<head") content).
  - unfold alt_rule.
    now destruct (Re.findall Re.img_without_alt content).
  - unfold deprecated_rule.
    apply (deprecated_fold_path p1 p2 deprecated_replacements content []).
  - unfold css_transform.
    now destruct (negb (Py.isin (txt "--") content)).
  - unfold js_transform.
    now destruct (Re.findall Re.var_declaration content).
Qed.

Lemma transform_path k p1 p2 content :
  transform_of k p1 content
  = (fst (transform_of k p2 content),
     map (with_file p1) (snd (transform_of k p2 content))).
Proof.
  destruct k; cbn [transform_of];
    [|apply rule_path; tauto|apply rule_path; tauto].
  rewrite !html_transform_unfold. cbv zeta.
  rewrite (rule_path inline_styles_rule ltac:(tauto) p1 p2). cbn [fst snd].
  rewrite (rule_path viewport_rule ltac:(tauto) p1 p2). cbn [fst snd].
  rewrite (rule_path alt_rule ltac:(tauto) p1 p2). cbn [fst snd].
  rewrite (rule_path deprecated_rule ltac:(tauto) p1 p2). cbn [fst snd].
  now rewrite !map_app.
Qed.

(** C9. Each per-file method is a function of the text read and of the
  path alone: two runs that read the same text at the same path hold the
  same transformed text and append the same records, whatever the flags,
  the rest of the disk and the log so far.  Of the path the rules use
  nothing but its name for the [file] field of their records: on the
  same text at two paths they compute the same text and the same records
  up to that field. *)
Theorem per_file_methods_are_deterministic :
  depends_on_text_and_path modernize_html
  /\ depends_on_text_and_path modernize_css
  /\ depends_on_text_and_path modernize_js
  /\ (forall k p1 p2 content,
        fst (transform_of k p1 content) = fst (transform_of k p2 content)
        /\ snd (transform_of k p1 content)
           = map (with_file p1) (snd (transform_of k p2 content))).
Proof.
  repeat split; try apply modernize_file_depends_on_text_and_path;
    now rewrite (transform_path k p1 p2).
Qed.
